(** * Mercure hub: durable transport and subscriber pump

    A shallow embedding of [hub/bolt_transport.go] (the Bolt-backed
    transport: [NewBoltTransport], [Write], [persist], [cleanup],
    [CreatePipe], [fetch], [Close]), of the subscriber pump ([NewSubscriber],
    [start], [outChan], [nextUpdate], [CanDispatch], [IsAuthorized],
    [IsSubscribed]) and the subscriber's [Dispatch], of the replay into a
    subscriber ([dispatchFromHistory]) and of the publisher's side
    ([dispatch], [getAuthorizedTargets]).

    Conventions.
    - A [uint64] is a [Z] in [0, 2^64); the only place where the program can
      wrap around ([NextSequence]) has the reduction written out.
    - A byte is a [Z] in [0, 256); a byte slice is a [list Z].
    - A Go [map[string]struct{}] is a [gset string], [map[string]bool] a
      [gmap string bool], [map[*Pipe]struct{}] a [gset loc] over a heap of
      pipes ([gmap loc Pipe.t]): a pipe is shared by the transport and by the
      goroutine that fills it.
    - A function that can panic returns a [result]; a Go [error] value is an
      [option error] ([None] is [nil]).
    - [float64] comparisons on the retention parameter are exact comparisons of
      finite values; they are carried out on [Q]. *)

From Stdlib Require Import ZArith QArith List String Ascii Lia Bool.
From stdpp Require Import base gmap sets list strings sorting.

Local Open Scope Z_scope.

(** ** Data *)

Abbreviation bytes := (list Z).
Abbreviation loc := positive.

Inductive error : Type :=
| ErrClosedTransport
| ErrDatabaseNotOpen
| ErrMarshal
| ErrUnmarshal
| ErrPut
| ErrDelete.

Inductive result (A : Type) : Type :=
| Ok (a : A)
| Panic.
Arguments Ok {A} a.
Arguments Panic {A}.

Module Update.
(** [Update{Targets, Topics, Event{Data, ID, Type, Retry}}]; the embedded
    [Event] is flattened, as Go's field promotion does for [update.ID]. *)
Record t : Type := mk {
  Targets : gset string;
  Topics : list string;
  Data : string;
  ID : string;
  Type_ : string;
  Retry : Z
}.
End Update.

Module Pipe.
(** Modelled from the spec: the [Pipe] type of pipe.go, which is not among
    the sources. A pipe is the buffered channel [updates] that [Read]
    returns, created by [NewPipe size timeout]: its queued updates (oldest
    first), whether the channel has been closed, and its capacity. *)
Record t : Type := mk {
  updates : list Update.t;
  closed : bool;
  capacity : nat;
  bufferFullTimeout : Z
}.
End Pipe.

Module Bucket.
(** The storage primitive's bucket: a per-bucket [uint64] sequence and the
    key/value pairs, kept in the byte order of their keys. *)
Record t : Type := mk {
  sequence : Z;
  inodes : list (bytes * bytes)
}.
End Bucket.

Module DB.
Record t : Type := mk {
  opened : bool;
  buckets : gmap string Bucket.t
}.
End DB.

Module BoltTransport.
Record t : Type := mk {
  db : DB.t;
  bucketName : string;
  size : Z;
  cleanupFrequency : Q;
  pipes : gset loc;
  done : bool;
  lastSeq : Z;
  bufferSize : nat;
  bufferFullTimeout : Z
}.
End BoltTransport.

Module updateSrc.
(** [In] tells whether the field holds a channel or [nil]; the channel
    itself belongs to the sender. *)
Record t : Type := mk {
  In : bool;
  buffer : list Update.t
}.
End updateSrc.

Module Subscriber.
(** A [*uritemplate.Template] is kept as the template's text. The channels
    [Out], [ClientDisconnect] and [ServerDisconnect] are the pump's
    environment: see [event]. *)
Record t : Type := mk {
  AllTargets : bool;
  Targets : gset string;
  Topics : list string;
  RawTopics : list string;
  TemplateTopics : list string;
  LastEventID : string;
  RemoteAddr : string;
  HistorySrc : updateSrc.t;
  LiveSrc : updateSrc.t;
  debug : bool;
  matchCache : gmap string bool
}.
End Subscriber.

Module URL.
(** What [NewBoltTransport] reads of a [*url.URL]: [Path], [Host] and the
    parsed query that [u.Query()] returns, a [url.Values]. *)
Record t : Type := mk {
  Path : string;
  Host : string;
  Query : gmap string (list string)
}.
End URL.

Module Listener.
(** The subscriber as a transport that calls its [Dispatch] meets it: the
    updates it has received on its history input (a channel, not [nil]: the
    replay is started for such subscribers only), whether that channel has
    been closed, the updates it has received on its live input, and how
    many more handoffs it takes before one of its disconnect signals
    fires. *)
Record t : Type := mk {
  received : list Update.t;
  closed : bool;
  live : list Update.t;
  takes : nat
}.
End Listener.

(** A goroutine started by [go t.fetch(fromID, toSeq, pipe)]. *)
Record FetchTask : Type := mkFetchTask {
  task_fromID : string;
  task_toSeq : Z;
  task_pipe : loc
}.

(** ** Byte strings and [encoding/binary]'s big-endian words *)

Definition bytes_of_string (s : string) : bytes :=
  map (fun a => Z.of_N (N_of_ascii a)) (list_ascii_of_string s).

Definition string_of_bytes (b : bytes) : string :=
  string_of_list_ascii (map (fun x => ascii_of_N (Z.to_N x)) b).

(** [bytes.Compare]: the order of a bucket's keys. *)
Fixpoint bytes_compare (a b : bytes) : comparison :=
  match a, b with
  | [], [] => Eq
  | [], _ :: _ => Lt
  | _ :: _, [] => Gt
  | x :: a', y :: b' =>
      match x ?= y with
      | Eq => bytes_compare a' b'
      | c => c
      end
  end.

(** [binary.BigEndian.PutUint64(prefix, v)] on a fresh 8-byte slice. *)
Definition PutUint64 (v : Z) : bytes :=
  [ Z.land (Z.shiftr v 56) 255; Z.land (Z.shiftr v 48) 255;
    Z.land (Z.shiftr v 40) 255; Z.land (Z.shiftr v 32) 255;
    Z.land (Z.shiftr v 24) 255; Z.land (Z.shiftr v 16) 255;
    Z.land (Z.shiftr v 8) 255;  Z.land v 255 ].

(** [binary.BigEndian.Uint64(b)] for a slice of at least 8 bytes. *)
Definition Uint64 (b : bytes) : Z :=
  Z.lor (Z.lor (Z.lor (Z.lor (Z.lor (Z.lor (Z.lor
    (nth 7 b 0)
    (Z.shiftl (nth 6 b 0) 8))
    (Z.shiftl (nth 5 b 0) 16))
    (Z.shiftl (nth 4 b 0) 24))
    (Z.shiftl (nth 3 b 0) 32))
    (Z.shiftl (nth 2 b 0) 40))
    (Z.shiftl (nth 1 b 0) 48))
    (Z.shiftl (nth 0 b 0) 56).

(** [binary.BigEndian.Uint64(k[:8])]: slicing a key shorter than 8 bytes
    panics. *)
Definition key_seq (k : bytes) : result Z :=
  if (length k <? 8)%nat then Panic else Ok (Uint64 (take 8 k)).

(** [string(k[8:])], with the same panic. *)
Definition key_id (k : bytes) : result string :=
  if (length k <? 8)%nat then Panic else Ok (string_of_bytes (drop 8 k)).

(** The [n] base-256 digits of [v], most significant first. *)
Fixpoint be_digits (n : nat) (v : Z) : bytes :=
  match n with
  | O => []
  | S n' => (v / 256 ^ Z.of_nat n') mod 256 :: be_digits n' v
  end.

Definition is_byte (x : Z) : Prop := 0 <= x < 256.

Abbreviation heap := (gmap loc Pipe.t).

(** What the [select] of the pump can be woken by: a disconnect signal, a
    value or the close of [HistorySrc.In], a value on [LiveSrc.In], or a
    reader taking the value offered on [Out]. *)
Inductive event : Type :=
| ClientDisconnect
| ServerDisconnect
| HistoryRecv (u : Update.t)
| HistoryClosed
| LiveRecv (u : Update.t)
| OutSend.

(** One turn of the pump's loop. [Continue s sent]: the loop goes on in state
    [s]; [sent] is the pointer written to [Out] in this turn, if any ([Some
    None] is a [nil] pointer). [Blocked]: the chosen case is not ready. *)
Inductive turn : Type :=
| Return
| Blocked
| Continue (s : Subscriber.t) (sent : option (option Update.t))
| Panics.


Section Mercure.

(** [encoding/json] on [Update] values, and the storage primitive's own
    failures ([Put] and [Delete] return an error for reasons the program
    does not control). *)
Variable json_Marshal : Update.t -> option bytes.
Variable json_Unmarshal : bytes -> option Update.t.
Variable Put_fails : bytes -> bytes -> bool.
Variable Delete_fails : bytes -> bool.

(** [tt.Match(ut) != nil] of the uritemplate package. *)
Variable Template_Match : string -> string -> bool.

(** ** The storage primitive *)

(** [bucket.NextSequence()]: increments the bucket's [uint64] counter and
    returns it. *)
Definition NextSequence (b : Bucket.t) : Bucket.t * Z :=
  let seq := (Bucket.sequence b + 1) mod 2 ^ 64 in
  (Bucket.mk seq (Bucket.inodes b), seq).

Fixpoint put_inode (key value : bytes) (l : list (bytes * bytes))
  : list (bytes * bytes) :=
  match l with
  | [] => [(key, value)]
  | (k, v) :: l' =>
      match bytes_compare key k with
      | Lt => (key, value) :: l
      | Eq => (key, value) :: l'
      | Gt => (k, v) :: put_inode key value l'
      end
  end.

Fixpoint del_inode (key : bytes) (l : list (bytes * bytes))
  : list (bytes * bytes) :=
  match l with
  | [] => []
  | (k, v) :: l' =>
      match bytes_compare key k with
      | Eq => l'
      | _ => (k, v) :: del_inode key l'
      end
  end.

(** [bucket.Put(key, value)]. *)
Definition Put (b : Bucket.t) (key value : bytes) : Bucket.t * option error :=
  if Put_fails key value then (b, Some ErrPut)
  else (Bucket.mk (Bucket.sequence b) (put_inode key value (Bucket.inodes b)), None).

(** [bucket.Delete(key)]. *)
Definition Delete (b : Bucket.t) (key : bytes) : Bucket.t * option error :=
  if Delete_fails key then (b, Some ErrDelete)
  else (Bucket.mk (Bucket.sequence b) (del_inode key (Bucket.inodes b)), None).

(** [bucket.Cursor()] walked with [First]/[Next]: the pairs in key order.
    Deleting the key under the cursor leaves the keys after it in the
    bucket. A loop that only reads is a recursion over this list; so is a
    loop that deletes as it goes, as long as [c.Next()] after
    [bucket.Delete] yields the key that followed the deleted one. *)
Definition Cursor (b : Bucket.t) : list (bytes * bytes) := Bucket.inodes b.

(** [tx.CreateBucketIfNotExists(name)] inside a read-write transaction; the
    name is never blank ([NewBoltTransport] falls back to "updates"), so the
    call does not fail. *)
Definition CreateBucketIfNotExists (tx : gmap string Bucket.t) (name : string)
  : gmap string Bucket.t * Bucket.t :=
  match tx !! name with
  | Some b => (tx, b)
  | None => (<[name := Bucket.mk 0 []]> tx, Bucket.mk 0 [])
  end.

(** ** Pipes *)

(** Modelled from the spec: [NewPipe(size, timeout)] of pipe.go. *)
Definition NewPipe (size : nat) (timeout : Z) : Pipe.t :=
  Pipe.mk [] false size timeout.

(** Modelled from the spec: [pipe.Write(update)] of pipe.go, the handoff of
    an update to a pipe. It reports [false] when the pipe refuses the update:
    the pipe is closed, or its buffer stayed full for the whole timeout. *)
Definition Pipe_Write (p : Pipe.t) (update : Update.t) : Pipe.t * bool :=
  if Pipe.closed p then (p, false)
  else if (length (Pipe.updates p) <? Pipe.capacity p)%nat
       then (Pipe.mk (Pipe.updates p ++ [update]) false (Pipe.capacity p)
                     (Pipe.bufferFullTimeout p), true)
       else (p, false).

(** [close(pipe.Read())]: closing a closed channel panics. *)
Definition close_chan (p : Pipe.t) : result Pipe.t :=
  if Pipe.closed p then Panic
  else Ok (Pipe.mk (Pipe.updates p) true (Pipe.capacity p) (Pipe.bufferFullTimeout p)).

(** ** The transport *)

Definition set_db (t : BoltTransport.t) (d : DB.t) : BoltTransport.t :=
  BoltTransport.mk d (BoltTransport.bucketName t) (BoltTransport.size t)
    (BoltTransport.cleanupFrequency t) (BoltTransport.pipes t)
    (BoltTransport.done t) (BoltTransport.lastSeq t)
    (BoltTransport.bufferSize t) (BoltTransport.bufferFullTimeout t).

Definition set_pipes (t : BoltTransport.t) (ps : gset loc) : BoltTransport.t :=
  BoltTransport.mk (BoltTransport.db t) (BoltTransport.bucketName t)
    (BoltTransport.size t) (BoltTransport.cleanupFrequency t) ps
    (BoltTransport.done t) (BoltTransport.lastSeq t)
    (BoltTransport.bufferSize t) (BoltTransport.bufferFullTimeout t).

Definition set_done (t : BoltTransport.t) : BoltTransport.t :=
  BoltTransport.mk (BoltTransport.db t) (BoltTransport.bucketName t)
    (BoltTransport.size t) (BoltTransport.cleanupFrequency t)
    (BoltTransport.pipes t) true (BoltTransport.lastSeq t)
    (BoltTransport.bufferSize t) (BoltTransport.bufferFullTimeout t).

Definition set_lastSeq (t : BoltTransport.t) (seq : Z) : BoltTransport.t :=
  BoltTransport.mk (BoltTransport.db t) (BoltTransport.bucketName t)
    (BoltTransport.size t) (BoltTransport.cleanupFrequency t)
    (BoltTransport.pipes t) (BoltTransport.done t) seq
    (BoltTransport.bufferSize t) (BoltTransport.bufferFullTimeout t).

Definition Qltb (x y : Q) : bool :=
  match (x ?= y)%Q with
  | Lt => true
  | _ => false
  end.

(** The guard of [cleanup]: [true] when the function returns at once.
    [r] is the value [rand.Float64()] yields if it is called. *)
Definition cleanup_skips (size : Z) (cleanupFrequency r : Q) (lastID : Z) : bool :=
  (size =? 0)
  || Qeq_bool cleanupFrequency 0
  || (lastID <=? size)
  || (negb (Qeq_bool cleanupFrequency 1) && Qltb r cleanupFrequency).

(** The cursor loop of [cleanup], on a cursor that [bucket.Delete] leaves
    in place: after a deletion [c.Next()] yields the key that followed the
    deleted one. [cleanup_loop_skipping] below is the loop without that
    assumption. *)
Fixpoint cleanup_loop (removeUntil : Z) (c : list (bytes * bytes))
  (bucket : Bucket.t) : result (Bucket.t * option error) :=
  match c with
  | [] => Ok (bucket, None)
  | (k, _) :: c' =>
      match key_seq k with
      | Panic => Panic
      | Ok s =>
          if removeUntil <? s then Ok (bucket, None)
          else
            match Delete bucket k with
            | (bucket', Some err) => Ok (bucket', Some err)
            | (bucket', None) => cleanup_loop removeUntil c' bucket'
            end
      end
  end.

Definition cleanup (t : BoltTransport.t) (r : Q) (bucket : Bucket.t) (lastID : Z)
  : result (Bucket.t * option error) :=
  if cleanup_skips (BoltTransport.size t) (BoltTransport.cleanupFrequency t) r lastID
  then Ok (bucket, None)
  else
    let removeUntil := lastID - BoltTransport.size t in
    cleanup_loop removeUntil (Cursor bucket) bucket.

(** The function [persist] hands to [db.Update]: the transaction's buckets
    after it, the sequence stored in [lastSeq], and the error returned. *)
Definition persist_tx (t : BoltTransport.t) (r : Q) (updateID : string)
  (updateJSON : bytes) (tx : gmap string Bucket.t)
  : result (gmap string Bucket.t * Z * option error) :=
  let '(tx1, bucket0) := CreateBucketIfNotExists tx (BoltTransport.bucketName t) in
  let '(bucket1, seq) := NextSequence bucket0 in
  let prefix := PutUint64 seq in
  let key := prefix ++ bytes_of_string updateID in
  match cleanup t r bucket1 seq with
  | Panic => Panic
  | Ok (bucket2, Some err) =>
      Ok (<[BoltTransport.bucketName t := bucket2]> tx1, seq, Some err)
  | Ok (bucket2, None) =>
      let '(bucket3, err) := Put bucket2 key updateJSON in
      Ok (<[BoltTransport.bucketName t := bucket3]> tx1, seq, err)
  end.

(** [persist]: [db.Update] commits the transaction when the function
    returns [nil] and rolls it back otherwise; [lastSeq] is not part of the
    transaction. *)
Definition persist (t : BoltTransport.t) (r : Q) (updateID : string)
  (updateJSON : bytes) : result (BoltTransport.t * option error) :=
  if DB.opened (BoltTransport.db t) then
    match persist_tx t r updateID updateJSON (DB.buckets (BoltTransport.db t)) with
    | Panic => Panic
    | Ok (tx', seq, Some err) => Ok (set_lastSeq t seq, Some err)
    | Ok (tx', seq, None) =>
        Ok (set_db (set_lastSeq t seq) (DB.mk true tx'), None)
    end
  else Ok (t, Some ErrDatabaseNotOpen).

(** The fan-out loop of [Write], over the pipes in the order [range]
    yields them. *)
Fixpoint fanout (update : Update.t) (ls : list loc) (h : heap) (ps : gset loc)
  : result (heap * gset loc) :=
  match ls with
  | [] => Ok (h, ps)
  | pipe :: ls' =>
      match h !! pipe with
      | None => Panic
      | Some p =>
          let '(p', ok) := Pipe_Write p update in
          fanout update ls' (<[pipe := p']> h) (if ok then ps else ps ∖ {[pipe]})
      end
  end.

Definition Write (h : heap) (t : BoltTransport.t) (r : Q) (update : Update.t)
  : result (heap * BoltTransport.t * option error) :=
  if BoltTransport.done t then Ok (h, t, Some ErrClosedTransport)
  else
    match json_Marshal update with
    | None => Ok (h, t, Some ErrMarshal)
    | Some updateJSON =>
        match persist t r (Update.ID update) updateJSON with
        | Panic => Panic
        | Ok (t', Some err) => Ok (h, t', Some err)
        | Ok (t', None) =>
            match fanout update (elements (BoltTransport.pipes t')) h
                         (BoltTransport.pipes t') with
            | Panic => Panic
            | Ok (h', ps) => Ok (h', set_pipes t' ps, None)
            end
        end
    end.

(** [CreatePipe]: the new state, the pipe returned (with the error), and
    the goroutine it starts, if any. *)
Definition CreatePipe (h : heap) (t : BoltTransport.t) (fromID : string)
  : heap * BoltTransport.t * option loc * option error * option FetchTask :=
  if BoltTransport.done t then (h, t, None, Some ErrClosedTransport, None)
  else
    let pipe := fresh (dom h) in
    let h' := <[pipe := NewPipe (BoltTransport.bufferSize t)
                                 (BoltTransport.bufferFullTimeout t)]> h in
    let t' := set_pipes t ({[pipe]} ∪ BoltTransport.pipes t) in
    if String.eqb fromID EmptyString then (h', t', Some pipe, None, None)
    else
      let toSeq := BoltTransport.lastSeq t in
      (h', t', Some pipe, None, Some (mkFetchTask fromID toSeq pipe)).

(** The cursor loop of [fetch]. *)
Fixpoint fetch_loop (fromID : string) (toSeq : Z) (c : list (bytes * bytes))
  (afterFromID : bool) (pipe : Pipe.t) : result (Pipe.t * option error) :=
  match c with
  | [] => Ok (pipe, None)
  | (k, v) :: c' =>
      if negb afterFromID then
        match key_id k with
        | Panic => Panic
        | Ok id => fetch_loop fromID toSeq c' (String.eqb id fromID) pipe
        end
      else
        match json_Unmarshal v with
        | None => Ok (pipe, Some ErrUnmarshal)
        | Some update =>
            let '(pipe', ok) := Pipe_Write pipe update in
            if negb ok then Ok (pipe', None)
            else if 0 <? toSeq then
              match key_seq k with
              | Panic => Panic
              | Ok s =>
                  if toSeq <=? s then Ok (pipe', None)
                  else fetch_loop fromID toSeq c' true pipe'
              end
            else fetch_loop fromID toSeq c' true pipe'
        end
  end.

(** [fetch], run on the database as it is when the goroutine gets its
    read transaction: the pipe afterwards and the error it logs. *)
Definition fetch (t : BoltTransport.t) (fromID : string) (toSeq : Z) (pipe : Pipe.t)
  : result (Pipe.t * option error) :=
  if DB.opened (BoltTransport.db t) then
    match DB.buckets (BoltTransport.db t) !! BoltTransport.bucketName t with
    | None => Ok (pipe, None)
    | Some b => fetch_loop fromID toSeq (Cursor b) false pipe
    end
  else Ok (pipe, Some ErrDatabaseNotOpen).

(** The loop of [Close] over the attached pipes. *)
Fixpoint close_pipes (ls : list loc) (h : heap) : result heap :=
  match ls with
  | [] => Ok h
  | pipe :: ls' =>
      match h !! pipe with
      | None => Panic
      | Some p =>
          match close_chan p with
          | Panic => Panic
          | Ok p' => close_pipes ls' (<[pipe := p']> h)
          end
      end
  end.

Definition Close (h : heap) (t : BoltTransport.t)
  : result (heap * BoltTransport.t * option error) :=
  if BoltTransport.done t then Ok (h, t, None)
  else
    match close_pipes (elements (BoltTransport.pipes t)) h with
    | Panic => Panic
    | Ok h' =>
        Ok (h', set_db (set_done t)
                  (DB.mk false (DB.buckets (BoltTransport.db t))), None)
    end.

(** ** The subscriber *)

Definition NewSubscriber (allTargets : bool) (targets : gset string)
  (topics rawTopics templateTopics : list string)
  (lastEventID remoteAddr : string) (debug : bool) : Subscriber.t :=
  Subscriber.mk allTargets targets topics rawTopics templateTopics
    lastEventID remoteAddr
    (updateSrc.mk (negb (String.eqb lastEventID EmptyString)) [])
    (updateSrc.mk true [])
    debug ∅.

Definition set_history (s : Subscriber.t) (src : updateSrc.t) : Subscriber.t :=
  Subscriber.mk (Subscriber.AllTargets s) (Subscriber.Targets s)
    (Subscriber.Topics s) (Subscriber.RawTopics s) (Subscriber.TemplateTopics s)
    (Subscriber.LastEventID s) (Subscriber.RemoteAddr s)
    src (Subscriber.LiveSrc s) (Subscriber.debug s) (Subscriber.matchCache s).

Definition set_live (s : Subscriber.t) (src : updateSrc.t) : Subscriber.t :=
  Subscriber.mk (Subscriber.AllTargets s) (Subscriber.Targets s)
    (Subscriber.Topics s) (Subscriber.RawTopics s) (Subscriber.TemplateTopics s)
    (Subscriber.LastEventID s) (Subscriber.RemoteAddr s)
    (Subscriber.HistorySrc s) src (Subscriber.debug s) (Subscriber.matchCache s).

Definition set_matchCache (s : Subscriber.t) (m : gmap string bool) : Subscriber.t :=
  Subscriber.mk (Subscriber.AllTargets s) (Subscriber.Targets s)
    (Subscriber.Topics s) (Subscriber.RawTopics s) (Subscriber.TemplateTopics s)
    (Subscriber.LastEventID s) (Subscriber.RemoteAddr s)
    (Subscriber.HistorySrc s) (Subscriber.LiveSrc s) (Subscriber.debug s) m.

Definition outChan (s : Subscriber.t) : bool :=
  (0 <? length (updateSrc.buffer (Subscriber.LiveSrc s)))%nat
  || (0 <? length (updateSrc.buffer (Subscriber.HistorySrc s)))%nat.

Definition nextUpdate (s : Subscriber.t) : option Update.t :=
  if updateSrc.In (Subscriber.HistorySrc s)
     || (0 <? length (updateSrc.buffer (Subscriber.HistorySrc s)))%nat
  then
    match updateSrc.buffer (Subscriber.HistorySrc s) with
    | u :: _ => Some u
    | [] => None
    end
  else
    match updateSrc.buffer (Subscriber.LiveSrc s) with
    | u :: _ => Some u
    | [] => None
    end.

Definition IsAuthorized (s : Subscriber.t) (u : Update.t) : bool :=
  if Subscriber.AllTargets s || bool_decide (Update.Targets u = ∅) then true
  else existsb (fun t => bool_decide (t ∈ Update.Targets u))
               (elements (Subscriber.Targets s)).

(** The loop of [IsSubscribed] over the update's topics, threading the
    match cache. *)
Fixpoint IsSubscribed_loop (rawTopics templateTopics : list string)
  (topics : list string) (cache : gmap string bool) : bool * gmap string bool :=
  match topics with
  | [] => (false, cache)
  | ut :: topics' =>
      match cache !! ut with
      | Some true => (true, cache)
      | Some false => IsSubscribed_loop rawTopics templateTopics topics' cache
      | None =>
          if existsb (fun rt => String.eqb ut rt) rawTopics
          then (true, <[ut := true]> cache)
          else if existsb (fun tt => Template_Match tt ut) templateTopics
          then (true, <[ut := true]> cache)
          else IsSubscribed_loop rawTopics templateTopics topics'
                 (<[ut := false]> cache)
      end
  end.

Definition IsSubscribed (s : Subscriber.t) (u : Update.t) : bool * Subscriber.t :=
  let '(b, cache) :=
    IsSubscribed_loop (Subscriber.RawTopics s) (Subscriber.TemplateTopics s)
      (Update.Topics u) (Subscriber.matchCache s) in
  (b, set_matchCache s cache).

Definition CanDispatch (s : Subscriber.t) (u : Update.t) : bool * Subscriber.t :=
  if negb (IsAuthorized s u) then (false, s)
  else
    let '(subscribed, s') := IsSubscribed s u in
    if negb subscribed then (false, s') else (true, s').

(** The body of the [for] loop of [start], for the case of the [select]
    that [e] wakes. *)
Definition select (s : Subscriber.t) (e : event) : turn :=
  match e with
  | ClientDisconnect => Return
  | ServerDisconnect => Return
  | HistoryClosed =>
      if updateSrc.In (Subscriber.HistorySrc s)
      then Continue
             (set_history s (updateSrc.mk false
                               (updateSrc.buffer (Subscriber.HistorySrc s))))
             None
      else Blocked
  | HistoryRecv u =>
      if updateSrc.In (Subscriber.HistorySrc s) then
        let '(ok, s') := CanDispatch s u in
        if ok
        then Continue
               (set_history s'
                  (updateSrc.mk (updateSrc.In (Subscriber.HistorySrc s'))
                     (updateSrc.buffer (Subscriber.HistorySrc s') ++ [u])))
               None
        else Continue s' None
      else Blocked
  | LiveRecv u =>
      if updateSrc.In (Subscriber.LiveSrc s) then
        let '(ok, s') := CanDispatch s u in
        if ok
        then Continue
               (set_live s'
                  (updateSrc.mk (updateSrc.In (Subscriber.LiveSrc s'))
                     (updateSrc.buffer (Subscriber.LiveSrc s') ++ [u])))
               None
        else Continue s' None
      else Blocked
  | OutSend =>
      if outChan s then
        let sent := nextUpdate s in
        if (0 <? length (updateSrc.buffer (Subscriber.HistorySrc s)))%nat
        then Continue
               (set_history s
                  (updateSrc.mk (updateSrc.In (Subscriber.HistorySrc s))
                     (drop 1 (updateSrc.buffer (Subscriber.HistorySrc s)))))
               (Some sent)
        else
          match updateSrc.buffer (Subscriber.LiveSrc s) with
          | [] => Panics
          | _ :: live =>
              Continue
                (set_live s (updateSrc.mk (updateSrc.In (Subscriber.LiveSrc s)) live))
                (Some sent)
          end
      else Blocked
  end.

(** [start] under a schedule: the pointers written to [Out], in order, and
    the state the pump is left in ([None] once the goroutine is gone). An
    event whose case is not ready does not happen. *)
Fixpoint start (s : Subscriber.t) (evs : list event)
  : list (option Update.t) * option Subscriber.t :=
  match evs with
  | [] => ([], Some s)
  | e :: evs' =>
      match select s e with
      | Return => ([], None)
      | Panics => ([], None)
      | Blocked => start s evs'
      | Continue s' sent =>
          let '(out, final) := start s' evs' in
          (match sent with
           | Some v => v :: out
           | None => out
           end, final)
      end
  end.

(** The exact-or-template match that the cache memoizes. *)
Definition topic_match (s : Subscriber.t) (ut : string) : bool :=
  existsb (fun rt => String.eqb ut rt) (Subscriber.RawTopics s)
  || existsb (fun tt => Template_Match tt ut) (Subscriber.TemplateTopics s).

Definition cache_consistent (s : Subscriber.t) (cache : gmap string bool) : Prop :=
  forall ut b, cache !! ut = Some b -> b = topic_match s ut.

(** [IsSubscribed] called on each update of a list in turn. *)
Fixpoint IsSubscribed_calls (s : Subscriber.t) (us : list Update.t)
  : list bool * Subscriber.t :=
  match us with
  | [] => ([], s)
  | u :: us' =>
      let '(b, s') := IsSubscribed s u in
      let '(bs, s'') := IsSubscribed_calls s' us' in
      (b :: bs, s'')
  end.


(** ** Publishing *)

(** The loop of [getAuthorizedTargets] over the requested targets.
    [authorizedAlltargets] and [authorizedTargets] are the two values that
    [authorizedTargets(claims, true)] returned; an error is represented by
    the target it names. *)
Fixpoint getAuthorizedTargets_loop (authorizedAlltargets : bool)
  (authorizedTargets : gset string) (t : list string) (targets : gset string)
  : gset string + string :=
  match t with
  | [] => inl targets
  | x :: t' =>
      if negb authorizedAlltargets && negb (bool_decide (x ∈ authorizedTargets))
      then inr x
      else getAuthorizedTargets_loop authorizedAlltargets authorizedTargets t'
             ({[x]} ∪ targets)
  end.

Definition getAuthorizedTargets (authorizedAlltargets : bool)
  (authorizedTargets : gset string) (t : list string) : gset string + string :=
  getAuthorizedTargets_loop authorizedAlltargets authorizedTargets t ∅.

Definition set_ID (u : Update.t) (id : string) : Update.t :=
  Update.mk (Update.Targets u) (Update.Topics u) (Update.Data u) id
    (Update.Type_ u) (Update.Retry u).

(** [dispatch] on a hub whose transport is the Bolt one. [newV4] is what
    [uuid.NewV4()] yields if it is called, as a string; [uuid.Must] panics
    when it yields an error. The update is returned as the caller sees it
    afterwards. *)
Definition dispatch (newV4 : option string) (h : heap) (t : BoltTransport.t)
  (r : Q) (u : Update.t)
  : result (Update.t * heap * BoltTransport.t * option error) :=
  let assigned :=
    if String.eqb (Update.ID u) EmptyString then
      match newV4 with
      | Some id => Ok (set_ID u id)
      | None => Panic
      end
    else Ok u in
  match assigned with
  | Panic => Panic
  | Ok u' =>
      match Write h t r u' with
      | Panic => Panic
      | Ok (h', t', err) => Ok (u', h', t', err)
      end
  end.

(** ** Replay into a subscriber *)

(** [s.Dispatch(u, fromHistory)] of the subscriber, seen from its caller:
    the [select] between the two disconnect signals and the send of [u] on
    the history or the live input. The send wins as long as the subscriber
    takes handoffs; from then on a disconnect signal does, and the call
    reports [false]. Sending on a closed channel panics. *)
Definition Dispatch (s : Listener.t) (u : Update.t) (fromHistory : bool)
  : result (Listener.t * bool) :=
  match Listener.takes s with
  | O => Ok (s, false)
  | S n =>
      if fromHistory then
        if Listener.closed s then Panic
        else Ok (Listener.mk (Listener.received s ++ [u]) false (Listener.live s) n,
                 true)
      else Ok (Listener.mk (Listener.received s) (Listener.closed s)
                 (Listener.live s ++ [u]) n, true)
  end.

(** [close(s.History.In)]. *)
Definition close_history (s : Listener.t) : result Listener.t :=
  if Listener.closed s then Panic
  else Ok (Listener.mk (Listener.received s) true (Listener.live s)
             (Listener.takes s)).

(** The cursor loop of [dispatchFromHistory]. *)
Fixpoint dispatchFromHistory_loop (lastEventID : string) (toSeq : Z)
  (c : list (bytes * bytes)) (afterFromID : bool) (s : Listener.t)
  : result (Listener.t * option error) :=
  match c with
  | [] => Ok (s, None)
  | (k, v) :: c' =>
      if negb afterFromID then
        match key_id k with
        | Panic => Panic
        | Ok id =>
            dispatchFromHistory_loop lastEventID toSeq c'
              (String.eqb id lastEventID) s
        end
      else
        match json_Unmarshal v with
        | None => Ok (s, Some ErrUnmarshal)
        | Some update =>
            match Dispatch s update true with
            | Panic => Panic
            | Ok (s', ok) =>
                if negb ok then Ok (s', None)
                else if 0 <? toSeq then
                  match key_seq k with
                  | Panic => Panic
                  | Ok q =>
                      if toSeq <=? q then Ok (s', None)
                      else dispatchFromHistory_loop lastEventID toSeq c' true s'
                  end
                else dispatchFromHistory_loop lastEventID toSeq c' true s'
            end
        end
  end.

(** [dispatchFromHistory] of the transport that replays into subscribers;
    it reads [t.db] and [t.bucketName] only. [db.View] does not call its
    function on a database that is not open; the function's first statement
    defers the close of the history input, and the error it returns goes
    nowhere. *)
Definition dispatchFromHistory (t : BoltTransport.t) (lastEventID : string)
  (toSeq : Z) (s : Listener.t) : result Listener.t :=
  if DB.opened (BoltTransport.db t) then
    let body :=
      match DB.buckets (BoltTransport.db t) !! BoltTransport.bucketName t with
      | None => Ok (s, None)
      | Some b => dispatchFromHistory_loop lastEventID toSeq (Cursor b) false s
      end in
    match body with
    | Panic => Panic
    | Ok (s', _) => close_history s'
    end
  else Ok s.

(** ** The DSN *)

(** [strconv.ParseFloat(s, 64)] where its result is finite (see the
    conventions on [float64]), and [bolt.Open(path, 0600, nil)]: the
    buckets of the database file, or [None] for an error. *)
Variable ParseFloat : string -> option Q.
Variable bolt_Open : string -> option (gmap string Bucket.t).

(** [url.Values.Get]: the first value of the key, the empty string if
    there is none. *)
Definition Values_Get (q : gmap string (list string)) (key : string) : string :=
  match q !! key with
  | Some (v :: _) => v
  | _ => EmptyString
  end.

(** The loop of [strconv.ParseUint(s, 10, 64)] over the bytes of [s]: a
    byte that is not a decimal digit is a syntax error, a value beyond
    [2^64 - 1] a range error. *)
Fixpoint ParseUint_loop (s : string) (n : Z) : option Z :=
  match s with
  | EmptyString => Some n
  | String c s' =>
      let b := Z.of_N (N_of_ascii c) in
      if (48 <=? b) && (b <=? 57) then
        let n1 := n * 10 + (b - 48) in
        if 2 ^ 64 <=? n1 then None else ParseUint_loop s' n1
      else None
  end.

Definition ParseUint (s : string) : option Z :=
  if String.eqb s EmptyString then None else ParseUint_loop s 0.

(** [NewBoltTransport]; every error it returns wraps
    [ErrInvalidTransportDSN], which [None] stands for. *)
Definition NewBoltTransport (u : URL.t) (bufferSize : nat) (bufferFullTimeout : Z)
  : option BoltTransport.t :=
  let q := URL.Query u in
  let bucketName :=
    if negb (String.eqb (Values_Get q "bucket_name") EmptyString)
    then Values_Get q "bucket_name" else "updates"%string in
  let sizeParameter := Values_Get q "size" in
  match (if negb (String.eqb sizeParameter EmptyString)
         then ParseUint sizeParameter else Some 0) with
  | None => None
  | Some size =>
      let cleanupFrequencyParameter := Values_Get q "cleanup_frequency" in
      match (if negb (String.eqb cleanupFrequencyParameter EmptyString)
             then ParseFloat cleanupFrequencyParameter else Some (3 # 10)%Q) with
      | None => None
      | Some cleanupFrequency =>
          let path :=
            if String.eqb (URL.Path u) EmptyString then URL.Host u
            else URL.Path u in
          if String.eqb path EmptyString then None
          else
            match bolt_Open path with
            | None => None
            | Some buckets =>
                Some (BoltTransport.mk (DB.mk true buckets) bucketName size
                        cleanupFrequency ∅ false 0 bufferSize bufferFullTimeout)
            end
      end
  end.

(** ** The cleanup loop on a cursor that a deletion may move *)

(** The cursor loop of [cleanup] without the assumption that the cursor
    stays where it is across [bucket.Delete]: the storage primitive does
    not promise where [c.Next()] lands once the bucket has changed under
    the cursor. [skips] tells, for each deletion in turn, how many of the
    keys that follow it [c.Next()] passes over; [pass] counts those still
    to pass. With no skips this is [cleanup_loop]; with a skip of one after
    each deletion, every other expired key stays. *)
Fixpoint cleanup_loop_skipping (skips : list nat) (pass : nat) (removeUntil : Z)
  (c : list (bytes * bytes)) (bucket : Bucket.t)
  : result (Bucket.t * option error) :=
  match c with
  | [] => Ok (bucket, None)
  | (k, _) :: c' =>
      match pass with
      | S pass' => cleanup_loop_skipping skips pass' removeUntil c' bucket
      | O =>
          match key_seq k with
          | Panic => Panic
          | Ok s =>
              if removeUntil <? s then Ok (bucket, None)
              else
                match Delete bucket k with
                | (bucket', Some err) => Ok (bucket', Some err)
                | (bucket', None) =>
                    match skips with
                    | [] => cleanup_loop_skipping [] O removeUntil c' bucket'
                    | j :: skips' =>
                        cleanup_loop_skipping skips' j removeUntil c' bucket'
                    end
                end
          end
      end
  end.

(** [cleanup], [persist] and [Write] over that loop. *)
Definition cleanup_skipping (skips : list nat) (t : BoltTransport.t) (r : Q)
  (bucket : Bucket.t) (lastID : Z) : result (Bucket.t * option error) :=
  if cleanup_skips (BoltTransport.size t) (BoltTransport.cleanupFrequency t) r lastID
  then Ok (bucket, None)
  else
    let removeUntil := lastID - BoltTransport.size t in
    cleanup_loop_skipping skips O removeUntil (Cursor bucket) bucket.

Definition persist_tx_skipping (skips : list nat) (t : BoltTransport.t) (r : Q)
  (updateID : string) (updateJSON : bytes) (tx : gmap string Bucket.t)
  : result (gmap string Bucket.t * Z * option error) :=
  let '(tx1, bucket0) := CreateBucketIfNotExists tx (BoltTransport.bucketName t) in
  let '(bucket1, seq) := NextSequence bucket0 in
  let prefix := PutUint64 seq in
  let key := prefix ++ bytes_of_string updateID in
  match cleanup_skipping skips t r bucket1 seq with
  | Panic => Panic
  | Ok (bucket2, Some err) =>
      Ok (<[BoltTransport.bucketName t := bucket2]> tx1, seq, Some err)
  | Ok (bucket2, None) =>
      let '(bucket3, err) := Put bucket2 key updateJSON in
      Ok (<[BoltTransport.bucketName t := bucket3]> tx1, seq, err)
  end.

Definition persist_skipping (skips : list nat) (t : BoltTransport.t) (r : Q)
  (updateID : string) (updateJSON : bytes)
  : result (BoltTransport.t * option error) :=
  if DB.opened (BoltTransport.db t) then
    match persist_tx_skipping skips t r updateID updateJSON
            (DB.buckets (BoltTransport.db t)) with
    | Panic => Panic
    | Ok (tx', seq, Some err) => Ok (set_lastSeq t seq, Some err)
    | Ok (tx', seq, None) =>
        Ok (set_db (set_lastSeq t seq) (DB.mk true tx'), None)
    end
  else Ok (t, Some ErrDatabaseNotOpen).

Definition Write_skipping (skips : list nat) (h : heap) (t : BoltTransport.t)
  (r : Q) (update : Update.t) : result (heap * BoltTransport.t * option error) :=
  if BoltTransport.done t then Ok (h, t, Some ErrClosedTransport)
  else
    match json_Marshal update with
    | None => Ok (h, t, Some ErrMarshal)
    | Some updateJSON =>
        match persist_skipping skips t r (Update.ID update) updateJSON with
        | Panic => Panic
        | Ok (t', Some err) => Ok (h, t', Some err)
        | Ok (t', None) =>
            match fanout update (elements (BoltTransport.pipes t')) h
                         (BoltTransport.pipes t') with
            | Panic => Panic
            | Ok (h', ps) => Ok (h', set_pipes t' ps, None)
            end
        end
    end.

(** [Write] called for each update in turn, all calls returning [nil],
    each with the skips of its cleanup run and its random draw. *)
Fixpoint Writes_skipping (h : heap) (t : BoltTransport.t)
  (ws : list (list nat * Q * Update.t)) : option (heap * BoltTransport.t) :=
  match ws with
  | [] => Some (h, t)
  | (skips, r, u) :: ws' =>
      match Write_skipping skips h t r u with
      | Ok (h1, t1, None) => Writes_skipping h1 t1 ws'
      | _ => None
      end
  end.

(** ** Specification vocabulary *)

(** The bucket a transport writes to, as [CreateBucketIfNotExists] hands
    it over: a new bucket is empty and its sequence is 0. *)
Definition bucket_of (t : BoltTransport.t) : Bucket.t :=
  default (Bucket.mk 0 [])
    (DB.buckets (BoltTransport.db t) !! BoltTransport.bucketName t).

(** What is left of a cursor's pairs when every leading key whose prefix is
    at most [removeUntil] is deleted, up to the first key whose prefix
    exceeds it. *)
Fixpoint drop_expired (removeUntil : Z) (c : list (bytes * bytes))
  : list (bytes * bytes) :=
  match c with
  | [] => []
  | (k, v) :: c' =>
      if removeUntil <? Uint64 (take 8 k) then c
      else drop_expired removeUntil c'
  end.

(** The pairs [persist] stores for the updates [us], the first of them
    under sequence [seq]. *)
Fixpoint log_entries (seq : Z) (us : list Update.t) : list (bytes * bytes) :=
  match us with
  | [] => []
  | u :: us' =>
      (PutUint64 seq ++ bytes_of_string (Update.ID u),
       default [] (json_Marshal u))
      :: log_entries (seq + 1) us'
  end.

(** The pairs a log of capacity [size] holds once [us] have been written
    to a new bucket: those of the last [size] updates, under their
    sequence numbers. *)
Definition retained (size : Z) (us : list Update.t) : list (bytes * bytes) :=
  let n := Z.of_nat (length us) in
  log_entries (Z.max (n - size) 0 + 1) (drop (Z.to_nat (n - size)) us).

(** The sequence prefixes of a bucket's keys, in cursor order. *)
Definition prefixes (b : Bucket.t) : list Z :=
  map (fun kv : bytes * bytes => Uint64 (take 8 kv.1)) (Bucket.inodes b).

(** A key laid out as [persist] lays keys out: the big-endian word of a
    sequence number, of at most [bound], and then anything. *)
Definition log_key (bound : Z) (k : bytes) : Prop :=
  exists seq rest, 0 <= seq <= bound /\ k = PutUint64 seq ++ rest.

(** A log whose keys carry strictly increasing sequence prefixes, none
    beyond the bucket's sequence. *)
Definition sorted_log (b : Bucket.t) : Prop :=
  0 <= Bucket.sequence b < 2 ^ 64
  /\ Forall (fun kv : bytes * bytes => log_key (Bucket.sequence b) kv.1)
       (Bucket.inodes b)
  /\ StronglySorted Z.lt (prefixes b).

(** The pairs of a cursor that come after the first one whose key carries
    the ID [fromID]; none if no key does. *)
Fixpoint after_fromID (fromID : string) (c : list (bytes * bytes))
  : list (bytes * bytes) :=
  match c with
  | [] => []
  | (k, _) :: c' =>
      if String.eqb (string_of_bytes (drop 8 k)) fromID then c'
      else after_fromID fromID c'
  end.

(** The pairs of a cursor up to and including the first one whose sequence
    prefix reaches [toSeq]. *)
Fixpoint up_to_watermark (toSeq : Z) (c : list (bytes * bytes))
  : list (bytes * bytes) :=
  match c with
  | [] => []
  | (k, v) :: c' =>
      if toSeq <=? Uint64 (take 8 k) then [(k, v)]
      else (k, v) :: up_to_watermark toSeq c'
  end.

(** The updates stored in the pairs, if every value decodes. *)
Fixpoint decode_all (c : list (bytes * bytes)) : option (list Update.t) :=
  match c with
  | [] => Some []
  | (_, v) :: c' =>
      match json_Unmarshal v, decode_all c' with
      | Some u, Some us => Some (u :: us)
      | _, _ => None
      end
  end.

(** The updates handed to a pipe one after the other, until it refuses
    one. *)
Fixpoint deliver (us : list Update.t) (p : Pipe.t) : Pipe.t :=
  match us with
  | [] => p
  | u :: us' =>
      let '(p', ok) := Pipe_Write p u in
      if ok then deliver us' p' else p'
  end.

(** An update the subscriber may receive: authorized, and one of its
    topics matches. *)
Definition dispatchable (s : Subscriber.t) (u : Update.t) : Prop :=
  IsAuthorized s u = true
  /\ existsb (topic_match s) (Update.Topics u) = true.

(** [s'] subscribes to what [s] subscribes to. *)
Definition same_subscription (s s' : Subscriber.t) : Prop :=
  Subscriber.AllTargets s' = Subscriber.AllTargets s
  /\ Subscriber.Targets s' = Subscriber.Targets s
  /\ Subscriber.RawTopics s' = Subscriber.RawTopics s
  /\ Subscriber.TemplateTopics s' = Subscriber.TemplateTopics s.

(** The invariant of the pump started as [s0]. *)
Definition pump_inv (s0 s : Subscriber.t) : Prop :=
  same_subscription s0 s
  /\ cache_consistent s0 (Subscriber.matchCache s)
  /\ Forall (dispatchable s0) (updateSrc.buffer (Subscriber.HistorySrc s))
  /\ Forall (dispatchable s0) (updateSrc.buffer (Subscriber.LiveSrc s)).

(** The history source is closed and its buffer flushed: from here on the
    pump serves the live buffer. *)
Definition history_drained (s : Subscriber.t) : Prop :=
  updateSrc.In (Subscriber.HistorySrc s) = false
  /\ updateSrc.buffer (Subscriber.HistorySrc s) = [].

(** [Write] called for each update in turn, all calls returning [nil]. *)
Fixpoint Writes (h : heap) (t : BoltTransport.t) (ws : list (Q * Update.t))
  : option (heap * BoltTransport.t) :=
  match ws with
  | [] => Some (h, t)
  | (r, u) :: ws' =>
      match Write h t r u with
      | Ok (h1, t1, None) => Writes h1 t1 ws'
      | _ => None
      end
  end.

(** Reduces the projections of a subscriber rebuilt by a setter. *)
Ltac subscriber_fields :=
  cbn [set_history set_live set_matchCache Subscriber.AllTargets Subscriber.Targets
       Subscriber.RawTopics Subscriber.TemplateTopics Subscriber.matchCache
       Subscriber.HistorySrc Subscriber.LiveSrc updateSrc.buffer updateSrc.In].

(** The subscriber after the updates [us] were offered to it one after the
    other: it has taken as many as it takes handoffs. *)
Definition hand_over (us : list Update.t) (s : Listener.t) : Listener.t :=
  Listener.mk (Listener.received s ++ take (Listener.takes s) us)
    (Listener.closed s) (Listener.live s) (Listener.takes s - length us).

(** [dispatchable], computed. *)
Definition dispatchableb (s : Subscriber.t) (u : Update.t) : bool :=
  IsAuthorized s u && existsb (topic_match s) (Update.Topics u).

(** The updates a schedule offers on [LiveSrc.In] and on [HistorySrc.In]. *)
Fixpoint live_updates (evs : list event) : list Update.t :=
  match evs with
  | [] => []
  | LiveRecv u :: evs' => u :: live_updates evs'
  | _ :: evs' => live_updates evs'
  end.

Fixpoint history_updates (evs : list event) : list Update.t :=
  match evs with
  | [] => []
  | HistoryRecv u :: evs' => u :: history_updates evs'
  | _ :: evs' => history_updates evs'
  end.

(** The updates among the pointers written to [Out], and the number of
    [nil] pointers among them. *)
Fixpoint sent_updates (out : list (option Update.t)) : list Update.t :=
  match out with
  | [] => []
  | Some u :: out' => u :: sent_updates out'
  | None :: out' => sent_updates out'
  end.

Fixpoint sent_nils (out : list (option Update.t)) : nat :=
  match out with
  | [] => O
  | Some _ :: out' => sent_nils out'
  | None :: out' => S (sent_nils out')
  end.

(** ** Concrete instances *)

(** Stand-ins for the collaborators: a codec that keeps only the ID of an
    update, a storage that accepts everything or refuses every [Put],
    templates matched as prefixes. *)
Definition id_Marshal (u : Update.t) : option bytes :=
  Some (bytes_of_string (Update.ID u)).

Definition sample_update (id : string) : Update.t :=
  Update.mk ∅ ["https://example.com/foo"%string] EmptyString id EmptyString 0.

Definition id_Unmarshal (v : bytes) : option Update.t :=
  Some (sample_update (string_of_bytes v)).

Definition accepts_put (k v : bytes) : bool := false.
Definition refuses_put (k v : bytes) : bool := true.
Definition accepts_delete (k : bytes) : bool := false.
Definition prefix_Match (tt ut : string) : bool := String.prefix tt ut.

Definition sample_entry (seq : Z) (id : string) : bytes * bytes :=
  (PutUint64 seq ++ bytes_of_string id, bytes_of_string id).

Definition sample_db (opened : bool) (sequence : Z) (entries : list (bytes * bytes))
  : DB.t :=
  DB.mk opened {[ "updates"%string := Bucket.mk sequence entries ]}.

(** A transport on a new database, with no pipe attached. *)
Definition sample_transport (size : Z) (cleanupFrequency : Q) : BoltTransport.t :=
  BoltTransport.mk (DB.mk true ∅) "updates" size cleanupFrequency ∅ false 0 5 1000.

Definition sample_writes : list (Q * Update.t) :=
  [(0%Q, sample_update "1"); (0%Q, sample_update "2"); (0%Q, sample_update "3")].

(** [sample_transport 0 1] after [sample_writes]. *)
Definition sample_written : BoltTransport.t :=
  BoltTransport.mk
    (sample_db true 3 [sample_entry 1 "1"; sample_entry 2 "2"; sample_entry 3 "3"])
    "updates" 0 1 ∅ false 3 5 1000.

(** [sample_transport 2 1] after [sample_writes]. *)
Definition sample_retained : BoltTransport.t :=
  BoltTransport.mk
    (sample_db true 3 [sample_entry 2 "2"; sample_entry 3 "3"])
    "updates" 2 1 ∅ false 3 5 1000.

(** Four writes to a transport that keeps one update and cleans up on
    some writes only. The cleanup of the first three returns at its guard;
    that of the fourth finds the keys 1, 2 and 3 expired, on a cursor that
    passes over one key after each deletion. *)
Definition sample_skipping_writes : list (list nat * Q * Update.t) :=
  [([], 0%Q, sample_update "1"); ([], 0%Q, sample_update "2");
   ([], 0%Q, sample_update "3"); ([1%nat; 1%nat], 1%Q, sample_update "4")].

(** [sample_transport 1 (1 # 2)] after [sample_skipping_writes]: the keys
    1 and 3 are gone, the key 2 is still there. *)
Definition sample_skipped : BoltTransport.t :=
  BoltTransport.mk
    (sample_db true 4 [sample_entry 2 "2"; sample_entry 4 "4"])
    "updates" 1 (1 # 2) ∅ false 4 5 1000.

(** The database of [sample_written] opened by a new process: [lastSeq]
    starts at 0 again. *)
Definition sample_reopened : BoltTransport.t := set_lastSeq sample_written 0.

(** [sample_transport 0 1] after one [persist] of the update "1". *)
Definition sample_persisted : BoltTransport.t :=
  BoltTransport.mk (sample_db true 1 [sample_entry 1 "1"])
    "updates" 0 1 ∅ false 1 5 1000.

(** [sample_transport 0 1] with one pipe attached, before and after
    [Close]. *)
Definition sample_attached_heap : heap := {[ 1%positive := NewPipe 5 1000 ]}.

Definition sample_attached : BoltTransport.t :=
  set_pipes (sample_transport 0 1) {[ 1%positive ]}.

Definition sample_closed_heap : heap :=
  {[ 1%positive := Pipe.mk [] true 5 1000 ]}.

Definition sample_closed : BoltTransport.t :=
  BoltTransport.mk (DB.mk false ∅) "updates" 0 1 {[ 1%positive ]} true 0 5 1000.

(** A transport whose pipes buffer one update, its first pipe, and the two
    after two writes: the pipe takes the update "1" and refuses "2", and
    [Write] drops it from [pipes]. *)
Definition sample_narrow : BoltTransport.t :=
  BoltTransport.mk (DB.mk true ∅) "updates" 0 1 ∅ false 0 1 1000.

Definition sample_narrow_heap : heap := {[ 1%positive := NewPipe 1 1000 ]}.

Definition sample_narrow_attached : BoltTransport.t :=
  set_pipes sample_narrow {[ 1%positive ]}.

Definition sample_narrow_writes : list (Q * Update.t) :=
  [(0%Q, sample_update "1"); (0%Q, sample_update "2")].

Definition sample_evicted_heap : heap :=
  {[ 1%positive := Pipe.mk [sample_update "1"] false 1 1000 ]}.

Definition sample_evicted : BoltTransport.t :=
  BoltTransport.mk (sample_db true 2 [sample_entry 1 "1"; sample_entry 2 "2"])
    "updates" 0 1 ∅ false 2 1 1000.

(** [sample_evicted] after [Close]. *)
Definition sample_evicted_closed : BoltTransport.t :=
  BoltTransport.mk (sample_db false 2 [sample_entry 1 "1"; sample_entry 2 "2"])
    "updates" 0 1 ∅ true 2 1 1000.

Definition sample_subscriber (lastEventID : string) : Subscriber.t :=
  NewSubscriber false ∅ ["https://example.com/foo"%string]
    ["https://example.com/foo"%string] [] lastEventID "127.0.0.1" false.

(** [sample_attached] after the write of the update "1": the pipe holds
    it. *)
Definition sample_delivered_heap : heap :=
  {[ 1%positive := Pipe.mk [sample_update "1"] false 5 1000 ]}.

Definition sample_delivered : BoltTransport.t :=
  BoltTransport.mk (sample_db true 1 [sample_entry 1 "1"])
    "updates" 0 1 {[ 1%positive ]} false 1 5 1000.

(** [sample_written] with a pipe attached by [CreatePipe] for a subscriber
    that resumes from "1". *)
Definition sample_resumed : BoltTransport.t :=
  set_pipes sample_written {[ 1%positive ]}.

(** A pump in the states it goes through: [sample_subscriber ""] after
    two live updates and one read; [sample_subscriber "8"] after a history
    update, a live update and two reads, with the history source still open
    and after it was closed. *)
Definition sample_pump (lastEventID : string) (historyIn : bool)
  (live : list Update.t) : Subscriber.t :=
  Subscriber.mk false ∅ ["https://example.com/foo"%string]
    ["https://example.com/foo"%string] [] lastEventID "127.0.0.1"
    (updateSrc.mk historyIn []) (updateSrc.mk true live) false
    {[ "https://example.com/foo"%string := true ]}.

(** [sample_attached] after [sample_writes]: the pipe holds the three
    updates. *)
Definition sample_streamed_heap : heap :=
  {[ 1%positive := Pipe.mk [sample_update "1"; sample_update "2"; sample_update "3"]
                     false 5 1000 ]}.

(** [sample_resumed] after the write of "4", which the pipe attached for
    the subscriber that resumes from "3" has received. *)
Definition sample_late_heap : heap :=
  {[ 1%positive := Pipe.mk [sample_update "4"] false 5 1000 ]}.

Definition sample_late : BoltTransport.t :=
  BoltTransport.mk
    (sample_db true 4 [sample_entry 1 "1"; sample_entry 2 "2"; sample_entry 3 "3";
                       sample_entry 4 "4"])
    "updates" 0 1 {[ 1%positive ]} false 4 5 1000.

(** A float parser that knows "1" and "0.3" only, and a file system that
    holds the database of [sample_written] at "test.db". *)
Definition sample_ParseFloat (s : string) : option Q :=
  if String.eqb s "1" then Some 1%Q
  else if String.eqb s "0.3" then Some (3 # 10)%Q
  else None.

Definition sample_Open (path : string) : option (gmap string Bucket.t) :=
  if String.eqb path "test.db" then Some (DB.buckets (BoltTransport.db sample_written))
  else None.

(** A storage that refuses the value [bad] and accepts every other. *)
Definition refuses_value (bad : bytes) (k v : bytes) : bool :=
  match bytes_compare v bad with
  | Eq => true
  | _ => false
  end.

(** [sample_transport 0 1] after a [persist] of "1" that the storage
    refused and a [persist] of "2" that it accepted. *)
Definition sample_retried : BoltTransport.t :=
  BoltTransport.mk (sample_db true 1 [sample_entry 1 "2"])
    "updates" 0 1 ∅ false 1 5 1000.

(** ** Big-endian words *)

Lemma lor_shiftl_add (x y k : Z) :
  0 <= k -> 0 <= x < 2 ^ k -> Z.lor x (Z.shiftl y k) = x + y * 2 ^ k.
Proof.
  intros Hk Hx. rewrite <- Z.shiftl_mul_pow2 by lia.
  rewrite <- Z.add_lor_land.
  assert (Z.land x (Z.shiftl y k) = 0) as ->; [|lia].
  apply Z.bits_inj'. intros n Hn. rewrite Z.land_spec, Z.bits_0.
  destruct (Z.lt_ge_cases n k) as [Hlt|Hge].
  - rewrite Z.shiftl_spec_low by lia. apply andb_false_r.
  - assert (Z.testbit x n = false) as ->; [|reflexivity].
    apply Z.testbit_false; [lia|].
    rewrite Z.div_small; [reflexivity|].
    split; [lia|]. apply Z.lt_le_trans with (2 ^ k); [lia|].
    apply Z.pow_le_mono_r; lia.
Qed.

Lemma Uint64_bytes (b0 b1 b2 b3 b4 b5 b6 b7 : Z) (rest : bytes) :
  is_byte b0 -> is_byte b1 -> is_byte b2 -> is_byte b3 ->
  is_byte b4 -> is_byte b5 -> is_byte b6 -> is_byte b7 ->
  Uint64 (b0 :: b1 :: b2 :: b3 :: b4 :: b5 :: b6 :: b7 :: rest)
  = b0 * 2 ^ 56 + b1 * 2 ^ 48 + b2 * 2 ^ 40 + b3 * 2 ^ 32
    + b4 * 2 ^ 24 + b5 * 2 ^ 16 + b6 * 2 ^ 8 + b7.
Proof.
  unfold is_byte, Uint64. intros. cbn [nth].
  rewrite (lor_shiftl_add b7 b6 8) by lia.
  rewrite (lor_shiftl_add _ b5 16) by lia.
  rewrite (lor_shiftl_add _ b4 24) by lia.
  rewrite (lor_shiftl_add _ b3 32) by lia.
  rewrite (lor_shiftl_add _ b2 40) by lia.
  rewrite (lor_shiftl_add _ b1 48) by lia.
  rewrite (lor_shiftl_add _ b0 56) by lia.
  lia.
Qed.

Lemma PutUint64_length (v : Z) : length (PutUint64 v) = 8%nat.
Proof. reflexivity. Qed.

Lemma PutUint64_digits (v : Z) : PutUint64 v = be_digits 8 v.
Proof.
  unfold PutUint64, be_digits.
  change 255 with (Z.ones 8).
  rewrite !Z.land_ones, !Z.shiftr_div_pow2 by lia.
  cbn [Z.of_nat]. rewrite Z.pow_0_r, Z.div_1_r.
  reflexivity.
Qed.

Lemma be_digits_bytes (n : nat) (v : Z) : Forall is_byte (be_digits n v).
Proof.
  induction n as [|n IH]; cbn [be_digits]; constructor; [|exact IH].
  unfold is_byte. apply Z.mod_pos_bound. lia.
Qed.

Lemma Uint64_PutUint64 (v : Z) (rest : bytes) :
  0 <= v < 2 ^ 64 -> Uint64 (PutUint64 v ++ rest) = v.
Proof.
  intros Hv.
  pose proof (be_digits_bytes 8 v) as Hb. rewrite <- PutUint64_digits in Hb.
  unfold PutUint64 in *. cbn [app].
  repeat match goal with
         | H : Forall _ (_ :: _) |- _ => apply Forall_cons in H; destruct H
         end.
  rewrite Uint64_bytes by assumption.
  change 255 with (Z.ones 8).
  rewrite !Z.land_ones, !Z.shiftr_div_pow2 by lia.
  clear -Hv. Z.div_mod_to_equations. lia.
Qed.

Lemma be_digits_compare (n : nat) (a b : Z) (x y : bytes) :
  bytes_compare (be_digits n a ++ x) (be_digits n b ++ y)
  = match a mod 256 ^ Z.of_nat n ?= b mod 256 ^ Z.of_nat n with
    | Eq => bytes_compare x y
    | c => c
    end.
Proof.
  induction n as [|n IH].
  - cbn [be_digits app Z.of_nat]. rewrite Z.pow_0_r, !Z.mod_1_r. reflexivity.
  - cbn [be_digits app bytes_compare]. rewrite IH.
    rewrite Nat2Z.inj_succ, Z.pow_succ_r by lia.
    rewrite (Z.mul_comm 256).
    assert (0 < 256 ^ Z.of_nat n) as HP by (apply Z.pow_pos_nonneg; lia).
    rewrite !Z.rem_mul_r by lia.
    pose proof (Z.mod_pos_bound a _ HP) as Hla.
    pose proof (Z.mod_pos_bound b _ HP) as Hlb.
    pose proof (Z.mod_pos_bound (a / 256 ^ Z.of_nat n) 256 eq_refl) as Hha.
    pose proof (Z.mod_pos_bound (b / 256 ^ Z.of_nat n) 256 eq_refl) as Hhb.
    set (P := 256 ^ Z.of_nat n) in *.
    set (la := a mod P) in *. set (lb := b mod P) in *.
    set (ha := (a / P) mod 256) in *. set (hb := (b / P) mod 256) in *.
    destruct (Z.compare_spec ha hb), (Z.compare_spec la lb),
      (Z.compare_spec (la + P * ha) (lb + P * hb));
      try reflexivity; exfalso; nia.
Qed.

(** Keys that start with the big-endian words of two sequence numbers are
    ordered as the numbers are, whatever follows. *)
Lemma PutUint64_compare (a b : Z) (x y : bytes) :
  0 <= a < 2 ^ 64 -> 0 <= b < 2 ^ 64 ->
  bytes_compare (PutUint64 a ++ x) (PutUint64 b ++ y)
  = match a ?= b with
    | Eq => bytes_compare x y
    | c => c
    end.
Proof.
  intros Ha Hb. rewrite !PutUint64_digits, be_digits_compare.
  change (256 ^ Z.of_nat 8) with (2 ^ 64).
  rewrite !Z.mod_small by lia. reflexivity.
Qed.

Lemma string_of_bytes_of_string (s : string) :
  string_of_bytes (bytes_of_string s) = s.
Proof.
  unfold string_of_bytes, bytes_of_string.
  induction s as [|a s IH]; [reflexivity|].
  cbn [list_ascii_of_string map string_of_list_ascii].
  rewrite N2Z.id, ascii_N_embedding. f_equal. exact IH.
Qed.

Lemma key_seq_PutUint64 (seq : Z) (id : bytes) :
  0 <= seq < 2 ^ 64 -> key_seq (PutUint64 seq ++ id) = Ok seq.
Proof.
  intros Hs. unfold key_seq.
  rewrite length_app, PutUint64_length. cbn [Nat.add Nat.ltb Nat.leb].
  rewrite take_app_length' by reflexivity.
  rewrite <- (app_nil_r (PutUint64 seq)), Uint64_PutUint64 by assumption.
  reflexivity.
Qed.

Lemma key_id_PutUint64 (seq : Z) (id : string) :
  key_id (PutUint64 seq ++ bytes_of_string id) = Ok id.
Proof.
  unfold key_id.
  rewrite length_app, PutUint64_length. cbn [Nat.add Nat.ltb Nat.leb].
  rewrite drop_app_length' by reflexivity.
  rewrite string_of_bytes_of_string. reflexivity.
Qed.

(** ** The guard of [cleanup] *)

Lemma Qltb_lt (x y : Q) : Qltb x y = true <-> (x < y)%Q.
Proof.
  unfold Qltb. rewrite Qlt_alt. destruct (x ?= y)%Q; split; congruence.
Qed.

Lemma Qltb_ge (x y : Q) : Qltb x y = false <-> (y <= x)%Q.
Proof.
  rewrite <- not_true_iff_false, Qltb_lt. split.
  - apply Qnot_lt_le.
  - apply Qle_not_lt.
Qed.

Lemma Qeq_bool_false (x y : Q) : Qeq_bool x y = false <-> ~ (x == y)%Q.
Proof. rewrite <- not_true_iff_false, Qeq_bool_iff. reflexivity. Qed.

(** C4: under the ranges of its parameters, [cleanup] goes past its guard
    exactly when size > 0, cleanupFrequency > 0, seq > size, and
    cleanupFrequency = 1 or the draw is at least cleanupFrequency; so
    frequency 1 forces the run whenever 0 < size < seq, and frequency 0 or
    size 0 makes [cleanup] return the bucket untouched. *)
Theorem cleanup_runs_iff (t : BoltTransport.t) (r : Q) (bucket : Bucket.t) (seq : Z) :
  0 <= BoltTransport.size t ->
  (0 <= BoltTransport.cleanupFrequency t <= 1)%Q ->
  (0 <= r < 1)%Q ->
  let size := BoltTransport.size t in
  let cf := BoltTransport.cleanupFrequency t in
  (cleanup_skips size cf r seq = false
   <-> 0 < size /\ (0 < cf)%Q /\ size < seq /\ ((cf == 1)%Q \/ (cf <= r)%Q))
  /\ (cleanup_skips size cf r seq = false ->
      cleanup t r bucket seq = cleanup_loop (seq - size) (Cursor bucket) bucket)
  /\ (cleanup_skips size cf r seq = true -> cleanup t r bucket seq = Ok (bucket, None))
  /\ ((cf == 1)%Q -> (cleanup_skips size cf r seq = false <-> 0 < size /\ size < seq))
  /\ ((cf == 0)%Q \/ size = 0 -> cleanup t r bucket seq = Ok (bucket, None)).
Proof.
  intros Hsize [Hcf0 Hcf1] Hr size cf.
  assert (cleanup_skips size cf r seq = false
          <-> 0 < size /\ (0 < cf)%Q /\ size < seq /\ ((cf == 1)%Q \/ (cf <= r)%Q)) as Hiff.
  { unfold cleanup_skips.
    rewrite !orb_false_iff, andb_false_iff, negb_false_iff.
    rewrite Z.eqb_neq, Z.leb_gt, Qeq_bool_false, Qeq_bool_iff, Qltb_ge.
    subst size cf. split.
    - intros [[[H1 H2] H3] H4]. repeat split; try lia; try assumption.
      apply Qle_lteq in Hcf0. destruct Hcf0 as [Hlt|Heq]; [exact Hlt|].
      exfalso. apply H2. symmetry. exact Heq.
    - intros (H1 & H2 & H3 & H4). repeat split; try lia; try assumption.
      intros Heq. rewrite Heq in H2. revert H2. apply Qlt_irrefl. }
  split; [exact Hiff|].
  split; [intros Hrun; unfold cleanup; fold size cf; rewrite Hrun; reflexivity|].
  split; [intros Hskip; unfold cleanup; fold size cf; rewrite Hskip; reflexivity|].
  split.
  - intros Hone. rewrite Hiff. split.
    + intros (H1 & _ & H3 & _). split; assumption.
    + intros [H1 H3]. repeat split; try assumption.
      * rewrite Hone. reflexivity.
      * left. exact Hone.
  - intros Hoff. unfold cleanup. fold size cf.
    assert (cleanup_skips size cf r seq = true) as ->; [|reflexivity].
    unfold cleanup_skips. destruct Hoff as [Hz|Hz].
    + apply Qeq_bool_iff in Hz. rewrite Hz, orb_true_r. reflexivity.
    + apply Z.eqb_eq in Hz. rewrite Hz. reflexivity.
Qed.

(** ** The cursor loop of [cleanup] *)

Lemma bytes_compare_refl (k : bytes) : bytes_compare k k = Eq.
Proof.
  induction k as [|x k IH]; [reflexivity|].
  cbn [bytes_compare]. rewrite Z.compare_refl. exact IH.
Qed.

Lemma key_seq_Ok (k : bytes) (s : Z) :
  key_seq k = Ok s -> s = Uint64 (take 8 k) /\ (8 <= length k)%nat.
Proof.
  unfold key_seq. destruct (Nat.ltb_spec (length k) 8); [discriminate|].
  intros [= <-]. split; [reflexivity|assumption].
Qed.

(** A run of the loop that returns no error has deleted the leading
    expired keys of the bucket and nothing else. *)
Lemma cleanup_loop_Ok (removeUntil s : Z) (c : list (bytes * bytes)) (b' : Bucket.t) :
  cleanup_loop removeUntil c (Bucket.mk s c) = Ok (b', None) ->
  b' = Bucket.mk s (drop_expired removeUntil c).
Proof.
  induction c as [|[k v] c IH]; cbn [cleanup_loop drop_expired].
  - intros [= <-]. reflexivity.
  - destruct (key_seq k) as [p|] eqn:Hk; [|discriminate].
    apply key_seq_Ok in Hk. destruct Hk as [-> _].
    destruct (removeUntil <? Uint64 (take 8 k)).
    + intros [= <-]. reflexivity.
    + unfold Delete. destruct (Delete_fails k); [discriminate|].
      cbn [Bucket.sequence Bucket.inodes del_inode].
      rewrite bytes_compare_refl. exact IH.
Qed.

(** With well-formed keys and a storage that accepts the deletions, the
    loop does return. *)
Lemma cleanup_loop_total (removeUntil s : Z) (c : list (bytes * bytes)) :
  Forall (fun kv => (8 <= length kv.1)%nat /\ Delete_fails kv.1 = false) c ->
  cleanup_loop removeUntil c (Bucket.mk s c)
  = Ok (Bucket.mk s (drop_expired removeUntil c), None).
Proof.
  induction 1 as [|[k v] c [Hlen Hdel] _ IH]; cbn [cleanup_loop drop_expired].
  - reflexivity.
  - cbn [fst] in Hlen, Hdel. unfold key_seq.
    destruct (Nat.ltb_spec (length k) 8); [lia|].
    destruct (removeUntil <? Uint64 (take 8 k)); [reflexivity|].
    unfold Delete. rewrite Hdel.
    cbn [Bucket.sequence Bucket.inodes del_inode].
    rewrite bytes_compare_refl. exact IH.
Qed.

Lemma drop_expired_suffix (removeUntil : Z) (c : list (bytes * bytes)) :
  exists n, drop_expired removeUntil c = drop n c.
Proof.
  induction c as [|[k v] c [n IH]]; cbn [drop_expired].
  - exists 0%nat. reflexivity.
  - destruct (removeUntil <? Uint64 (take 8 k)).
    + exists 0%nat. reflexivity.
    + exists (S n). exact IH.
Qed.

(** On a log sorted by prefix, that is every key whose prefix is at most
    [removeUntil]. *)
Lemma drop_expired_sorted (removeUntil : Z) (c : list (bytes * bytes)) :
  StronglySorted Z.lt (map (fun kv : bytes * bytes => Uint64 (take 8 kv.1)) c) ->
  drop_expired removeUntil c
  = List.filter (fun kv : bytes * bytes => removeUntil <? Uint64 (take 8 kv.1)) c.
Proof.
  induction c as [|[k v] c IH]; intros Hsorted; [reflexivity|].
  cbn [map fst] in Hsorted. apply StronglySorted_inv in Hsorted.
  destruct Hsorted as [Hsorted Hhead].
  cbn [drop_expired List.filter fst].
  destruct (Z.ltb_spec removeUntil (Uint64 (take 8 k))) as [Hlt|Hge].
  - f_equal. symmetry. apply forallb_filter_id. apply forallb_forall.
    intros kv Hin. apply Z.ltb_lt.
    rewrite List.Forall_forall in Hhead.
    specialize (Hhead (Uint64 (take 8 kv.1))
                  (in_map (fun kv : bytes * bytes => Uint64 (take 8 kv.1)) c kv Hin)).
    lia.
  - apply IH. exact Hsorted.
Qed.

Lemma cleanup_Ok (t : BoltTransport.t) (r : Q) (b b' : Bucket.t) (seq : Z) :
  cleanup t r b seq = Ok (b', None) ->
  b' = b
  \/ b' = Bucket.mk (Bucket.sequence b)
             (drop_expired (seq - BoltTransport.size t) (Bucket.inodes b)).
Proof.
  unfold cleanup.
  destruct (cleanup_skips _ _ _ _).
  - intros [= <-]. left. reflexivity.
  - destruct b as [s c]. unfold Cursor. cbn [Bucket.inodes Bucket.sequence].
    intros H. right. exact (cleanup_loop_Ok _ _ _ _ H).
Qed.

(** ** What a successful [persist] and [Write] did *)

Lemma persist_Ok (t t' : BoltTransport.t) (r : Q) (updateID : string) (updateJSON : bytes) :
  persist t r updateID updateJSON = Ok (t', None) ->
  let seq := (Bucket.sequence (bucket_of t) + 1) mod 2 ^ 64 in
  let key := PutUint64 seq ++ bytes_of_string updateID in
  exists b2,
    cleanup t r (Bucket.mk seq (Bucket.inodes (bucket_of t))) seq = Ok (b2, None)
    /\ Put_fails key updateJSON = false
    /\ bucket_of t' = Bucket.mk (Bucket.sequence b2)
                        (put_inode key updateJSON (Bucket.inodes b2))
    /\ DB.buckets (BoltTransport.db t') !! BoltTransport.bucketName t'
       = Some (bucket_of t')
    /\ DB.opened (BoltTransport.db t') = true
    /\ BoltTransport.lastSeq t' = seq
    /\ BoltTransport.bucketName t' = BoltTransport.bucketName t
    /\ BoltTransport.size t' = BoltTransport.size t
    /\ BoltTransport.cleanupFrequency t' = BoltTransport.cleanupFrequency t
    /\ BoltTransport.pipes t' = BoltTransport.pipes t
    /\ BoltTransport.done t' = BoltTransport.done t.
Proof.
  unfold persist, persist_tx, bucket_of, CreateBucketIfNotExists, NextSequence.
  destruct (DB.opened (BoltTransport.db t)); [|discriminate].
  set (name := BoltTransport.bucketName t).
  destruct (DB.buckets (BoltTransport.db t) !! name) as [b0|] eqn:Hb;
    cbn [default Bucket.sequence Bucket.inodes];
    (destruct (cleanup t r _ _) as [[b2 [e|]]|] eqn:Hc; [discriminate| |discriminate]);
    unfold Put; (destruct (Put_fails _ _) eqn:Hp; [discriminate|]);
    intros [= <-]; exists b2;
    cbn [BoltTransport.db BoltTransport.bucketName set_db set_lastSeq DB.buckets
         DB.opened BoltTransport.lastSeq BoltTransport.size
         BoltTransport.cleanupFrequency BoltTransport.pipes BoltTransport.done];
    fold name; rewrite lookup_insert_eq; cbn [default];
    repeat split; reflexivity.
Qed.

Lemma Write_Ok (h h' : heap) (t t' : BoltTransport.t) (r : Q) (u : Update.t) :
  Write h t r u = Ok (h', t', None) ->
  BoltTransport.done t = false
  /\ exists js t1 ps,
      json_Marshal u = Some js
      /\ persist t r (Update.ID u) js = Ok (t1, None)
      /\ fanout u (elements (BoltTransport.pipes t1)) h (BoltTransport.pipes t1)
         = Ok (h', ps)
      /\ t' = set_pipes t1 ps.
Proof.
  unfold Write.
  destruct (BoltTransport.done t); [discriminate|].
  destruct (json_Marshal u) as [js|]; [|discriminate].
  destruct (persist t r (Update.ID u) js) as [[t1 [e|]]|] eqn:Hp; try discriminate.
  destruct (fanout _ _ _ _) as [[h1 ps]|] eqn:Hf; [|discriminate].
  intros [= <- <-]. split; [reflexivity|].
  exists js, t1, ps. repeat split; assumption.
Qed.

(** ** The log as a list of entries *)

Lemma log_entries_app (seq : Z) (us vs : list Update.t) :
  log_entries seq (us ++ vs)
  = log_entries seq us ++ log_entries (seq + Z.of_nat (length us)) vs.
Proof.
  revert seq. induction us as [|u us IH]; intros seq.
  - cbn [app log_entries length Z.of_nat]. rewrite Z.add_0_r. reflexivity.
  - cbn [app log_entries length]. rewrite IH. do 3 f_equal. lia.
Qed.

Lemma log_entries_length (seq : Z) (us : list Update.t) :
  length (log_entries seq us) = length us.
Proof.
  revert seq. induction us as [|u us IH]; intros seq; cbn [log_entries length].
  - reflexivity.
  - rewrite IH. reflexivity.
Qed.

Lemma Uint64_take_PutUint64 (seq : Z) (rest : bytes) :
  0 <= seq < 2 ^ 64 -> Uint64 (take 8 (PutUint64 seq ++ rest)) = seq.
Proof.
  intros Hs. rewrite take_app_length' by reflexivity.
  rewrite <- (app_nil_r (PutUint64 seq)). apply Uint64_PutUint64. exact Hs.
Qed.

Lemma drop_expired_log_entries (removeUntil seq : Z) (us : list Update.t) :
  0 <= seq -> seq + Z.of_nat (length us) <= 2 ^ 64 ->
  drop_expired removeUntil (log_entries seq us)
  = log_entries (Z.max seq (removeUntil + 1))
      (drop (Z.to_nat (removeUntil + 1 - seq)) us).
Proof.
  revert seq. induction us as [|u us IH]; intros seq H0 Hmax.
  - rewrite drop_nil. reflexivity.
  - cbn [log_entries drop_expired]. cbn [length] in Hmax.
    rewrite Uint64_take_PutUint64 by lia.
    destruct (Z.ltb_spec removeUntil seq) as [Hlt|Hge].
    + replace (Z.to_nat (removeUntil + 1 - seq)) with 0%nat by lia.
      rewrite Z.max_l by lia. reflexivity.
    + rewrite IH by lia.
      replace (Z.to_nat (removeUntil + 1 - seq))
        with (S (Z.to_nat (removeUntil + 1 - (seq + 1)))) by lia.
      cbn [drop]. f_equal. lia.
Qed.

(** A key whose prefix exceeds every prefix of the log is stored last. *)
Lemma put_inode_log_entries (seq from : Z) (id value : bytes) (us : list Update.t) :
  0 <= from -> from + Z.of_nat (length us) <= seq -> seq < 2 ^ 64 ->
  put_inode (PutUint64 seq ++ id) value (log_entries from us)
  = log_entries from us ++ [(PutUint64 seq ++ id, value)].
Proof.
  revert from. induction us as [|u us IH]; intros from H0 Hle Hmax.
  - reflexivity.
  - cbn [log_entries put_inode app]. cbn [length] in Hle.
    rewrite PutUint64_compare by lia.
    destruct (Z.compare_spec seq from); try lia.
    rewrite IH by lia. reflexivity.
Qed.

(** ** Retention *)

Lemma cleanup_skips_always (size : Z) (cf r : Q) (seq : Z) :
  0 < size -> (cf == 1)%Q -> cleanup_skips size cf r seq = (seq <=? size).
Proof.
  intros Hs Hcf. unfold cleanup_skips.
  assert (Qeq_bool cf 1 = true) as -> by (apply Qeq_bool_iff; exact Hcf).
  assert (Qeq_bool cf 0 = false) as ->.
  { apply Qeq_bool_false. rewrite Hcf. intros [=]. }
  assert ((size =? 0) = false) as -> by lia.
  cbn [orb negb andb]. apply orb_false_r.
Qed.

Lemma bucket_of_set_pipes (t : BoltTransport.t) (ps : gset loc) :
  bucket_of (set_pipes t ps) = bucket_of t.
Proof. reflexivity. Qed.

Lemma Write_retains (h h' : heap) (t t' : BoltTransport.t) (r : Q) (u : Update.t)
  (us : list Update.t) :
  0 < BoltTransport.size t ->
  (BoltTransport.cleanupFrequency t == 1)%Q ->
  Z.of_nat (length us) + 1 < 2 ^ 64 ->
  bucket_of t = Bucket.mk (Z.of_nat (length us)) (retained (BoltTransport.size t) us) ->
  Write h t r u = Ok (h', t', None) ->
  bucket_of t' = Bucket.mk (Z.of_nat (length (us ++ [u])))
                   (retained (BoltTransport.size t) (us ++ [u]))
  /\ DB.buckets (BoltTransport.db t') !! BoltTransport.bucketName t = Some (bucket_of t')
  /\ BoltTransport.size t' = BoltTransport.size t
  /\ BoltTransport.cleanupFrequency t' = BoltTransport.cleanupFrequency t
  /\ BoltTransport.bucketName t' = BoltTransport.bucketName t.
Proof.
  intros Hsize Hcf Hn Hinv Hw.
  apply Write_Ok in Hw. destruct Hw as (_ & js & t1 & ps & Hjs & Hp & _ & ->).
  apply persist_Ok in Hp. cbv zeta in Hp.
  destruct Hp as (b2 & Hc & _ & Hb & Hlook & _ & _ & Hname & Hsz & Hfreq & _).
  rewrite Hinv in Hc. cbn [Bucket.sequence Bucket.inodes] in Hc.
  rewrite Z.mod_small in Hc by lia.
  rewrite Hinv in Hb. cbn [Bucket.sequence] in Hb.
  rewrite Z.mod_small in Hb by lia.
  rewrite bucket_of_set_pipes.
  set (size := BoltTransport.size t) in *.
  unfold retained in *. cbv zeta in *.
  rewrite length_app. cbn [length].
  replace (Z.of_nat (length us + 1)) with (Z.of_nat (length us) + 1) by lia.
  set (n := Z.of_nat (length us)) in *.
  assert (n = Z.of_nat (length us)) as Hndef by reflexivity.
  assert (bucket_of t1
          = Bucket.mk (n + 1)
              (log_entries (Z.max (n + 1 - size) 0 + 1)
                 (drop (Z.to_nat (n + 1 - size)) (us ++ [u])))) as Hgoal.
  { rewrite Hb. unfold cleanup in Hc. fold size in Hc.
    rewrite cleanup_skips_always in Hc by assumption.
    destruct (Z.leb_spec (n + 1) size) as [Hle|Hgt].
    - injection Hc as <-. cbn [Bucket.sequence Bucket.inodes]. f_equal.
      replace (Z.to_nat (n - size)) with 0%nat by lia.
      replace (Z.to_nat (n + 1 - size)) with 0%nat by lia.
      rewrite !Z.max_r by lia. rewrite !drop_0.
      rewrite put_inode_log_entries by lia.
      rewrite log_entries_app. cbn [log_entries]. rewrite Hjs.
      cbn [default].
      replace (0 + 1 + Z.of_nat (length us)) with (n + 1) by lia. reflexivity.
    - unfold Cursor in Hc. cbn [Bucket.inodes] in Hc.
      apply cleanup_loop_Ok in Hc. subst b2.
      cbn [Bucket.sequence Bucket.inodes]. f_equal.
      rewrite !Z.max_l by lia.
      assert (length (drop (Z.to_nat (n - size)) us) = Z.to_nat size) as Hdrop
        by (rewrite length_drop; lia).
      rewrite drop_expired_log_entries by lia.
      rewrite Z.max_r by lia.
      rewrite drop_drop.
      rewrite put_inode_log_entries by (rewrite ?length_drop; lia).
      replace (Z.to_nat (n - size) + Z.to_nat (n + 1 - size + 1 - (n - size + 1)))%nat
        with (Z.to_nat (n + 1 - size)) by lia.
      rewrite drop_app_le by lia.
      rewrite log_entries_app. cbn [log_entries]. rewrite Hjs. cbn [default].
      rewrite length_drop.
      replace (n + 1 - size + 1 + Z.of_nat (length us - Z.to_nat (n + 1 - size)))
        with (n + 1) by lia.
      reflexivity. }
  split; [exact Hgoal|].
  cbn [set_pipes BoltTransport.db BoltTransport.size BoltTransport.cleanupFrequency
       BoltTransport.bucketName].
  rewrite <- Hname. repeat split; assumption.
Qed.

Lemma Writes_retains (ws : list (Q * Update.t)) :
  forall (us : list Update.t) (h h' : heap) (t t' : BoltTransport.t),
    0 < BoltTransport.size t ->
    (BoltTransport.cleanupFrequency t == 1)%Q ->
    Z.of_nat (length us) + Z.of_nat (length ws) < 2 ^ 64 ->
    bucket_of t = Bucket.mk (Z.of_nat (length us)) (retained (BoltTransport.size t) us) ->
    Writes h t ws = Some (h', t') ->
    bucket_of t' = Bucket.mk (Z.of_nat (length (us ++ map snd ws)))
                     (retained (BoltTransport.size t) (us ++ map snd ws))
    /\ (ws <> [] ->
        DB.buckets (BoltTransport.db t') !! BoltTransport.bucketName t
        = Some (bucket_of t')).
Proof.
  induction ws as [|[r u] ws IH]; intros us h h' t t' Hsize Hcf Hn Hinv Hw.
  - injection Hw as <- <-. cbn [map]. rewrite app_nil_r.
    split; [exact Hinv|]. intros Hne. exfalso. apply Hne. reflexivity.
  - cbn [Writes] in Hw. cbn [length] in Hn.
    destruct (Write h t r u) as [[[h1 t1] [e|]]|] eqn:Hw1; try discriminate.
    destruct (Write_retains _ _ _ _ _ _ us Hsize Hcf ltac:(lia) Hinv Hw1)
      as (Hinv1 & Hlook1 & Hsz1 & Hfreq1 & Hname1).
    rewrite <- Hsz1 in Hinv1.
    destruct (IH (us ++ [u]) h1 h' t1 t') as [Hfinal Hlook]; try assumption.
    + rewrite Hsz1. exact Hsize.
    + rewrite Hfreq1. exact Hcf.
    + rewrite length_app. cbn [length]. lia.
    + cbn [map snd]. rewrite <- app_assoc in Hfinal. cbn [app] in Hfinal.
      rewrite Hsz1 in Hfinal. split; [exact Hfinal|].
      intros _. destruct ws as [|w ws].
      * injection Hw as <- <-. exact Hlook1.
      * rewrite <- Hname1. apply Hlook. discriminate.
Qed.

Lemma log_entries_key_seq (seq : Z) (us : list Update.t) :
  0 <= seq -> seq + Z.of_nat (length us) <= 2 ^ 64 ->
  map (fun kv : bytes * bytes => key_seq kv.1) (log_entries seq us)
  = map Ok (seqZ seq (Z.of_nat (length us))).
Proof.
  revert seq. induction us as [|u us IH]; intros seq H0 Hmax.
  - reflexivity.
  - cbn [log_entries map fst length] in *.
    rewrite seqZ_cons by lia. cbn [map].
    rewrite key_seq_PutUint64 by lia. f_equal.
    rewrite IH by lia. do 2 f_equal; lia.
Qed.

(** A failed transaction leaves the database as it was: [db.Update] rolls
    back whatever [cleanup] and [Put] did. *)
Lemma persist_Err (t t' : BoltTransport.t) (r : Q) (updateID : string)
  (updateJSON : bytes) (err : error) :
  persist t r updateID updateJSON = Ok (t', Some err) ->
  BoltTransport.db t' = BoltTransport.db t
  /\ BoltTransport.pipes t' = BoltTransport.pipes t.
Proof.
  unfold persist.
  destruct (DB.opened (BoltTransport.db t)).
  - destruct (persist_tx _ _ _ _ _) as [[[tx' seq] [e|]]|]; try discriminate.
    intros [= <- _]. split; reflexivity.
  - intros [= <- _]. split; reflexivity.
Qed.

(** C3: with size S > 0 and cleanup frequency 1, N > S successful writes
    to a new bucket leave exactly the S most recent entries, those with
    sequence prefixes N-S+1 .. N; a cleanup run that gets past its guard
    deletes the leading keys whose prefix is at most seq - size and stops at
    the first key beyond it, which on a log sorted by prefix removes every
    key whose prefix is at most seq - size; and the deletions share the
    transaction of the Put: a write that fails leaves the database
    untouched. *)
Theorem retention_keeps_most_recent (h h' : heap) (t t' : BoltTransport.t)
  (ws : list (Q * Update.t)) :
  let size := BoltTransport.size t in
  let N := Z.of_nat (length ws) in
  0 < size ->
  (BoltTransport.cleanupFrequency t == 1)%Q ->
  bucket_of t = Bucket.mk 0 [] ->
  Writes h t ws = Some (h', t') ->
  size < N -> N < 2 ^ 64 ->
  (exists b,
      DB.buckets (BoltTransport.db t') !! BoltTransport.bucketName t = Some b
      /\ Bucket.inodes b
         = log_entries (N - size + 1) (drop (Z.to_nat (N - size)) (map snd ws))
      /\ Z.of_nat (length (Bucket.inodes b)) = size
      /\ map (fun kv : bytes * bytes => key_seq kv.1) (Bucket.inodes b)
         = map Ok (seqZ (N - size + 1) size))
  /\ (forall r bucket seq bucket',
        size < seq ->
        cleanup t r bucket seq = Ok (bucket', None) ->
        bucket' = Bucket.mk (Bucket.sequence bucket)
                    (drop_expired (seq - size) (Bucket.inodes bucket))
        /\ (StronglySorted Z.lt (prefixes bucket) ->
            Bucket.inodes bucket'
            = List.filter
                (fun kv : bytes * bytes => seq - size <? Uint64 (take 8 kv.1))
                (Bucket.inodes bucket)))
  /\ (forall r updateID updateJSON t1 err,
        persist t r updateID updateJSON = Ok (t1, Some err) ->
        BoltTransport.db t1 = BoltTransport.db t).
Proof.
  intros size N Hsize Hcf Hfresh Hw HSN HN.
  split; [|split].
  - assert (bucket_of t = Bucket.mk (Z.of_nat (length (@nil Update.t)))
                            (retained size [])) as Hinv.
    { rewrite Hfresh. unfold retained. rewrite drop_nil. reflexivity. }
    destruct (Writes_retains ws [] h h' t t' Hsize Hcf ltac:(cbn [length]; lia)
                Hinv Hw) as [Hfinal Hlook].
    cbn [app] in Hfinal. rewrite length_map in Hfinal.
    unfold retained in Hfinal. cbv zeta in Hfinal. rewrite length_map in Hfinal.
    fold size N in Hfinal. rewrite Z.max_l in Hfinal by lia.
    exists (bucket_of t'). rewrite Hfinal. cbn [Bucket.inodes].
    assert (Z.of_nat (length (drop (Z.to_nat (N - size)) (map snd ws))) = size) as Hlen
      by (rewrite length_drop, length_map; lia).
    split; [|split; [reflexivity|split]].
    + rewrite <- Hfinal. apply Hlook. intros ->. cbn [length] in N. lia.
    + rewrite log_entries_length. exact Hlen.
    + rewrite log_entries_key_seq by lia. rewrite Hlen. reflexivity.
  - intros r bucket seq bucket' Hseq Hc. unfold cleanup in Hc. fold size in Hc.
    rewrite cleanup_skips_always in Hc by assumption.
    destruct (Z.leb_spec seq size); [lia|].
    destruct bucket as [s c]. unfold Cursor in Hc. cbn [Bucket.inodes] in Hc.
    apply cleanup_loop_Ok in Hc. subst bucket'. split; [reflexivity|].
    unfold prefixes. cbn [Bucket.inodes]. apply drop_expired_sorted.
  - intros r updateID updateJSON t1 err Hp. apply persist_Err in Hp. apply Hp.
Qed.

(** ** Key layout and order *)

Lemma log_key_prefix (bound : Z) (k : bytes) :
  bound < 2 ^ 64 -> log_key bound k ->
  0 <= Uint64 (take 8 k) <= bound
  /\ k = PutUint64 (Uint64 (take 8 k)) ++ drop 8 k.
Proof.
  intros Hb (seq & rest & Hseq & ->).
  rewrite Uint64_take_PutUint64 by lia.
  rewrite drop_app_length' by reflexivity.
  split; [lia|reflexivity].
Qed.

Lemma log_key_mono (bound bound' : Z) (k : bytes) :
  bound <= bound' -> log_key bound k -> log_key bound' k.
Proof.
  intros Hle (seq & rest & Hseq & ->). exists seq, rest. split; [lia|reflexivity].
Qed.

Lemma put_inode_last (seq : Z) (id value : bytes) (l : list (bytes * bytes)) :
  0 <= seq < 2 ^ 64 ->
  Forall (fun kv : bytes * bytes => log_key (seq - 1) kv.1) l ->
  put_inode (PutUint64 seq ++ id) value l = l ++ [(PutUint64 seq ++ id, value)].
Proof.
  intros Hseq. induction 1 as [|[k v] l (p & rest & Hp & Hk) _ IH].
  - reflexivity.
  - cbn [fst] in Hk. subst k. cbn [put_inode app].
    rewrite PutUint64_compare by lia.
    destruct (Z.compare_spec seq p); try lia.
    rewrite IH. reflexivity.
Qed.

Lemma StronglySorted_drop {A : Type} (R : A -> A -> Prop) (n : nat) (l : list A) :
  StronglySorted R l -> StronglySorted R (drop n l).
Proof.
  intros H. rewrite <- (take_drop n l) in H.
  exact (StronglySorted_app_1_r _ _ _ H).
Qed.

Lemma cleanup_Ok_suffix (t : BoltTransport.t) (r : Q) (b b' : Bucket.t) (seq : Z) :
  cleanup t r b seq = Ok (b', None) ->
  Bucket.sequence b' = Bucket.sequence b
  /\ exists n, Bucket.inodes b' = drop n (Bucket.inodes b).
Proof.
  intros H. apply cleanup_Ok in H. destruct H as [->| ->].
  - split; [reflexivity|]. exists 0%nat. reflexivity.
  - split; [reflexivity|]. apply drop_expired_suffix.
Qed.

(** What one successful [persist] does to a sorted log. *)
Lemma persist_appends (t t' : BoltTransport.t) (r : Q) (updateID : string)
  (updateJSON : bytes) :
  sorted_log (bucket_of t) ->
  Bucket.sequence (bucket_of t) + 1 < 2 ^ 64 ->
  persist t r updateID updateJSON = Ok (t', None) ->
  let seq := snd (NextSequence (bucket_of t)) in
  let key := PutUint64 seq ++ bytes_of_string updateID in
  seq = Bucket.sequence (bucket_of t) + 1
  /\ BoltTransport.lastSeq t' = seq
  /\ Bucket.sequence (bucket_of t') = seq
  /\ (exists n, Bucket.inodes (bucket_of t')
                = drop n (Bucket.inodes (bucket_of t)) ++ [(key, updateJSON)])
  /\ take 8 key = PutUint64 seq
  /\ drop 8 key = bytes_of_string updateID
  /\ Uint64 (take 8 key) = seq
  /\ Forall (fun kv : bytes * bytes =>
              Uint64 (take 8 kv.1) < seq /\ bytes_compare kv.1 key = Lt)
       (Bucket.inodes (bucket_of t))
  /\ sorted_log (bucket_of t').
Proof.
  intros (Hrange & Hkeys & Hsorted) Hmax Hp seq key.
  apply persist_Ok in Hp. cbv zeta in Hp.
  destruct Hp as (b2 & Hc & _ & Hb & _ & _ & Hlast & _).
  assert (seq = Bucket.sequence (bucket_of t) + 1) as Hseq.
  { subst seq. unfold NextSequence. cbn [snd]. apply Z.mod_small. lia. }
  rewrite Z.mod_small in Hc, Hb, Hlast by lia.
  rewrite <- Hseq in Hc, Hb, Hlast.
  apply cleanup_Ok_suffix in Hc. cbn [Bucket.sequence Bucket.inodes] in Hc.
  destruct Hc as [Hs2 [n Hn]]. rewrite Hs2, Hn in Hb.
  assert (Forall (fun kv : bytes * bytes => log_key (seq - 1) kv.1)
            (Bucket.inodes (bucket_of t))) as Hold.
  { eapply Forall_impl; [exact Hkeys|]. intros kv Hk.
    eapply log_key_mono; [|exact Hk]. lia. }
  rewrite put_inode_last in Hb by (try apply Forall_drop; first [lia|exact Hold]).
  fold key in Hb.
  assert (Uint64 (take 8 key) = seq) as Hprefix
    by (apply Uint64_take_PutUint64; lia).
  split; [exact Hseq|]. split; [exact Hlast|].
  split; [rewrite Hb; reflexivity|].
  split; [exists n; rewrite Hb; reflexivity|].
  split; [apply take_app_length'; reflexivity|].
  split; [apply drop_app_length'; reflexivity|].
  split; [exact Hprefix|].
  assert (Forall (fun kv : bytes * bytes =>
                    Uint64 (take 8 kv.1) < seq /\ bytes_compare kv.1 key = Lt)
            (Bucket.inodes (bucket_of t))) as Hless.
  { eapply Forall_impl; [exact Hold|]. intros [k v] (p & rest & Hp & ->).
    cbn [fst]. rewrite Uint64_take_PutUint64 by lia. split; [lia|].
    unfold key. rewrite PutUint64_compare by lia.
    destruct (Z.compare_spec p seq); try lia. reflexivity. }
  split; [exact Hless|].
  rewrite Hb. unfold sorted_log, prefixes. cbn [Bucket.sequence Bucket.inodes].
  split; [lia|]. split.
  - apply Forall_app_2.
    + apply Forall_drop. eapply Forall_impl; [exact Hold|].
      intros kv Hk. eapply log_key_mono; [|exact Hk]. lia.
    + constructor; [|constructor]. exists seq, (bytes_of_string updateID).
      split; [lia|reflexivity].
  - rewrite map_app, <- skipn_map. cbn [map fst]. rewrite Hprefix.
    apply StronglySorted_app_2.
    + intros x1 x2 Hx1 Hx2. apply list_elem_of_singleton in Hx2. subst x2.
      assert (Forall (fun p => p < seq)
                (drop n (map (fun kv : bytes * bytes => Uint64 (take 8 kv.1))
                           (Bucket.inodes (bucket_of t))))) as Hall.
      { apply Forall_drop, List.Forall_map.
        eapply Forall_impl; [exact Hless|]. intros kv [Hlt _]. exact Hlt. }
      rewrite Forall_forall in Hall. apply Hall. exact Hx1.
    + apply StronglySorted_drop. exact Hsorted.
    + repeat constructor.
Qed.

Lemma sorted_log_key_length (b : Bucket.t) :
  sorted_log b ->
  Forall (fun kv : bytes * bytes => (8 <= length kv.1)%nat) (Bucket.inodes b).
Proof.
  intros (_ & Hkeys & _). eapply Forall_impl; [exact Hkeys|].
  intros kv (seq & rest & _ & ->). rewrite length_app, PutUint64_length. lia.
Qed.

(** Successive successful writes keep the log sorted and count the
    sequence up by one each. *)
Lemma Writes_sorted_log (ws : list (Q * Update.t)) :
  forall (h h' : heap) (t t' : BoltTransport.t),
    sorted_log (bucket_of t) ->
    Bucket.sequence (bucket_of t) + Z.of_nat (length ws) < 2 ^ 64 ->
    Writes h t ws = Some (h', t') ->
    sorted_log (bucket_of t')
    /\ Bucket.sequence (bucket_of t')
       = Bucket.sequence (bucket_of t) + Z.of_nat (length ws).
Proof.
  induction ws as [|[r u] ws IH]; intros h h' t t' Hsorted Hmax Hw.
  - injection Hw as <- <-. split; [exact Hsorted|]. cbn [length Z.of_nat]. lia.
  - cbn [Writes] in Hw. cbn [length] in Hmax.
    destruct (Write h t r u) as [[[h1 t1] [e|]]|] eqn:Hw1; try discriminate.
    apply Write_Ok in Hw1. destruct Hw1 as (_ & js & t0 & ps & _ & Hp & _ & ->).
    apply persist_appends in Hp; [|exact Hsorted|lia].
    cbv zeta in Hp. destruct Hp as (Hseq & _ & Hseq' & _ & _ & _ & _ & _ & Hsorted').
    destruct (IH h1 h' (set_pipes t0 ps) t') as [Hfinal Hcount].
    + rewrite bucket_of_set_pipes. exact Hsorted'.
    + rewrite bucket_of_set_pipes, Hseq', Hseq. lia.
    + exact Hw.
    + split; [exact Hfinal|].
      rewrite Hcount, bucket_of_set_pipes, Hseq', Hseq. cbn [length]. lia.
Qed.

(** C9: the key [persist] writes is the 8-byte big-endian word of the
    sequence number [NextSequence] returned, followed by the bytes of the
    update's ID; its prefix is greater than the prefix of every key written
    before and it sorts after all of them; the log stays sorted by strictly
    increasing prefixes, also across any further successful writes (as long
    as the 64-bit counter has not run out). *)
Theorem persist_key_layout (t t' : BoltTransport.t) (r : Q) (updateID : string)
  (updateJSON : bytes) :
  sorted_log (bucket_of t) ->
  Bucket.sequence (bucket_of t) + 1 < 2 ^ 64 ->
  persist t r updateID updateJSON = Ok (t', None) ->
  let seq := snd (NextSequence (bucket_of t)) in
  let key := PutUint64 seq ++ bytes_of_string updateID in
  seq = Bucket.sequence (bucket_of t) + 1
  /\ BoltTransport.lastSeq t' = seq
  /\ Bucket.sequence (bucket_of t') = seq
  /\ (exists n, Bucket.inodes (bucket_of t')
                = drop n (Bucket.inodes (bucket_of t)) ++ [(key, updateJSON)])
  /\ take 8 key = PutUint64 seq
  /\ drop 8 key = bytes_of_string updateID
  /\ Uint64 (take 8 key) = seq
  /\ Forall (fun kv : bytes * bytes =>
              Uint64 (take 8 kv.1) < seq /\ bytes_compare kv.1 key = Lt)
       (Bucket.inodes (bucket_of t))
  /\ sorted_log (bucket_of t')
  /\ (forall h h2 t2 ws,
        seq + Z.of_nat (length ws) < 2 ^ 64 ->
        Writes h t' ws = Some (h2, t2) ->
        sorted_log (bucket_of t2)
        /\ Bucket.sequence (bucket_of t2) = seq + Z.of_nat (length ws)).
Proof.
  intros Hsorted Hmax Hp seq key.
  pose proof (persist_appends t t' r updateID updateJSON Hsorted Hmax Hp) as Hfacts.
  cbv zeta in Hfacts. fold seq in Hfacts. fold key in Hfacts.
  destruct Hfacts as (H1 & H2 & H3 & H4 & H5 & H6 & H7 & H8 & H9).
  repeat (split; [assumption|]).
  intros h h2 t2 ws Hlen Hw. rewrite <- H3 in Hlen |- *.
  apply (Writes_sorted_log ws h h2 t' t2); assumption.
Qed.

(** ** Failure and shutdown *)

(** C6: when [Write] returns an error, no pipe has changed (no subscriber
    was handed the update) and the database and the set of attached pipes
    are as before; the error is [ErrClosedTransport], the encoder's, or the
    one the storage transaction returned. *)
Theorem Write_failure_is_atomic (h h' : heap) (t t' : BoltTransport.t) (r : Q)
  (u : Update.t) (err : error) :
  Write h t r u = Ok (h', t', Some err) ->
  h' = h
  /\ BoltTransport.db t' = BoltTransport.db t
  /\ BoltTransport.pipes t' = BoltTransport.pipes t
  /\ ((BoltTransport.done t = true /\ err = ErrClosedTransport)
      \/ (json_Marshal u = None /\ err = ErrMarshal)
      \/ (exists updateJSON,
            json_Marshal u = Some updateJSON
            /\ persist t r (Update.ID u) updateJSON = Ok (t', Some err))).
Proof.
  unfold Write.
  destruct (BoltTransport.done t) eqn:Hdone.
  { intros [= <- <- <-]. repeat split. left. split; reflexivity. }
  destruct (json_Marshal u) as [js|] eqn:Hjs.
  2:{ intros [= <- <- <-]. repeat split. right. left. split; reflexivity. }
  destruct (persist t r (Update.ID u) js) as [[t1 [e|]]|] eqn:Hp; try discriminate.
  - intros [= <- <- <-]. destruct (persist_Err _ _ _ _ _ _ Hp) as [Hdb Hpipes].
    repeat split; try assumption. right. right. exists js. split; [reflexivity|exact Hp].
  - destruct (fanout _ _ _ _) as [[h1 ps]|]; discriminate.
Qed.



(** ** Replay *)

Lemma after_fromID_suffix (fromID : string) (c : list (bytes * bytes)) :
  exists n, after_fromID fromID c = drop n c.
Proof.
  induction c as [|[k v] c [n IH]]; cbn [after_fromID].
  - exists 0%nat. reflexivity.
  - destruct (String.eqb _ _).
    + exists 1%nat. reflexivity.
    + exists (S n). exact IH.
Qed.


(** Before the entry of [fromID] the loop only skips. *)
Lemma fetch_loop_skips (fromID : string) (toSeq : Z) (c : list (bytes * bytes))
  (p : Pipe.t) :
  Forall (fun kv : bytes * bytes => (8 <= length kv.1)%nat) c ->
  fetch_loop fromID toSeq c false p
  = fetch_loop fromID toSeq (after_fromID fromID c) true p.
Proof.
  induction 1 as [|[k v] c Hlen _ IH]; [reflexivity|].
  cbn [fst] in Hlen. cbn [fetch_loop after_fromID negb]. unfold key_id.
  destruct (Nat.ltb_spec (length k) 8); [lia|].
  destruct (String.eqb _ _); [reflexivity|exact IH].
Qed.

(** After it, every entry is decoded and handed to the pipe, until the
    pipe refuses or, when [toSeq > 0], an entry reaches the watermark. *)
Lemma fetch_loop_delivers (fromID : string) (toSeq : Z) (c : list (bytes * bytes)) :
  Forall (fun kv : bytes * bytes => (8 <= length kv.1)%nat) c ->
  forall (p : Pipe.t) (us : list Update.t),
    decode_all (if 0 <? toSeq then up_to_watermark toSeq c else c) = Some us ->
    fetch_loop fromID toSeq c true p = Ok (deliver us p, None).
Proof.
  induction 1 as [|[k v] c Hlen _ IH]; intros p us Hdec.
  - destruct (0 <? toSeq); injection Hdec as <-; reflexivity.
  - cbn [fst] in Hlen. cbn [fetch_loop negb].
    assert (exists u us',
               json_Unmarshal v = Some u /\ us = u :: us'
               /\ decode_all (if 0 <? toSeq
                              then (if toSeq <=? Uint64 (take 8 k) then []
                                    else up_to_watermark toSeq c)
                              else c) = Some us') as (u & us' & Hu & -> & Hrest).
    { destruct (0 <? toSeq); cbn [up_to_watermark] in Hdec.
      - destruct (toSeq <=? Uint64 (take 8 k)); cbn [decode_all] in Hdec;
          destruct (json_Unmarshal v) as [u|]; try discriminate.
        + injection Hdec as <-. exists u, []. repeat split; reflexivity.
        + destruct (decode_all _) as [us'|]; [|discriminate].
          injection Hdec as <-. exists u, us'. repeat split; reflexivity.
      - cbn [decode_all] in Hdec.
        destruct (json_Unmarshal v) as [u|]; [|discriminate].
        destruct (decode_all _) as [us'|]; [|discriminate].
        injection Hdec as <-. exists u, us'. repeat split; reflexivity. }
    rewrite Hu. cbn [deliver].
    destruct (Pipe_Write p u) as [p' ok]. destruct ok; cbn [negb]; [|reflexivity].
    destruct (0 <? toSeq) eqn:Hpos.
    + unfold key_seq. destruct (Nat.ltb_spec (length k) 8); [lia|].
      destruct (toSeq <=? Uint64 (take 8 k)).
      * injection Hrest as <-. reflexivity.
      * apply IH. rewrite ?Hpos. exact Hrest.
    + apply IH. rewrite ?Hpos. exact Hrest.
Qed.

Lemma Pipe_Write_closed (p : Pipe.t) (u : Update.t) :
  Pipe.closed (Pipe_Write p u).1 = Pipe.closed p.
Proof.
  unfold Pipe_Write. destruct (Pipe.closed p) eqn:Hc; [exact Hc|].
  destruct (_ <? _)%nat; [reflexivity|exact Hc].
Qed.

Lemma deliver_closed (us : list Update.t) :
  forall p : Pipe.t, Pipe.closed (deliver us p) = Pipe.closed p.
Proof.
  induction us as [|u us IH]; intros p; [reflexivity|].
  cbn [deliver]. pose proof (Pipe_Write_closed p u) as Hw.
  destruct (Pipe_Write p u) as [p' ok]. cbn [fst] in Hw.
  destruct ok; [rewrite IH|]; exact Hw.
Qed.

Lemma deliver_updates (us : list Update.t) :
  forall p : Pipe.t,
    Pipe.closed p = false ->
    (length (Pipe.updates p) + length us <= Pipe.capacity p)%nat ->
    Pipe.updates (deliver us p) = Pipe.updates p ++ us.
Proof.
  induction us as [|u us IH]; intros p Hopen Hroom.
  - cbn [deliver]. rewrite app_nil_r. reflexivity.
  - cbn [deliver length] in *. unfold Pipe_Write. rewrite Hopen.
    destruct (Nat.ltb_spec (length (Pipe.updates p)) (Pipe.capacity p)); [|lia].
    rewrite IH; cbn [Pipe.closed Pipe.updates Pipe.capacity].
    + rewrite <- app_assoc. reflexivity.
    + reflexivity.
    + rewrite length_app. cbn [length]. lia.
Qed.

Lemma CreatePipe_open (h : heap) (t : BoltTransport.t) (fromID : string) :
  BoltTransport.done t = false -> fromID <> EmptyString ->
  let pipe := fresh (dom h) in
  CreatePipe h t fromID
  = (<[pipe := NewPipe (BoltTransport.bufferSize t)
                 (BoltTransport.bufferFullTimeout t)]> h,
     set_pipes t ({[pipe]} ∪ BoltTransport.pipes t),
     Some pipe, None,
     Some (mkFetchTask fromID (BoltTransport.lastSeq t) pipe)).
Proof.
  intros Hopen Hne. unfold CreatePipe. rewrite Hopen.
  destruct (String.eqb_spec fromID EmptyString); [contradiction|reflexivity].
Qed.

Lemma fetch_replays (t : BoltTransport.t) (fromID : string) (toSeq : Z)
  (b : Bucket.t) (p : Pipe.t) (us : list Update.t) :
  DB.opened (BoltTransport.db t) = true ->
  DB.buckets (BoltTransport.db t) !! BoltTransport.bucketName t = Some b ->
  Forall (fun kv : bytes * bytes => (8 <= length kv.1)%nat) (Cursor b) ->
  decode_all (if 0 <? toSeq
              then up_to_watermark toSeq (after_fromID fromID (Cursor b))
              else after_fromID fromID (Cursor b)) = Some us ->
  fetch t fromID toSeq p = Ok (deliver us p, None).
Proof.
  intros Hopen Hb Hlen Hdec. unfold fetch. rewrite Hopen, Hb.
  rewrite fetch_loop_skips by exact Hlen.
  apply fetch_loop_delivers; [|exact Hdec].
  destruct (after_fromID_suffix fromID (Cursor b)) as [n ->].
  apply Forall_drop. exact Hlen.
Qed.


(** C10: when [lastSeq] is 0 at [CreatePipe] (no write in this process
    yet), the task gets the watermark 0 and its stop test never fires: on
    a log whose values decode, every update stored after the entry of
    [fromID] is handed to the pipe, whatever its sequence prefix, until the
    pipe refuses one or the log is exhausted. *)
Theorem fetch_without_watermark (h : heap) (t t2 : BoltTransport.t)
  (fromID : string) (b : Bucket.t) (p : Pipe.t) (us : list Update.t) :
  BoltTransport.done t = false ->
  BoltTransport.lastSeq t = 0 ->
  fromID <> EmptyString ->
  DB.opened (BoltTransport.db t2) = true ->
  DB.buckets (BoltTransport.db t2) !! BoltTransport.bucketName t2 = Some b ->
  Forall (fun kv : bytes * bytes => (8 <= length kv.1)%nat) (Cursor b) ->
  decode_all (after_fromID fromID (Cursor b)) = Some us ->
  exists pipe h' t',
    CreatePipe h t fromID
    = (h', t', Some pipe, None, Some (mkFetchTask fromID 0 pipe))
    /\ fetch t2 fromID 0 p = Ok (deliver us p, None).
Proof.
  intros Hdone Hzero Hne Hopen Hb Hlen Hdec.
  eexists _, _, _. split.
  - rewrite <- Hzero. apply CreatePipe_open; assumption.
  - eapply fetch_replays; eassumption.
Qed.

(** ** The match cache *)

Lemma existsb_eqb_elem_of (ut : string) (l : list string) :
  existsb (fun rt => String.eqb ut rt) l = true <-> ut ∈ l.
Proof.
  rewrite existsb_exists. split.
  - intros (rt & Hin & Heq). apply String.eqb_eq in Heq. subst rt.
    apply list_elem_of_In. exact Hin.
  - intros Hin. exists ut. split; [apply list_elem_of_In; exact Hin|].
    apply String.eqb_refl.
Qed.

Lemma topic_match_true (s : Subscriber.t) (ut : string) :
  topic_match s ut = true
  <-> ut ∈ Subscriber.RawTopics s
      \/ exists tt, tt ∈ Subscriber.TemplateTopics s /\ Template_Match tt ut = true.
Proof.
  unfold topic_match. rewrite orb_true_iff, existsb_eqb_elem_of, existsb_exists.
  split; (intros [H|(tt & Hin & Hm)]; [left; exact H|right; exists tt]);
    (split; [apply list_elem_of_In; exact Hin|exact Hm]).
Qed.

Lemma topic_match_false (s : Subscriber.t) (ut : string) :
  topic_match s ut = false
  <-> (ut ∉ Subscriber.RawTopics s)
      /\ forall tt, tt ∈ Subscriber.TemplateTopics s -> Template_Match tt ut = false.
Proof.
  rewrite <- not_true_iff_false, topic_match_true. split.
  - intros Hno. split.
    + intros Hin. apply Hno. left. exact Hin.
    + intros tt Hin. apply not_true_iff_false. intros Hm.
      apply Hno. right. exists tt. split; assumption.
  - intros [Hraw Htmpl] [Hin|(tt & Hin & Hm)].
    + exact (Hraw Hin).
    + rewrite (Htmpl tt Hin) in Hm. discriminate.
Qed.

Lemma existsb_topic_match (s : Subscriber.t) (topics : list string) :
  existsb (topic_match s) topics = true
  <-> exists ut, ut ∈ topics
                 /\ (ut ∈ Subscriber.RawTopics s
                     \/ exists tt, tt ∈ Subscriber.TemplateTopics s
                                    /\ Template_Match tt ut = true).
Proof.
  rewrite existsb_exists. split; intros (ut & Hin & Hm); exists ut.
  - split; [apply list_elem_of_In; exact Hin|apply topic_match_true; exact Hm].
  - split; [apply list_elem_of_In; exact Hin|apply topic_match_true; exact Hm].
Qed.

Lemma cache_consistent_insert (s : Subscriber.t) (cache : gmap string bool)
  (ut : string) :
  cache_consistent s cache ->
  cache_consistent s (<[ut := topic_match s ut]> cache).
Proof.
  intros Hc ut' b. destruct (decide (ut = ut')) as [->|Hne].
  - rewrite lookup_insert_eq. intros [= <-]. reflexivity.
  - rewrite lookup_insert_ne by exact Hne. apply Hc.
Qed.

(** One call of the loop keeps the cache consistent and answers as the
    uncached match does. *)
Lemma IsSubscribed_loop_spec (s : Subscriber.t) (topics : list string) :
  forall cache : gmap string bool,
    cache_consistent s cache ->
    cache_consistent s
      (IsSubscribed_loop (Subscriber.RawTopics s) (Subscriber.TemplateTopics s)
         topics cache).2
    /\ (IsSubscribed_loop (Subscriber.RawTopics s) (Subscriber.TemplateTopics s)
          topics cache).1
       = existsb (topic_match s) topics.
Proof.
  induction topics as [|ut topics IH]; intros cache Hc; cbn [IsSubscribed_loop existsb].
  - split; [exact Hc|reflexivity].
  - destruct (cache !! ut) as [[|]|] eqn:Hl.
    + rewrite <- (Hc _ _ Hl). split; [exact Hc|reflexivity].
    + rewrite <- (Hc _ _ Hl). apply IH. exact Hc.
    + pose proof (cache_consistent_insert s cache ut Hc) as Hins.
      unfold topic_match in Hins |- * at 1.
      destruct (existsb (fun rt => String.eqb ut rt) (Subscriber.RawTopics s)).
      { split; [exact Hins|reflexivity]. }
      destruct (existsb (fun tt => Template_Match tt ut) (Subscriber.TemplateTopics s)).
      { split; [exact Hins|reflexivity]. }
      cbn [orb] in *. apply IH. exact Hins.
Qed.

Lemma IsSubscribed_spec (s0 s : Subscriber.t) (u : Update.t) :
  same_subscription s0 s ->
  cache_consistent s0 (Subscriber.matchCache s) ->
  same_subscription s0 (IsSubscribed s u).2
  /\ cache_consistent s0 (Subscriber.matchCache (IsSubscribed s u).2)
  /\ Subscriber.HistorySrc (IsSubscribed s u).2 = Subscriber.HistorySrc s
  /\ Subscriber.LiveSrc (IsSubscribed s u).2 = Subscriber.LiveSrc s
  /\ (IsSubscribed s u).1 = existsb (topic_match s0) (Update.Topics u).
Proof.
  intros (Hall & Htg & Hraw & Htmpl) Hc. unfold IsSubscribed.
  rewrite Hraw, Htmpl.
  destruct (IsSubscribed_loop_spec s0 (Update.Topics u) _ Hc) as [Hc' Hb].
  destruct (IsSubscribed_loop _ _ _ _) as [b cache]. cbn [fst snd] in *.
  unfold same_subscription.
  subscriber_fields.
  repeat split; first [assumption|reflexivity].
Qed.

Lemma same_subscription_refl (s : Subscriber.t) : same_subscription s s.
Proof. repeat split. Qed.

Lemma IsSubscribed_calls_spec (s0 : Subscriber.t) (us : list Update.t) :
  forall s : Subscriber.t,
    same_subscription s0 s ->
    cache_consistent s0 (Subscriber.matchCache s) ->
    same_subscription s0 (IsSubscribed_calls s us).2
    /\ cache_consistent s0 (Subscriber.matchCache (IsSubscribed_calls s us).2)
    /\ (IsSubscribed_calls s us).1
       = map (fun u => existsb (topic_match s0) (Update.Topics u)) us.
Proof.
  induction us as [|u us IH]; intros s Hsame Hc; cbn [IsSubscribed_calls map].
  - split; [exact Hsame|split; [exact Hc|reflexivity]].
  - destruct (IsSubscribed_spec s0 s u Hsame Hc) as (Hsame1 & Hc1 & _ & _ & Hb).
    destruct (IsSubscribed s u) as [b s1]. cbn [fst snd] in *.
    destruct (IH s1 Hsame1 Hc1) as (Hsame2 & Hc2 & Hbs).
    destruct (IsSubscribed_calls s1 us) as [bs s2]. cbn [fst snd] in *.
    split; [exact Hsame2|split; [exact Hc2|]]. rewrite Hb, Hbs. reflexivity.
Qed.

(** C8: after any sequence of [IsSubscribed] calls on a subscriber whose
    cache was consistent (as the empty cache of a new subscriber is), a
    cached [true] for a topic means the topic is one of [RawTopics] or
    matches one of [TemplateTopics], a cached [false] means neither; each
    call answered as the uncached match does, and the next call returns
    [true] exactly when one of the update's topics matches. *)
Theorem match_cache_consistent (s : Subscriber.t) (us : list Update.t) :
  cache_consistent s (Subscriber.matchCache s) ->
  let s' := (IsSubscribed_calls s us).2 in
  (forall ut b,
      Subscriber.matchCache s' !! ut = Some b ->
      (b = true ->
       ut ∈ Subscriber.RawTopics s
       \/ exists tt, tt ∈ Subscriber.TemplateTopics s /\ Template_Match tt ut = true)
      /\ (b = false ->
          (ut ∉ Subscriber.RawTopics s)
          /\ forall tt, tt ∈ Subscriber.TemplateTopics s -> Template_Match tt ut = false))
  /\ (IsSubscribed_calls s us).1
     = map (fun u => existsb (topic_match s) (Update.Topics u)) us
  /\ (forall u,
        (IsSubscribed s' u).1 = true
        <-> exists ut, ut ∈ Update.Topics u
                       /\ (ut ∈ Subscriber.RawTopics s
                           \/ exists tt, tt ∈ Subscriber.TemplateTopics s
                                          /\ Template_Match tt ut = true)).
Proof.
  intros Hc s'.
  destruct (IsSubscribed_calls_spec s us s (same_subscription_refl s) Hc)
    as (Hsame & Hc' & Hbs).
  fold s' in Hsame, Hc'.
  split; [|split; [exact Hbs|]].
  - intros ut b Hl. apply Hc' in Hl. split; intros ->.
    + apply topic_match_true. symmetry. exact Hl.
    + apply topic_match_false. symmetry. exact Hl.
  - intros u. destruct (IsSubscribed_spec s s' u Hsame Hc') as (_ & _ & _ & _ & ->).
    apply existsb_topic_match.
Qed.

(** ** The pump *)

Lemma IsAuthorized_same (s0 s : Subscriber.t) (u : Update.t) :
  same_subscription s0 s -> IsAuthorized s u = IsAuthorized s0 u.
Proof.
  intros (Hall & Htg & _ & _). unfold IsAuthorized. rewrite Hall, Htg. reflexivity.
Qed.

Lemma CanDispatch_spec (s0 s : Subscriber.t) (u : Update.t) :
  pump_inv s0 s ->
  pump_inv s0 (CanDispatch s u).2
  /\ Subscriber.HistorySrc (CanDispatch s u).2 = Subscriber.HistorySrc s
  /\ Subscriber.LiveSrc (CanDispatch s u).2 = Subscriber.LiveSrc s
  /\ ((CanDispatch s u).1 = true <-> dispatchable s0 u).
Proof using Template_Match.
  intros (Hsame & Hc & Hh & Hl). unfold CanDispatch, dispatchable.
  rewrite <- (IsAuthorized_same s0 s u Hsame).
  destruct (IsAuthorized s u); cbn [negb].
  - destruct (IsSubscribed_spec s0 s u Hsame Hc) as (Hsame1 & Hc1 & Hh1 & Hl1 & Hb).
    destruct (IsSubscribed s u) as [b s1]. cbn [fst snd] in *.
    rewrite <- Hb.
    assert (pump_inv s0 s1) as Hinv.
    { unfold pump_inv. rewrite Hh1, Hl1. repeat split; try assumption; apply Hsame1. }
    destruct b; cbn [negb fst snd].
    + split; [exact Hinv|]. split; [exact Hh1|]. split; [exact Hl1|].
      split; [intros _; split; reflexivity|reflexivity].
    + split; [exact Hinv|]. split; [exact Hh1|]. split; [exact Hl1|].
      split; [discriminate|intros [_ H]; discriminate].
  - cbn [fst snd].
    split; [split; [exact Hsame|split; [exact Hc|split; assumption]]|].
    split; [reflexivity|]. split; [reflexivity|].
    split; [discriminate|intros [H _]; discriminate].
Qed.

Lemma select_inv (s0 s s' : Subscriber.t) (e : event)
  (sent : option (option Update.t)) :
  pump_inv s0 s ->
  select s e = Continue s' sent ->
  pump_inv s0 s' /\ forall u, sent = Some (Some u) -> dispatchable s0 u.
Proof using Template_Match.
  intros Hinv. pose proof Hinv as (Hsame & Hc & Hh & Hl).
  destruct e as [| |u| |u|]; cbn [select]; try discriminate.
  - destruct (updateSrc.In (Subscriber.HistorySrc s)); [|discriminate].
    destruct (CanDispatch_spec s0 s u Hinv) as ((Hsame1 & Hc1 & Hh1 & Hl1) & _ & _ & Hok).
    destruct (CanDispatch s u) as [ok s1]. cbn [fst snd] in *.
    destruct ok; intros [= <- <-]; (split; [|discriminate]).
    + unfold pump_inv.
      subscriber_fields.
      split; [exact Hsame1|split; [exact Hc1|split; [|exact Hl1]]].
      apply Forall_app_2; [exact Hh1|]. constructor; [|constructor].
      apply Hok. reflexivity.
    + unfold pump_inv. split; [exact Hsame1|split; [exact Hc1|split; assumption]].
  - destruct (updateSrc.In (Subscriber.HistorySrc s)); [|discriminate].
    intros [= <- <-]. split; [|discriminate].
    unfold pump_inv.
    subscriber_fields.
    split; [exact Hsame|split; [exact Hc|split; assumption]].
  - destruct (updateSrc.In (Subscriber.LiveSrc s)); [|discriminate].
    destruct (CanDispatch_spec s0 s u Hinv) as ((Hsame1 & Hc1 & Hh1 & Hl1) & _ & _ & Hok).
    destruct (CanDispatch s u) as [ok s1]. cbn [fst snd] in *.
    destruct ok; intros [= <- <-]; (split; [|discriminate]).
    + unfold pump_inv.
      subscriber_fields.
      split; [exact Hsame1|split; [exact Hc1|split; [exact Hh1|]]].
      apply Forall_app_2; [exact Hl1|]. constructor; [|constructor].
      apply Hok. reflexivity.
    + unfold pump_inv. split; [exact Hsame1|split; [exact Hc1|split; assumption]].
  - destruct (outChan s); [|discriminate].
    unfold nextUpdate.
    destruct (updateSrc.buffer (Subscriber.HistorySrc s)) as [|uh hist] eqn:Hhist.
    + cbn [length Nat.ltb Nat.leb].
      destruct (updateSrc.buffer (Subscriber.LiveSrc s)) as [|ul live] eqn:Hlive;
        [discriminate|].
      intros [= <- <-]. split.
      * unfold pump_inv.
        subscriber_fields.
        rewrite Hhist.
        split; [exact Hsame|split; [exact Hc|split; [constructor|]]].
        apply Forall_cons in Hl. apply Hl.
      * intros u Hu. apply Forall_cons in Hl. destruct Hl as [Hul _].
        destruct (updateSrc.In (Subscriber.HistorySrc s)); cbn [orb] in Hu;
          [discriminate|]. injection Hu as <-. exact Hul.
    + cbn [length Nat.ltb Nat.leb]. rewrite orb_true_r.
      intros [= <- <-]. apply Forall_cons in Hh. destruct Hh as [Huh Hh]. split.
      * unfold pump_inv.
        subscriber_fields; cbn [drop].
        split; [exact Hsame|split; [exact Hc|split; assumption]].
      * intros u [= <-]. exact Huh.
Qed.

Lemma start_inv (s0 : Subscriber.t) (evs : list event) :
  forall s : Subscriber.t,
    pump_inv s0 s ->
    forall u, Some u ∈ (start s evs).1 -> dispatchable s0 u.
Proof using Template_Match.
  induction evs as [|e evs IH]; intros s Hinv u Hin; cbn [start] in Hin.
  - apply elem_of_nil in Hin. destruct Hin.
  - destruct (select s e) as [| |s1 sent|] eqn:Hsel.
    + apply elem_of_nil in Hin. destruct Hin.
    + exact (IH s Hinv u Hin).
    + destruct (select_inv s0 s s1 e sent Hinv Hsel) as [Hinv1 Hsent].
      specialize (IH s1 Hinv1 u).
      destruct (start s1 evs) as [out final]. cbn [fst] in *.
      destruct sent as [v|]; [|exact (IH Hin)].
      apply elem_of_cons in Hin. destruct Hin as [<-|Hin]; [|exact (IH Hin)].
      apply Hsent. reflexivity.
    + apply elem_of_nil in Hin. destruct Hin.
Qed.

(** C7: every update the pump writes to [Out] is authorized and
    subscribed: [IsAuthorized] and [IsSubscribed] both return [true] for
    it. An update for which [CanDispatch] returns [false] is dropped on
    arrival: the pump sends nothing and both buffers stay as they were. *)
Theorem delivered_updates_pass_filters (s : Subscriber.t) (evs : list event)
  (u : Update.t) :
  pump_inv s s ->
  Some u ∈ (start s evs).1 ->
  IsAuthorized s u = true
  /\ (IsSubscribed s u).1 = true
  /\ (forall s1 v e s2 sent,
        (CanDispatch s1 v).1 = false ->
        e = HistoryRecv v \/ e = LiveRecv v ->
        select s1 e = Continue s2 sent ->
        sent = None
        /\ updateSrc.buffer (Subscriber.HistorySrc s2)
           = updateSrc.buffer (Subscriber.HistorySrc s1)
        /\ updateSrc.buffer (Subscriber.LiveSrc s2)
           = updateSrc.buffer (Subscriber.LiveSrc s1)).
Proof using Template_Match.
  intros Hinv Hin.
  destruct (start_inv s evs s Hinv u Hin) as [Hauth Hsub].
  split; [exact Hauth|]. split.
  - destruct Hinv as (Hsame & Hc & _).
    destruct (IsSubscribed_spec s s u Hsame Hc) as (_ & _ & _ & _ & ->). exact Hsub.
  - intros s1 v e s2 sent Hdrop He Hsel.
    assert (Subscriber.HistorySrc (CanDispatch s1 v).2 = Subscriber.HistorySrc s1
            /\ Subscriber.LiveSrc (CanDispatch s1 v).2 = Subscriber.LiveSrc s1)
      as [Hh Hl].
    { unfold CanDispatch. destruct (negb (IsAuthorized s1 v)); [split; reflexivity|].
      unfold IsSubscribed. destruct (IsSubscribed_loop _ _ _ _) as [b cache].
      destruct (negb b); split; reflexivity. }
    destruct (CanDispatch s1 v) as [ok s1'] eqn:Hcd. cbn [fst snd] in *. subst ok.
    destruct He as [-> | ->]; cbn [select] in Hsel; rewrite Hcd in Hsel.
    + destruct (updateSrc.In (Subscriber.HistorySrc s1)); [|discriminate].
      injection Hsel as <- <-. rewrite Hh, Hl. repeat split.
    + destruct (updateSrc.In (Subscriber.LiveSrc s1)); [|discriminate].
      injection Hsel as <- <-. rewrite Hh, Hl. repeat split.
Qed.

(** C1: in a state whose history source is still open and whose history
    buffer is empty while the live buffer holds [u], the pump does offer
    its output channel; the reader that takes the offer receives a [nil]
    pointer, and [u] is removed from the live buffer without having been
    delivered. *)
Theorem pump_sends_nil_while_history_open (allTargets : bool)
  (targets : gset string) (topics rawTopics templateTopics : list string)
  (lastEventID remoteAddr : string) (liveIn debug : bool)
  (cache : gmap string bool) (u : Update.t) (live : list Update.t) :
  let s := Subscriber.mk allTargets targets topics rawTopics templateTopics
             lastEventID remoteAddr (updateSrc.mk true [])
             (updateSrc.mk liveIn (u :: live)) debug cache in
  outChan s = true
  /\ nextUpdate s = None
  /\ select s OutSend
     = Continue (set_live s (updateSrc.mk liveIn live)) (Some None).
Proof. intros s. repeat split. Qed.

(** ** No panic from well-formed states *)

Lemma cleanup_loop_returns (removeUntil : Z) (c : list (bytes * bytes)) :
  Forall (fun kv : bytes * bytes => (8 <= length kv.1)%nat) c ->
  forall bucket, exists res, cleanup_loop removeUntil c bucket = Ok res.
Proof.
  induction 1 as [|[k v] c Hlen _ IH]; intros bucket; cbn [cleanup_loop].
  - eexists. reflexivity.
  - cbn [fst] in Hlen. unfold key_seq.
    destruct (Nat.ltb_spec (length k) 8); [lia|].
    destruct (removeUntil <? Uint64 (take 8 k)); [eexists; reflexivity|].
    destruct (Delete bucket k) as [bucket' [err|]]; [eexists; reflexivity|].
    apply IH.
Qed.

Lemma fanout_returns (update : Update.t) (ls : list loc) :
  forall (h : heap) (ps : gset loc),
    (forall pipe, pipe ∈ ls -> is_Some (h !! pipe)) ->
    exists res, fanout update ls h ps = Ok res.
Proof.
  induction ls as [|l ls IH]; intros h ps Hdom; cbn [fanout].
  - eexists. reflexivity.
  - destruct (Hdom l) as [p Hp]; [left|]. rewrite Hp.
    destruct (Pipe_Write p update) as [p' ok]. apply IH.
    intros pipe Hin. destruct (decide (pipe = l)) as [->|Hne].
    + rewrite lookup_insert_eq. eexists. reflexivity.
    + rewrite lookup_insert_ne by congruence. apply Hdom. right. exact Hin.
Qed.

(** [Write] returns, with an error or without, on a transport whose stored
    keys have their 8-byte prefix and whose attached pipes exist. *)
Lemma Write_returns (h : heap) (t : BoltTransport.t) (r : Q) (u : Update.t) :
  Forall (fun kv : bytes * bytes => (8 <= length kv.1)%nat)
    (Bucket.inodes (bucket_of t)) ->
  (forall pipe, pipe ∈ BoltTransport.pipes t -> is_Some (h !! pipe)) ->
  exists res, Write h t r u = Ok res.
Proof.
  intros Hkeys Hpipes. unfold Write.
  destruct (BoltTransport.done t); [eexists; reflexivity|].
  destruct (json_Marshal u) as [js|]; [|eexists; reflexivity].
  assert (exists t1 e, persist t r (Update.ID u) js = Ok (t1, e)
                       /\ BoltTransport.pipes t1 = BoltTransport.pipes t)
    as (t1 & e & -> & Hps).
  { unfold persist. destruct (DB.opened (BoltTransport.db t));
      [|eexists _, _; split; reflexivity].
    unfold persist_tx, CreateBucketIfNotExists, NextSequence.
    unfold bucket_of in Hkeys.
    destruct (DB.buckets (BoltTransport.db t) !! BoltTransport.bucketName t)
      as [b0|]; cbn [default from_option id Bucket.inodes Bucket.sequence] in *.
    - unfold cleanup. destruct (cleanup_skips _ _ _ _).
      + destruct (Put _ _ _) as [b3 [err|]]; eexists _, _; split; reflexivity.
      + unfold Cursor. cbn [Bucket.inodes].
        destruct (cleanup_loop_returns
                    ((Bucket.sequence b0 + 1) mod 2 ^ 64 - BoltTransport.size t)
                    _ Hkeys
                    (Bucket.mk ((Bucket.sequence b0 + 1) mod 2 ^ 64) (Bucket.inodes b0)))
          as [[b2 [err|]] ->]; [eexists _, _; split; reflexivity|].
        destruct (Put _ _ _) as [b3 [err|]]; eexists _, _; split; reflexivity.
    - unfold cleanup. destruct (cleanup_skips _ _ _ _); cbn [Cursor Bucket.inodes cleanup_loop];
        destruct (Put _ _ _) as [b3 [err|]]; eexists _, _; split; reflexivity. }
  destruct e as [err|]; [eexists; reflexivity|].
  destruct (fanout_returns u (elements (BoltTransport.pipes t1)) h
              (BoltTransport.pipes t1)) as [[h' ps] ->].
  - intros pipe Hin. apply elem_of_elements in Hin. rewrite Hps in Hin.
    apply Hpipes. exact Hin.
  - eexists. reflexivity.
Qed.

Lemma close_pipes_returns (ls : list loc) :
  forall h : heap,
    NoDup ls ->
    (forall pipe, pipe ∈ ls -> exists p, h !! pipe = Some p /\ Pipe.closed p = false) ->
    exists h', close_pipes ls h = Ok h'.
Proof.
  induction ls as [|l ls IH]; intros h Hnd Hopen; cbn [close_pipes].
  - eexists. reflexivity.
  - apply NoDup_cons in Hnd. destruct Hnd as [Hnin Hnd].
    destruct (Hopen l) as (p & Hp & Hc); [left|]. rewrite Hp.
    unfold close_chan. rewrite Hc. apply IH; [exact Hnd|].
    intros pipe Hin. rewrite lookup_insert_ne by (intros ->; contradiction).
    apply Hopen. right. exact Hin.
Qed.

(** [Close] returns when every attached pipe is still open. *)
Lemma Close_returns (h : heap) (t : BoltTransport.t) :
  (forall pipe, pipe ∈ BoltTransport.pipes t ->
                exists p, h !! pipe = Some p /\ Pipe.closed p = false) ->
  exists h' t', Close h t = Ok (h', t', None).
Proof.
  intros Hopen. unfold Close.
  destruct (BoltTransport.done t); [eexists _, _; reflexivity|].
  destruct (close_pipes_returns (elements (BoltTransport.pipes t)) h) as [h' ->].
  - apply NoDup_elements.
  - intros pipe Hin. apply Hopen. apply elem_of_elements. exact Hin.
  - eexists _, _. reflexivity.
Qed.

(** The pump never slices an empty buffer: its output is offered only when
    a buffer holds something. *)
Lemma select_never_panics (s : Subscriber.t) (e : event) : select s e <> Panics.
Proof.
  destruct e as [| |u| |u|]; cbn [select]; try discriminate.
  - destruct (updateSrc.In _); [|discriminate].
    destruct (CanDispatch s u) as [[|] s']; discriminate.
  - destruct (updateSrc.In _); discriminate.
  - destruct (updateSrc.In _); [|discriminate].
    destruct (CanDispatch s u) as [[|] s']; discriminate.
  - unfold outChan.
    destruct (updateSrc.buffer (Subscriber.HistorySrc s)) as [|uh hist];
      destruct (updateSrc.buffer (Subscriber.LiveSrc s)) as [|ul live];
      cbn [length Nat.ltb Nat.leb orb]; discriminate.
Qed.

(** ** History before live *)

(** A live update leaves through [Out] only once the history is drained,
    and a drained history stays drained: no update of the replay follows a
    live one. *)
Lemma live_send_after_history (s s' : Subscriber.t) (u : Update.t) :
  updateSrc.buffer (Subscriber.HistorySrc s) = [] ->
  select s OutSend = Continue s' (Some (Some u)) ->
  history_drained s /\ history_drained s'.
Proof.
  intros Hhist. cbn [select]. unfold nextUpdate, history_drained. rewrite Hhist.
  destruct (outChan s); [|discriminate]. cbn [length Nat.ltb Nat.leb].
  destruct (updateSrc.buffer (Subscriber.LiveSrc s)) as [|ul live]; [discriminate|].
  destruct (updateSrc.In (Subscriber.HistorySrc s)) eqn:Hin; cbn [orb].
  - discriminate.
  - intros [= <- _]. subscriber_fields. rewrite Hin, Hhist.
    repeat split.
Qed.

Lemma history_drained_stable (s s' : Subscriber.t) (e : event)
  (sent : option (option Update.t)) :
  history_drained s ->
  select s e = Continue s' sent ->
  history_drained s'.
Proof.
  intros [Hin Hbuf]. unfold history_drained.
  destruct e as [| |u| |u|]; cbn [select]; try discriminate.
  - rewrite Hin. discriminate.
  - rewrite Hin. discriminate.
  - destruct (updateSrc.In (Subscriber.LiveSrc s)); [|discriminate].
    assert (Subscriber.HistorySrc (CanDispatch s u).2 = Subscriber.HistorySrc s) as Hsame.
    { unfold CanDispatch. destruct (negb (IsAuthorized s u)); [reflexivity|].
      unfold IsSubscribed. destruct (IsSubscribed_loop _ _ _ _) as [b cache].
      destruct (negb b); reflexivity. }
    destruct (CanDispatch s u) as [[|] s1]; cbn [snd] in Hsame;
      intros [= <- _]; subscriber_fields;
      rewrite Hsame, Hin, Hbuf; split; reflexivity.
  - destruct (outChan s); [|discriminate]. rewrite Hbuf.
    cbn [length Nat.ltb Nat.leb].
    destruct (updateSrc.buffer (Subscriber.LiveSrc s)) as [|ul live]; [discriminate|].
    intros [= <- _]. subscriber_fields. rewrite Hin, Hbuf.
    split; reflexivity.
Qed.

Lemma cache_consistent_empty (s : Subscriber.t) : cache_consistent s ∅.
Proof. intros ut b Hl. rewrite lookup_empty in Hl. discriminate. Qed.

(** A new subscriber starts the pump in a state that satisfies its
    invariant. *)
Lemma pump_inv_NewSubscriber (allTargets : bool) (targets : gset string)
  (topics rawTopics templateTopics : list string)
  (lastEventID remoteAddr : string) (debug : bool) :
  let s := NewSubscriber allTargets targets topics rawTopics templateTopics
             lastEventID remoteAddr debug in
  pump_inv s s.
Proof.
  intros s. split; [apply same_subscription_refl|].
  split; [apply cache_consistent_empty|].
  split; constructor.
Qed.

Lemma bytes_compare_Eq (a b : bytes) : bytes_compare a b = Eq <-> a = b.
Proof.
  revert b. induction a as [|x a IH]; intros [|y b]; cbn [bytes_compare];
    try (split; [discriminate|discriminate]); [split; reflexivity|].
  destruct (Z.compare_spec x y) as [->|Hlt|Hgt].
  - rewrite IH. split; [intros ->; reflexivity|intros [= ->]; reflexivity].
  - split; [discriminate|intros [= -> _]; lia].
  - split; [discriminate|intros [= -> _]; lia].
Qed.

(** ** Round trips of the key encoding *)

(** X1: [PutUint64] and [Uint64] are inverse of each other: a 64-bit word
    written in front of anything is read back unchanged, and the 8 bytes at
    the head of a slice are rebuilt from the word read from them. *)
Theorem big_endian_round_trip (v : Z) (b rest : bytes) :
  0 <= v < 2 ^ 64 -> length b = 8%nat -> Forall is_byte b ->
  Uint64 (PutUint64 v ++ rest) = v
  /\ PutUint64 (Uint64 (b ++ rest)) = b
  /\ 0 <= Uint64 (b ++ rest) < 2 ^ 64.
Proof using.
  intros Hv Hlen Hb. split; [apply Uint64_PutUint64; exact Hv|].
  destruct b as [|b0 [|b1 [|b2 [|b3 [|b4 [|b5 [|b6 [|b7 [|]]]]]]]]];
    try discriminate Hlen. clear Hlen Hv.
  do 8 (apply Forall_cons in Hb; destruct Hb as [? Hb]). clear Hb.
  cbn [app]. rewrite Uint64_bytes by assumption.
  unfold is_byte in H, H0, H1, H2, H3, H4, H5, H6.
  split; [|clear -H H0 H1 H2 H3 H4 H5 H6; lia].
  unfold PutUint64. change 255 with (Z.ones 8).
  rewrite !Z.land_ones, !Z.shiftr_div_pow2 by lia.
  repeat match goal with
         | |- _ :: _ = _ :: _ => f_equal
         end; try reflexivity; symmetry;
    clear -H H0 H1 H2 H3 H4 H5 H6; Z.div_mod_to_equations; lia.
Qed.

(** X2: the byte order of two keys laid out as [persist] lays them out is
    the order of their sequence numbers, whatever the IDs are; the IDs
    decide only between keys of one sequence number. *)
Theorem key_order_is_sequence_order (a b : Z) (x y : string) :
  0 <= a < 2 ^ 64 -> 0 <= b < 2 ^ 64 ->
  let ka := PutUint64 a ++ bytes_of_string x in
  let kb := PutUint64 b ++ bytes_of_string y in
  (a < b -> bytes_compare ka kb = Lt)
  /\ (b < a -> bytes_compare ka kb = Gt)
  /\ (bytes_compare ka kb = Eq <-> a = b /\ x = y).
Proof.
  intros Ha Hb ka kb. subst ka kb.
  rewrite PutUint64_compare by assumption.
  split; [|split].
  - intros Hlt. apply Z.compare_lt_iff in Hlt. rewrite Hlt. reflexivity.
  - intros Hgt. apply Z.compare_gt_iff in Hgt. rewrite Hgt. reflexivity.
  - destruct (Z.compare_spec a b) as [->|Hlt|Hgt].
    + rewrite bytes_compare_Eq. split.
      * intros Heq. split; [reflexivity|].
        rewrite <- (string_of_bytes_of_string x), Heq.
        apply string_of_bytes_of_string.
      * intros [_ ->]. reflexivity.
    + split; [discriminate|]. intros [-> _]. lia.
    + split; [discriminate|]. intros [-> _]. lia.
Qed.

(** X3: [fetch] and [cleanup] read back from a key exactly what [persist]
    put into it: the sequence number from the first 8 bytes and the ID from
    the rest; on a key of fewer than 8 bytes both slicings panic. *)
Theorem key_parses_back (seq : Z) (id : string) (k : bytes) :
  0 <= seq < 2 ^ 64 -> (length k < 8)%nat ->
  key_seq (PutUint64 seq ++ bytes_of_string id) = Ok seq
  /\ key_id (PutUint64 seq ++ bytes_of_string id) = Ok id
  /\ key_seq k = Panic
  /\ key_id k = Panic.
Proof.
  intros Hseq Hk. split; [apply key_seq_PutUint64; exact Hseq|].
  split; [apply key_id_PutUint64|].
  unfold key_seq, key_id.
  destruct (Nat.ltb_spec (length k) 8) as [_|Hge]; [|lia].
  split; reflexivity.
Qed.

(** ** The log under any cleanup frequency *)

Lemma cleanup_skips_false (size : Z) (cf r : Q) (seq : Z) :
  cleanup_skips size cf r seq = false ->
  size <> 0 /\ ~ (cf == 0)%Q /\ size < seq.
Proof.
  unfold cleanup_skips. intros H.
  apply orb_false_elim in H. destruct H as [H _].
  apply orb_false_elim in H. destruct H as [H Hseq].
  apply orb_false_elim in H. destruct H as [Hsize Hcf].
  split; [lia|]. split; [|lia]. apply Qeq_bool_false. exact Hcf.
Qed.

Lemma cleanup_skips_disabled (size : Z) (cf r : Q) (seq : Z) :
  size = 0 \/ (cf == 0)%Q -> cleanup_skips size cf r seq = true.
Proof.
  unfold cleanup_skips. intros [-> | Hcf].
  - reflexivity.
  - assert (Qeq_bool cf 0 = true) as -> by (apply Qeq_bool_iff; exact Hcf).
    rewrite orb_true_r. reflexivity.
Qed.

(** One successful [Write] on a log that holds the entries of all but the
    first [k] of the updates written so far: the new entry is appended, and
    the log still holds the entries of all but the first [k'], where [k']
    grows only up to what the retention size allows. *)
Lemma Write_suffix (h h' : heap) (t t' : BoltTransport.t) (r : Q) (u : Update.t)
  (us : list Update.t) (k : nat) :
  0 <= BoltTransport.size t ->
  Z.of_nat (length us) + 1 < 2 ^ 64 ->
  (k <= length us)%nat ->
  bucket_of t = Bucket.mk (Z.of_nat (length us))
                  (log_entries (Z.of_nat k + 1) (drop k us)) ->
  Write h t r u = Ok (h', t', None) ->
  exists k' : nat,
    (k <= k' <= length us)%nat
    /\ Z.of_nat k' <= Z.max (Z.of_nat k)
                        (Z.of_nat (length us) + 1 - BoltTransport.size t)
    /\ (BoltTransport.size t = 0 \/ (BoltTransport.cleanupFrequency t == 0)%Q ->
        k' = k)
    /\ bucket_of t' = Bucket.mk (Z.of_nat (length (us ++ [u])))
                        (log_entries (Z.of_nat k' + 1) (drop k' (us ++ [u])))
    /\ DB.buckets (BoltTransport.db t') !! BoltTransport.bucketName t'
       = Some (bucket_of t')
    /\ DB.opened (BoltTransport.db t') = true
    /\ BoltTransport.lastSeq t' = Z.of_nat (length (us ++ [u]))
    /\ BoltTransport.done t' = false
    /\ BoltTransport.size t' = BoltTransport.size t
    /\ BoltTransport.cleanupFrequency t' = BoltTransport.cleanupFrequency t
    /\ BoltTransport.bucketName t' = BoltTransport.bucketName t
    /\ BoltTransport.bufferSize t' = BoltTransport.bufferSize t
    /\ BoltTransport.bufferFullTimeout t' = BoltTransport.bufferFullTimeout t.
Proof.
  intros Hsize Hn Hk Hinv Hw.
  apply Write_Ok in Hw. destruct Hw as (Hdone & js & t1 & ps & Hjs & Hp & _ & ->).
  assert (BoltTransport.bufferSize t1 = BoltTransport.bufferSize t
          /\ BoltTransport.bufferFullTimeout t1 = BoltTransport.bufferFullTimeout t)
    as [Hbs Hbt].
  { clear -Hp. unfold persist in Hp.
    destruct (DB.opened (BoltTransport.db t)); [|discriminate].
    destruct (persist_tx _ _ _ _ _) as [[[tx' seq] [e|]]|]; try discriminate.
    injection Hp as <-. split; reflexivity. }
  apply persist_Ok in Hp. cbv zeta in Hp.
  destruct Hp as (b2 & Hc & _ & Hb & Hlook & Hopen & Hlast & Hname & Hsz & Hfreq
                  & _ & Hdone1).
  rewrite Hinv in Hc, Hb, Hlast. cbn [Bucket.sequence Bucket.inodes] in Hc, Hb, Hlast.
  rewrite Z.mod_small in Hc, Hb, Hlast by lia.
  set (n := Z.of_nat (length us)) in *.
  assert (Z.of_nat (length (us ++ [u])) = n + 1) as Hlen
    by (rewrite length_app; cbn [length]; lia).
  rewrite Hlen.
  assert (forall k' : nat,
             (k' <= length us)%nat ->
             put_inode (PutUint64 (n + 1) ++ bytes_of_string (Update.ID u)) js
               (log_entries (Z.of_nat k' + 1) (drop k' us))
             = log_entries (Z.of_nat k' + 1) (drop k' (us ++ [u]))) as Hput.
  { intros k' Hk'. rewrite put_inode_log_entries by (rewrite ?length_drop; lia).
    rewrite drop_app_le by lia. rewrite log_entries_app.
    cbn [log_entries]. rewrite Hjs. cbn [default]. rewrite length_drop.
    replace (Z.of_nat k' + 1 + Z.of_nat (length us - k')) with (n + 1) by lia.
    reflexivity. }
  unfold cleanup in Hc.
  destruct (cleanup_skips _ _ _ _) eqn:Hskip.
  - injection Hc as <-. cbn [Bucket.sequence Bucket.inodes] in Hb.
    rewrite Hput in Hb by exact Hk.
    exists k. rewrite bucket_of_set_pipes.
    cbn [set_pipes BoltTransport.db BoltTransport.bucketName BoltTransport.lastSeq
         BoltTransport.done BoltTransport.size BoltTransport.cleanupFrequency
         BoltTransport.bufferSize BoltTransport.bufferFullTimeout].
    split; [lia|]. split; [lia|]. split; [reflexivity|].
    split; [exact Hb|]. split; [exact Hlook|]. split; [exact Hopen|].
    split; [exact Hlast|]. split; [rewrite Hdone1; exact Hdone|].
    repeat (split; [assumption|]). assumption.
  - apply cleanup_skips_false in Hskip. destruct Hskip as (Hs0 & Hcf0 & _).
    unfold Cursor in Hc. cbn [Bucket.inodes] in Hc.
    apply cleanup_loop_Ok in Hc. subst b2.
    cbn [Bucket.sequence Bucket.inodes] in Hb.
    rewrite drop_expired_log_entries in Hb by (rewrite ?length_drop; lia).
    rewrite drop_drop in Hb.
    set (k' := Z.to_nat (Z.max (Z.of_nat k) (n + 1 - BoltTransport.size t))).
    assert (k <= k' <= length us)%nat as Hk' by lia.
    replace (Z.max (Z.of_nat k + 1) (n + 1 - BoltTransport.size t + 1))
      with (Z.of_nat k' + 1) in Hb by lia.
    replace (k + Z.to_nat (n + 1 - BoltTransport.size t + 1 - (Z.of_nat k + 1)))%nat
      with k' in Hb by lia.
    rewrite Hput in Hb by lia.
    exists k'. rewrite bucket_of_set_pipes.
    cbn [set_pipes BoltTransport.db BoltTransport.bucketName BoltTransport.lastSeq
         BoltTransport.done BoltTransport.size BoltTransport.cleanupFrequency
         BoltTransport.bufferSize BoltTransport.bufferFullTimeout].
    split; [exact Hk'|]. split; [lia|].
    split; [intros [H0|H0]; [contradiction (Hs0 H0)|contradiction (Hcf0 H0)]|].
    split; [exact Hb|]. split; [exact Hlook|]. split; [exact Hopen|].
    split; [exact Hlast|]. split; [rewrite Hdone1; exact Hdone|].
    repeat (split; [assumption|]). assumption.
Qed.

Lemma Writes_suffix (ws : list (Q * Update.t)) :
  forall (us : list Update.t) (k : nat) (h h' : heap) (t t' : BoltTransport.t),
    ws <> [] ->
    0 <= BoltTransport.size t ->
    Z.of_nat (length us) + Z.of_nat (length ws) < 2 ^ 64 ->
    (k <= length us)%nat ->
    bucket_of t = Bucket.mk (Z.of_nat (length us))
                    (log_entries (Z.of_nat k + 1) (drop k us)) ->
    Writes h t ws = Some (h', t') ->
    exists k' : nat,
      (k <= k' < length (us ++ map snd ws))%nat
      /\ Z.of_nat k' <= Z.max (Z.of_nat k)
                          (Z.of_nat (length (us ++ map snd ws)) - BoltTransport.size t)
      /\ (BoltTransport.size t = 0 \/ (BoltTransport.cleanupFrequency t == 0)%Q ->
          k' = k)
      /\ bucket_of t' = Bucket.mk (Z.of_nat (length (us ++ map snd ws)))
                          (log_entries (Z.of_nat k' + 1)
                             (drop k' (us ++ map snd ws)))
      /\ DB.buckets (BoltTransport.db t') !! BoltTransport.bucketName t'
         = Some (bucket_of t')
      /\ DB.opened (BoltTransport.db t') = true
      /\ BoltTransport.lastSeq t' = Z.of_nat (length (us ++ map snd ws))
      /\ BoltTransport.done t' = false
      /\ BoltTransport.bucketName t' = BoltTransport.bucketName t
      /\ BoltTransport.bufferSize t' = BoltTransport.bufferSize t
      /\ BoltTransport.bufferFullTimeout t' = BoltTransport.bufferFullTimeout t.
Proof.
  induction ws as [|[r u] ws IH]; intros us k h h' t t' Hne Hsize Hn Hk Hinv Hw;
    [contradiction Hne; reflexivity|].
  cbn [Writes] in Hw. cbn [length] in Hn.
  destruct (Write h t r u) as [[[h1 t1] [e|]]|] eqn:Hw1; try discriminate.
  destruct (Write_suffix h h1 t t1 r u us k Hsize ltac:(lia) Hk Hinv Hw1)
    as (k1 & Hk1 & Hbound1 & Hoff1 & Hb1 & Hlook1 & Hopen1 & Hlast1 & Hdone1
        & Hsz1 & Hfreq1 & Hname1 & Hbs1 & Hbt1).
  cbn [map snd].
  replace (us ++ u :: map snd ws) with ((us ++ [u]) ++ map snd ws)
    by (rewrite <- app_assoc; reflexivity).
  assert (length (us ++ [u]) = S (length us)) as Hlen1
    by (rewrite length_app; cbn [length]; lia).
  destruct ws as [|w ws].
  - injection Hw as <- <-. cbn [map]. rewrite app_nil_r.
    exists k1. rewrite Hlen1 in *.
    split; [lia|]. split; [lia|]. split; [exact Hoff1|].
    repeat (split; [assumption|]). assumption.
  - destruct (IH (us ++ [u]) k1 h1 h' t1 t') as
      (k2 & Hk2 & Hbound2 & Hoff2 & Hb2 & Hlook2 & Hopen2 & Hlast2 & Hdone2
       & Hname2 & Hbs2 & Hbt2).
    + discriminate.
    + rewrite Hsz1. exact Hsize.
    + rewrite Hlen1. cbn [length] in *. lia.
    + lia.
    + exact Hb1.
    + exact Hw.
    + exists k2. rewrite Hsz1, Hfreq1 in *.
      assert (length us < length ((us ++ [u]) ++ map snd (w :: ws)))%nat as Hgrow
        by (rewrite length_app, Hlen1; lia).
      split; [lia|]. split; [lia|].
      split; [intros Hoff; rewrite (Hoff2 Hoff); exact (Hoff1 Hoff)|].
      split; [exact Hb2|]. split; [exact Hlook2|]. split; [exact Hopen2|].
      split; [exact Hlast2|]. split; [exact Hdone2|].
      split; [congruence|]. split; congruence.
Qed.

(** X4: with retention disabled (size 0, or cleanup frequency 0) nothing
    is ever deleted: after N successful writes to a new bucket the log
    holds the entries of all N updates, in the order written, under the
    sequence numbers 1 .. N, and [lastSeq] is N. *)
Theorem log_without_retention_keeps_everything (h h' : heap)
  (t t' : BoltTransport.t) (ws : list (Q * Update.t)) :
  let N := Z.of_nat (length ws) in
  BoltTransport.size t = 0 \/ (BoltTransport.cleanupFrequency t == 0)%Q ->
  0 <= BoltTransport.size t ->
  bucket_of t = Bucket.mk 0 [] ->
  ws <> [] -> N < 2 ^ 64 ->
  Writes h t ws = Some (h', t') ->
  DB.buckets (BoltTransport.db t') !! BoltTransport.bucketName t
  = Some (Bucket.mk N (log_entries 1 (map snd ws)))
  /\ BoltTransport.lastSeq t' = N
  /\ map (fun kv : bytes * bytes => key_seq kv.1) (log_entries 1 (map snd ws))
     = map Ok (seqZ 1 N).
Proof.
  intros N Hoff Hsize Hfresh Hne HN Hw.
  destruct (Writes_suffix ws [] 0%nat h h' t t' Hne Hsize
              ltac:(cbn [length]; lia) ltac:(reflexivity) Hfresh Hw)
    as (k & _ & _ & Hk & Hb & Hlook & _ & Hlast & _ & Hname & _).
  rewrite (Hk Hoff) in Hb. cbn [app] in Hb, Hlast.
  rewrite length_map in Hb, Hlast. rewrite drop_0 in Hb.
  split; [rewrite <- Hname, Hlook, Hb; reflexivity|].
  split; [exact Hlast|].
  rewrite log_entries_key_seq by (rewrite ?length_map; lia).
  rewrite length_map. reflexivity.
Qed.

(** ** Replay of a log that [Write] produced *)

Lemma after_fromID_log_entries (fromID : string) (pre post : list Update.t)
  (u : Update.t) :
  forall seq : Z,
    Forall (fun x => Update.ID x <> fromID) pre ->
    Update.ID u = fromID ->
    after_fromID fromID (log_entries seq (pre ++ u :: post))
    = log_entries (seq + Z.of_nat (length pre) + 1) post.
Proof.
  induction pre as [|x pre IH]; intros seq Hpre Hu.
  - cbn [app log_entries after_fromID length Z.of_nat].
    rewrite drop_app_length' by reflexivity.
    rewrite string_of_bytes_of_string, Hu, String.eqb_refl.
    f_equal. lia.
  - apply Forall_cons in Hpre. destruct Hpre as [Hx Hpre].
    cbn [app log_entries after_fromID length].
    rewrite drop_app_length' by reflexivity.
    rewrite string_of_bytes_of_string.
    destruct (String.eqb_spec (Update.ID x) fromID); [contradiction|].
    rewrite IH by assumption. f_equal. lia.
Qed.

Lemma up_to_watermark_log_entries (toSeq : Z) (us : list Update.t) :
  forall seq : Z,
    0 <= seq -> seq + Z.of_nat (length us) <= toSeq + 1 -> toSeq < 2 ^ 64 ->
    up_to_watermark toSeq (log_entries seq us) = log_entries seq us.
Proof.
  induction us as [|x us IH]; intros seq H0 Hle Hmax; [reflexivity|].
  cbn [log_entries up_to_watermark length] in *.
  rewrite Uint64_take_PutUint64 by lia.
  destruct (Z.leb_spec toSeq seq) as [Hstop|Hgo].
  - destruct us; [reflexivity|cbn [length] in Hle; lia].
  - rewrite IH by lia. reflexivity.
Qed.

Lemma decode_all_log_entries (us : list Update.t) :
  forall seq : Z,
    Forall (fun x => exists js, json_Marshal x = Some js /\ json_Unmarshal js = Some x)
      us ->
    decode_all (log_entries seq us) = Some us.
Proof.
  induction us as [|x us IH]; intros seq Hus; [reflexivity|].
  apply Forall_cons in Hus. destruct Hus as [(js & Hm & Hu) Hus].
  cbn [log_entries decode_all]. rewrite Hm. cbn [default from_option id].
  rewrite Hu, IH by exact Hus. reflexivity.
Qed.

Lemma log_entries_key_length (us : list Update.t) :
  forall seq : Z,
    Forall (fun kv : bytes * bytes => (8 <= length kv.1)%nat) (log_entries seq us).
Proof.
  induction us as [|x us IH]; intros seq; cbn [log_entries]; constructor.
  - cbn [fst]. rewrite length_app, PutUint64_length. lia.
  - apply IH.
Qed.

(** X6: [Write], [CreatePipe] and [fetch] compose into the resume
    guarantee. After N successful writes to a new bucket, a subscriber that
    reconnects with the ID of one of the updates still retained (any of them
    when retention is disabled, else one of the last [size]) gets a new pipe
    and a replay task whose watermark is N; run on that log, the task hands
    to the pipe exactly the updates written after that one, in the order
    written, and leaves the pipe open. *)
Theorem reconnect_replays_later_writes (h h1 : heap) (t t1 : BoltTransport.t)
  (ws : list (Q * Update.t)) (pre post : list Update.t) (u : Update.t) :
  let N := Z.of_nat (length ws) in
  let size := BoltTransport.size t in
  let new := NewPipe (BoltTransport.bufferSize t) (BoltTransport.bufferFullTimeout t) in
  0 <= size -> N < 2 ^ 64 ->
  bucket_of t = Bucket.mk 0 [] ->
  Writes h t ws = Some (h1, t1) ->
  map snd ws = pre ++ u :: post ->
  size = 0 \/ (BoltTransport.cleanupFrequency t == 0)%Q
  \/ N - size <= Z.of_nat (length pre) ->
  Forall (fun x => Update.ID x <> Update.ID u) pre ->
  Update.ID u <> EmptyString ->
  Forall (fun x => exists js, json_Marshal x = Some js /\ json_Unmarshal js = Some x)
    post ->
  (length post <= BoltTransport.bufferSize t)%nat ->
  exists pipe h2 t2 p,
    CreatePipe h1 t1 (Update.ID u)
    = (h2, t2, Some pipe, None, Some (mkFetchTask (Update.ID u) N pipe))
    /\ h2 !! pipe = Some new
    /\ fetch t2 (Update.ID u) N new = Ok (p, None)
    /\ Pipe.updates p = post
    /\ Pipe.closed p = false.
Proof.
  intros N size new Hsize HN Hfresh Hw Hus Hkept Hpre Hid Hcodec Hroom.
  assert (ws <> []) as Hne by (intros ->; destruct pre; discriminate Hus).
  destruct (Writes_suffix ws [] 0%nat h h1 t t1 Hne Hsize
              ltac:(cbn [length]; lia) ltac:(reflexivity) Hfresh Hw)
    as (k & Hk & Hbound & Hoff & Hb & Hlook & Hopen & Hlast & Hdone & Hname
        & Hbs & Hbt).
  cbn [app] in Hk, Hbound, Hb, Hlast.
  rewrite length_map in Hk, Hbound, Hb, Hlast. fold N size in Hbound, Hb, Hlast.
  cbn [Z.of_nat] in Hbound.
  assert (N = Z.of_nat (length pre) + 1 + Z.of_nat (length post)) as HNlen.
  { unfold N. rewrite <- (length_map snd ws), Hus, length_app. cbn [length]. lia. }
  assert (k <= length pre)%nat as Hkpre.
  { destruct Hkept as [H0|[H0|H0]].
    - rewrite Hoff by (left; exact H0). lia.
    - rewrite Hoff by (right; exact H0). lia.
    - lia. }
  rewrite Hus, drop_app_le in Hb by exact Hkpre.
  set (b := bucket_of t1) in *.
  assert (after_fromID (Update.ID u) (Cursor b)
          = log_entries (Z.of_nat (length pre) + 2) post) as Hafter.
  { rewrite Hb. unfold Cursor. cbn [Bucket.inodes].
    rewrite after_fromID_log_entries;
      [|apply Forall_drop; exact Hpre|reflexivity].
    rewrite length_drop. f_equal. lia. }
  rewrite CreatePipe_open by assumption. cbv zeta.
  eexists _, _, _, _.
  split; [rewrite Hlast; reflexivity|].
  split; [rewrite lookup_insert_eq, Hbs, Hbt; reflexivity|].
  split; [|split].
  - apply (fetch_replays _ _ _ b).
    + exact Hopen.
    + exact Hlook.
    + rewrite Hb. unfold Cursor. cbn [Bucket.inodes]. apply log_entries_key_length.
    + rewrite Hafter.
      assert ((0 <? N) = true) as -> by lia.
      rewrite up_to_watermark_log_entries by lia.
      apply decode_all_log_entries. exact Hcodec.
  - rewrite deliver_updates; [reflexivity|reflexivity|].
    unfold new. cbn [NewPipe Pipe.updates Pipe.capacity length]. lia.
  - rewrite deliver_closed. reflexivity.
Qed.

(** ** The fan-out of [Write] *)

Lemma fanout_Ok (u : Update.t) (ls : list loc) :
  forall (h h' : heap) (ps ps' : gset loc),
    NoDup ls ->
    fanout u ls h ps = Ok (h', ps') ->
    forall pipe,
      (pipe ∈ ls ->
       exists p, h !! pipe = Some p
                 /\ h' !! pipe = Some (Pipe_Write p u).1
                 /\ (pipe ∈ ps' <-> pipe ∈ ps /\ (Pipe_Write p u).2 = true))
      /\ (pipe ∉ ls -> h' !! pipe = h !! pipe /\ (pipe ∈ ps' <-> pipe ∈ ps)).
Proof.
  induction ls as [|l ls IH]; intros h h' ps ps' Hnd Hf pipe; cbn [fanout] in Hf.
  - injection Hf as <- <-. split.
    + intros Hin. apply elem_of_nil in Hin. destruct Hin.
    + intros _. split; reflexivity.
  - apply NoDup_cons in Hnd. destruct Hnd as [Hnin Hnd].
    destruct (h !! l) as [p|] eqn:Hl; [|discriminate].
    destruct (Pipe_Write p u) as [p' ok] eqn:Hpw.
    destruct (IH _ _ _ _ Hnd Hf pipe) as [IHin IHout].
    destruct (decide (pipe = l)) as [->|Hne].
    + destruct (IHout Hnin) as [Hh' Hps'].
      rewrite lookup_insert_eq in Hh'.
      split; [|intros Hn; exfalso; apply Hn; left].
      intros _. exists p. rewrite Hpw. cbn [fst snd].
      split; [exact Hl|]. split; [exact Hh'|].
      rewrite Hps'. destruct ok.
      * split; [intros H; split; [exact H|reflexivity]|intros [H _]; exact H].
      * split; [intros H; apply elem_of_difference in H as [_ H];
                exfalso; apply H; apply elem_of_singleton; reflexivity
               |intros [_ H]; discriminate].
    + assert (pipe ∈ (if ok then ps else ps ∖ {[l]}) <-> pipe ∈ ps) as Hsame.
      { destruct ok; [reflexivity|]. rewrite elem_of_difference, elem_of_singleton.
        split; [intros [H _]; exact H|intros H; split; [exact H|exact Hne]]. }
      split.
      * intros Hin. apply elem_of_cons in Hin. destruct Hin as [->|Hin]; [contradiction|].
        destruct (IHin Hin) as (q & Hq & Hq' & Hps').
        rewrite lookup_insert_ne in Hq by congruence.
        exists q. split; [exact Hq|]. split; [exact Hq'|].
        rewrite Hps', Hsame. reflexivity.
      * intros Hn. rewrite not_elem_of_cons in Hn. destruct Hn as [_ Hn].
        destruct (IHout Hn) as [Hh' Hps'].
        rewrite lookup_insert_ne in Hh' by congruence.
        split; [exact Hh'|]. rewrite Hps', Hsame. reflexivity.
Qed.

(** What a successful [Write] did to a pipe, attached or not. *)
Lemma Write_fanout (h h' : heap) (t t' : BoltTransport.t)
  (r : Q) (u : Update.t) (pipe : loc) :
  Write h t r u = Ok (h', t', None) ->
  (pipe ∈ BoltTransport.pipes t ->
   exists p, h !! pipe = Some p
             /\ h' !! pipe = Some (Pipe_Write p u).1
             /\ (pipe ∈ BoltTransport.pipes t' <-> (Pipe_Write p u).2 = true))
  /\ (pipe ∉ BoltTransport.pipes t ->
      h' !! pipe = h !! pipe /\ pipe ∉ BoltTransport.pipes t').
Proof.
  intros Hw. apply Write_Ok in Hw.
  destruct Hw as (_ & js & t1 & ps & _ & Hp & Hf & ->).
  apply persist_Ok in Hp. cbv zeta in Hp.
  destruct Hp as (_ & _ & _ & _ & _ & _ & _ & _ & _ & _ & Hpipes & _).
  rewrite Hpipes in Hf.
  destruct (fanout_Ok u _ _ _ _ _ (NoDup_elements _) Hf pipe) as [Hin Hout].
  cbn [set_pipes BoltTransport.pipes]. split.
  - intros Hp. destruct (Hin ltac:(apply elem_of_elements; exact Hp))
      as (p & Hh & Hh' & Hps).
    exists p. split; [exact Hh|]. split; [exact Hh'|].
    rewrite Hps. split; [intros [_ H]; exact H|intros H; split; [exact Hp|exact H]].
  - intros Hp. destruct Hout as [Hh' Hps].
    + rewrite elem_of_elements. exact Hp.
    + split; [exact Hh'|]. rewrite Hps. exact Hp.
Qed.

(** X7: a [Write] that returns [nil] has offered the update to every
    attached pipe, once, and to no other; a pipe stays attached exactly when
    its [Write] accepted the update, and no pipe is ever attached by
    [Write]. *)
Theorem Write_offers_update_to_every_pipe (h h' : heap) (t t' : BoltTransport.t)
  (r : Q) (u : Update.t) :
  Write h t r u = Ok (h', t', None) ->
  BoltTransport.pipes t' ⊆ BoltTransport.pipes t
  /\ forall pipe,
      (pipe ∈ BoltTransport.pipes t ->
       exists p, h !! pipe = Some p
                 /\ h' !! pipe = Some (Pipe_Write p u).1
                 /\ (pipe ∈ BoltTransport.pipes t' <-> (Pipe_Write p u).2 = true))
      /\ (pipe ∉ BoltTransport.pipes t ->
          h' !! pipe = h !! pipe /\ pipe ∉ BoltTransport.pipes t').
Proof.
  intros Hw. split.
  - intros pipe Hin. destruct (decide (pipe ∈ BoltTransport.pipes t)) as [Hold|Hnew];
      [exact Hold|].
    destruct (proj2 (Write_fanout h h' t t' r u pipe Hw) Hnew) as [_ Hout].
    contradiction.
  - intros pipe. exact (Write_fanout h h' t t' r u pipe Hw).
Qed.

(** X8: a storage transaction that fails does not use up its sequence
    number. [lastSeq] already holds the number [NextSequence] returned, but
    the rollback restores the bucket's counter, so the next write that
    succeeds is stored under that same number: [lastSeq] can run ahead of
    the log by one and never by more. On a closed database nothing is
    touched at all. *)
Theorem failed_persist_reuses_sequence (t t1 : BoltTransport.t) (r : Q)
  (updateID : string) (updateJSON : bytes) (err : error) :
  persist t r updateID updateJSON = Ok (t1, Some err) ->
  let seq := (Bucket.sequence (bucket_of t) + 1) mod 2 ^ 64 in
  (DB.opened (BoltTransport.db t) = false -> t1 = t /\ err = ErrDatabaseNotOpen)
  /\ (DB.opened (BoltTransport.db t) = true ->
      t1 = set_lastSeq t seq
      /\ (err = ErrPut \/ err = ErrDelete)
      /\ forall r' updateID' updateJSON' t2,
          persist t1 r' updateID' updateJSON' = Ok (t2, None) ->
          BoltTransport.lastSeq t2 = seq
          /\ exists n,
              Bucket.inodes (bucket_of t2)
              = put_inode (PutUint64 seq ++ bytes_of_string updateID') updateJSON'
                  (drop n (Bucket.inodes (bucket_of t)))).
Proof.
  intros Hp seq. unfold persist in Hp.
  destruct (DB.opened (BoltTransport.db t)) eqn:Hopen.
  - split; [discriminate|]. intros _.
    assert (t1 = set_lastSeq t seq /\ (err = ErrPut \/ err = ErrDelete)) as [-> Herr].
    { unfold persist_tx, CreateBucketIfNotExists, NextSequence, bucket_of in *.
      destruct (DB.buckets (BoltTransport.db t) !! BoltTransport.bucketName t)
        as [b0|]; cbn [default from_option id Bucket.sequence Bucket.inodes] in *;
        fold seq in Hp |- *.
      - destruct (cleanup t r _ seq) as [[b2 [e|]]|] eqn:Hc; try discriminate.
        + injection Hp as <- <-. split; [reflexivity|]. right.
          unfold cleanup in Hc. destruct (cleanup_skips _ _ _ _); [discriminate|].
          clear -Hc. unfold Cursor in Hc.
          revert Hc. generalize (Bucket.mk seq (Bucket.inodes b0)) at 2.
          generalize (Bucket.inodes (Bucket.mk seq (Bucket.inodes b0))).
          intros c. induction c as [|[k v] c IH]; intros b; cbn [cleanup_loop];
            [discriminate|].
          destruct (key_seq k); [|discriminate].
          destruct (_ <? _); [discriminate|].
          unfold Delete at 1. destruct (Delete_fails k).
          * intros [= _ <-]. reflexivity.
          * apply IH.
        + unfold Put in Hp. destruct (Put_fails _ _); [|discriminate].
          injection Hp as <- <-. split; [reflexivity|]. left. reflexivity.
      - destruct (cleanup t r _ seq) as [[b2 [e|]]|] eqn:Hc; try discriminate.
        + injection Hp as <- <-. split; [reflexivity|]. right.
          unfold cleanup in Hc. destruct (cleanup_skips _ _ _ _); discriminate.
        + unfold Put in Hp. destruct (Put_fails _ _); [|discriminate].
          injection Hp as <- <-. split; [reflexivity|]. left. reflexivity. }
    split; [reflexivity|]. split; [exact Herr|].
    intros r' updateID' updateJSON' t2 Hp2.
    apply persist_Ok in Hp2. cbv zeta in Hp2.
    destruct Hp2 as (b2 & Hc & _ & Hb & _ & _ & Hlast & _).
    change (bucket_of (set_lastSeq t seq)) with (bucket_of t) in *.
    fold seq in Hc, Hb, Hlast.
    split; [exact Hlast|].
    apply cleanup_Ok_suffix in Hc. cbn [Bucket.sequence Bucket.inodes] in Hc.
    destruct Hc as [_ [n Hn]]. exists n. rewrite Hb, Hn. reflexivity.
  - injection Hp as <- <-. split; [|discriminate]. intros _. split; reflexivity.
Qed.

(** ** Authorization and the growth of the match cache *)

(** X9: [IsAuthorized] holds exactly when the subscriber may see every
    target, or the update is public (no target), or the subscriber and the
    update have a target in common. *)
Theorem IsAuthorized_iff (s : Subscriber.t) (u : Update.t) :
  IsAuthorized s u = true
  <-> Subscriber.AllTargets s = true
      \/ Update.Targets u = ∅
      \/ exists t, t ∈ Subscriber.Targets s /\ t ∈ Update.Targets u.
Proof.
  unfold IsAuthorized.
  destruct (Subscriber.AllTargets s); cbn [orb].
  { split; [intros _; left; reflexivity|reflexivity]. }
  destruct (bool_decide_reflect (Update.Targets u = ∅)) as [Hempty|Hne].
  { split; [intros _; right; left; exact Hempty|reflexivity]. }
  rewrite existsb_exists. split.
  - intros (t & Hin & Ht). right. right. exists t.
    apply list_elem_of_In, elem_of_elements in Hin.
    apply bool_decide_eq_true in Ht. split; assumption.
  - intros [Hall|[Hempty|(t & Hs & Hu)]]; [discriminate|contradiction|].
    exists t. split.
    + apply list_elem_of_In, elem_of_elements. exact Hs.
    + apply bool_decide_eq_true. exact Hu.
Qed.

Lemma IsSubscribed_loop_grows (raw tmpl topics : list string) :
  forall (cache cache' : gmap string bool) (b : bool),
    IsSubscribed_loop raw tmpl topics cache = (b, cache') ->
    (forall ut c, cache !! ut = Some c -> cache' !! ut = Some c)
    /\ (forall ut, is_Some (cache' !! ut) -> is_Some (cache !! ut) \/ ut ∈ topics).
Proof.
  induction topics as [|t topics IH]; intros cache cache' b Hl; cbn [IsSubscribed_loop] in Hl.
  - injection Hl as <- <-. split; [intros ut c H; exact H|intros ut H; left; exact H].
  - destruct (cache !! t) as [[|]|] eqn:Ht.
    + injection Hl as <- <-. split; [intros ut c H; exact H|intros ut H; left; exact H].
    + destruct (IH _ _ _ Hl) as [Hkeep Hnew]. split; [exact Hkeep|].
      intros ut H. destruct (Hnew ut H) as [H'|H']; [left; exact H'|right; right; exact H'].
    + assert (forall c0 : bool,
                 (forall ut c, cache !! ut = Some c -> <[t := c0]> cache !! ut = Some c)
                 /\ (forall ut, is_Some (<[t := c0]> cache !! ut) ->
                                is_Some (cache !! ut) \/ ut ∈ t :: topics)) as Hins.
      { intros c0. split.
        - intros ut c H. destruct (decide (ut = t)) as [->|Hne]; [congruence|].
          rewrite lookup_insert_ne by congruence. exact H.
        - intros ut H. destruct (decide (ut = t)) as [->|Hne]; [right; left|].
          rewrite lookup_insert_ne in H by congruence. left. exact H. }
      destruct (existsb _ raw); [injection Hl as <- <-; apply Hins|].
      destruct (existsb _ tmpl); [injection Hl as <- <-; apply Hins|].
      destruct (IH _ _ _ Hl) as [Hkeep Hnew]. split.
      * intros ut c H. apply Hkeep. apply (Hins false). exact H.
      * intros ut H. destruct (Hnew ut H) as [H'|H']; [|right; right; exact H'].
        destruct (decide (ut = t)) as [->|Hne]; [right; left|].
        rewrite lookup_insert_ne in H' by congruence. left. exact H'.
Qed.

Lemma IsSubscribed_loop_again (raw tmpl topics : list string) :
  forall (cache cache' : gmap string bool) (b : bool),
    IsSubscribed_loop raw tmpl topics cache = (b, cache') ->
    IsSubscribed_loop raw tmpl topics cache' = (b, cache').
Proof.
  induction topics as [|t topics IH]; intros cache cache' b Hl;
    cbn [IsSubscribed_loop] in Hl |- *.
  - injection Hl as <- <-. reflexivity.
  - destruct (cache !! t) as [[|]|] eqn:Ht.
    + injection Hl as <- <-. rewrite Ht. reflexivity.
    + destruct (IsSubscribed_loop_grows _ _ _ _ _ _ Hl) as [Hkeep _].
      rewrite (Hkeep t false Ht). exact (IH _ _ _ Hl).
    + destruct (existsb _ raw);
        [injection Hl as <- <-; rewrite lookup_insert_eq; reflexivity|].
      destruct (existsb _ tmpl);
        [injection Hl as <- <-; rewrite lookup_insert_eq; reflexivity|].
      destruct (IsSubscribed_loop_grows _ _ _ _ _ _ Hl) as [Hkeep _].
      rewrite (Hkeep t false) by apply lookup_insert_eq.
      exact (IH _ _ _ Hl).
Qed.

(** X10: a call of [IsSubscribed] only adds to the match cache: no entry
    is overwritten or removed, the new keys are topics of the update, and
    nothing else of the subscriber changes; asked again about the same
    update, it gives the same answer from the cache and changes nothing. *)
Theorem match_cache_only_grows (s : Subscriber.t) (u : Update.t) :
  let b := (IsSubscribed s u).1 in
  let s' := (IsSubscribed s u).2 in
  (forall ut c, Subscriber.matchCache s !! ut = Some c ->
                Subscriber.matchCache s' !! ut = Some c)
  /\ (forall ut, is_Some (Subscriber.matchCache s' !! ut) ->
                 is_Some (Subscriber.matchCache s !! ut) \/ ut ∈ Update.Topics u)
  /\ s' = set_matchCache s (Subscriber.matchCache s')
  /\ IsSubscribed s' u = (b, s').
Proof.
  intros b s'. subst b s'. unfold IsSubscribed.
  destruct (IsSubscribed_loop _ _ _ (Subscriber.matchCache s)) as [b cache] eqn:Hl.
  cbn [fst snd].
  destruct (IsSubscribed_loop_grows _ _ _ _ _ _ Hl) as [Hkeep Hnew].
  split; [exact Hkeep|]. split; [exact Hnew|]. split; [reflexivity|].
  cbn [set_matchCache Subscriber.RawTopics Subscriber.TemplateTopics
       Subscriber.matchCache].
  rewrite (IsSubscribed_loop_again _ _ _ _ _ _ Hl). reflexivity.
Qed.

(** ** The pump as a queue *)

Lemma dispatchableb_true (s : Subscriber.t) (u : Update.t) :
  dispatchableb s u = true <-> dispatchable s u.
Proof. unfold dispatchableb, dispatchable. apply andb_true_iff. Qed.

(** What the arrival of an update does to a pump that listens on the
    source it arrives on: it is appended to that source's buffer if it is
    dispatchable and dropped if not. *)
Lemma CanDispatch_pump (s0 s : Subscriber.t) (u : Update.t) :
  pump_inv s0 s ->
  exists s1,
    CanDispatch s u = (dispatchableb s0 u, s1)
    /\ pump_inv s0 s1
    /\ Subscriber.HistorySrc s1 = Subscriber.HistorySrc s
    /\ Subscriber.LiveSrc s1 = Subscriber.LiveSrc s.
Proof using Template_Match.
  intros Hinv.
  destruct (CanDispatch_spec s0 s u Hinv) as (Hinv1 & Hh & Hl & Hok).
  destruct (CanDispatch s u) as [ok s1]. cbn [fst snd] in *.
  exists s1. split; [|split; [exact Hinv1|split; assumption]].
  f_equal. rewrite <- dispatchableb_true in Hok.
  destruct ok, (dispatchableb s0 u); try reflexivity.
  - symmetry. apply Hok. reflexivity.
  - apply Hok. reflexivity.
Qed.

(** X11: the pump ends only on a disconnect signal, and it does end on
    the first one: a run leaves no pump behind exactly when its schedule
    holds a [ClientDisconnect] or a [ServerDisconnect]. In particular no
    schedule makes the pump slice an empty buffer. *)
Theorem pump_stops_only_on_disconnect (s : Subscriber.t) (evs : list event) :
  (start s evs).2 = None
  <-> ClientDisconnect ∈ evs \/ ServerDisconnect ∈ evs.
Proof.
  revert s. induction evs as [|e evs IH]; intros s; cbn [start].
  - cbn [snd]. split; [discriminate|].
    intros [H|H]; apply elem_of_nil in H; destruct H.
  - rewrite !elem_of_cons.
    pose proof (select_never_panics s e) as Hnp.
    destruct (select s e) as [| |s1 sent|] eqn:Hsel; [| | |contradiction].
    + cbn [snd]. split; [intros _|reflexivity].
      destruct e as [| |u| |u|]; cbn [select] in Hsel.
      * left. left. reflexivity.
      * right. left. reflexivity.
      * destruct (updateSrc.In _); [|discriminate].
        destruct (CanDispatch s u) as [[|] s']; discriminate.
      * destruct (updateSrc.In _); discriminate.
      * destruct (updateSrc.In _); [|discriminate].
        destruct (CanDispatch s u) as [[|] s']; discriminate.
      * destruct (outChan s); [|discriminate].
        destruct (_ <? _)%nat; [discriminate|].
        destruct (updateSrc.buffer (Subscriber.LiveSrc s)); discriminate.
    + rewrite IH. destruct e; try discriminate Hsel;
        (split; [intros [H|H]; [left|right]; right; exact H
                |intros [[H|H]|[H|H]]; try discriminate H;
                 [left; exact H|right; exact H]]).
    + specialize (IH s1). destruct (start s1 evs) as [out final]. cbn [snd] in *.
      rewrite IH. destruct e; try discriminate Hsel;
        (split; [intros [H|H]; [left|right]; right; exact H
                |intros [[H|H]|[H|H]]; try discriminate H;
                 [left; exact H|right; exact H]]).
Qed.

(** Once the history source is closed the pump is a lossless queue: the
    history buffer is flushed first, then the live buffer. *)
Lemma start_closed_history (s0 : Subscriber.t) (evs : list event) :
  forall (s s' : Subscriber.t) (out : list (option Update.t)),
    pump_inv s0 s ->
    updateSrc.In (Subscriber.HistorySrc s) = false ->
    updateSrc.In (Subscriber.LiveSrc s) = true ->
    start s evs = (out, Some s') ->
    out ++ map Some (updateSrc.buffer (Subscriber.HistorySrc s')
                     ++ updateSrc.buffer (Subscriber.LiveSrc s'))
    = map Some (updateSrc.buffer (Subscriber.HistorySrc s)
                ++ updateSrc.buffer (Subscriber.LiveSrc s)
                ++ List.filter (dispatchableb s0) (live_updates evs))
    /\ updateSrc.In (Subscriber.HistorySrc s') = false
    /\ updateSrc.In (Subscriber.LiveSrc s') = true.
Proof using Template_Match.
  induction evs as [|e evs IH]; intros s s' out Hinv Hh Hl Hrun; cbn [start] in Hrun.
  - injection Hrun as <- <-. cbn [live_updates List.filter app].
    rewrite app_nil_r. repeat split; assumption.
  - destruct e as [| |u| |u|]; cbn [select live_updates] in Hrun |- *;
      try discriminate Hrun.
    + rewrite Hh in Hrun. exact (IH _ _ _ Hinv Hh Hl Hrun).
    + rewrite Hh in Hrun. exact (IH _ _ _ Hinv Hh Hl Hrun).
    + rewrite Hl in Hrun.
      destruct (CanDispatch_pump s0 s u Hinv) as (s1 & Hcd & Hinv1 & Hh1 & Hl1).
      rewrite Hcd in Hrun. cbn [List.filter].
      destruct (dispatchableb s0 u).
      * destruct (start _ evs) as [out1 final] eqn:Hrun1.
        injection Hrun as <- ->.
        apply IH in Hrun1.
        -- revert Hrun1. subscriber_fields. rewrite Hh1, Hl1.
           rewrite <- !app_assoc. cbn [app]. intros H. exact H.
        -- destruct Hinv1 as (Hsame1 & Hc1 & Hhb1 & Hlb1).
           unfold pump_inv. subscriber_fields.
           split; [exact Hsame1|split; [exact Hc1|split; [exact Hhb1|]]].
           apply Forall_app_2; [exact Hlb1|]. constructor; [|constructor].
           destruct (CanDispatch_spec s0 s u Hinv) as (_ & _ & _ & Hok).
           apply Hok. rewrite Hcd. reflexivity.
        -- subscriber_fields. rewrite Hh1. exact Hh.
        -- subscriber_fields. rewrite Hl1. exact Hl.
      * destruct (start s1 evs) as [out1 final] eqn:Hrun1.
        injection Hrun as <- ->.
        apply IH in Hrun1; [|exact Hinv1|rewrite Hh1; exact Hh|rewrite Hl1; exact Hl].
        rewrite Hh1, Hl1 in Hrun1. exact Hrun1.
    + unfold outChan, nextUpdate in Hrun. rewrite Hh in Hrun.
      destruct (updateSrc.buffer (Subscriber.HistorySrc s)) as [|uh hist] eqn:Hhist;
        cbn [length Nat.ltb Nat.leb orb] in Hrun.
      * destruct (updateSrc.buffer (Subscriber.LiveSrc s)) as [|ul live] eqn:Hlive;
          cbn [length Nat.ltb Nat.leb orb] in Hrun.
        -- pose proof (IH _ _ _ Hinv Hh Hl Hrun) as H.
           rewrite Hhist, Hlive in H. exact H.
        -- destruct (start _ evs) as [out1 final] eqn:Hrun1.
           injection Hrun as <- ->.
           apply IH in Hrun1.
           ++ revert Hrun1. subscriber_fields. rewrite Hhist. cbn [app map].
              intros (Hq & Hh' & Hl'). rewrite Hq. repeat split; assumption.
           ++ destruct Hinv as (Hsame & Hc & Hhb & Hlb).
              unfold pump_inv. subscriber_fields. rewrite Hhist.
              split; [exact Hsame|split; [exact Hc|split; [constructor|]]].
              rewrite Hlive in Hlb. apply Forall_cons in Hlb. apply Hlb.
           ++ subscriber_fields. first [exact Hh|reflexivity].
           ++ subscriber_fields. first [exact Hl|reflexivity].
      * rewrite orb_true_r in Hrun.
        destruct (start _ evs) as [out1 final] eqn:Hrun1.
        injection Hrun as <- ->.
        apply IH in Hrun1.
        -- revert Hrun1. subscriber_fields. cbn [drop app map].
           intros (Hq & Hh' & Hl'). rewrite Hq. repeat split; assumption.
        -- destruct Hinv as (Hsame & Hc & Hhb & Hlb).
           unfold pump_inv. subscriber_fields. cbn [drop].
           split; [exact Hsame|split; [exact Hc|split; [|exact Hlb]]].
           rewrite Hhist in Hhb. apply Forall_cons in Hhb. apply Hhb.
        -- subscriber_fields. first [exact Hh|reflexivity].
        -- subscriber_fields. first [exact Hl|reflexivity].
Qed.

(** While the history source is open the pump serves the history buffer;
    a [nil] pointer goes out for each update it takes off the live
    buffer. *)
Lemma start_open_history (s0 : Subscriber.t) (evs : list event) :
  forall (s s' : Subscriber.t) (out : list (option Update.t)),
    pump_inv s0 s ->
    updateSrc.In (Subscriber.HistorySrc s) = true ->
    updateSrc.In (Subscriber.LiveSrc s) = true ->
    HistoryClosed ∉ evs ->
    start s evs = (out, Some s') ->
    sent_updates out ++ updateSrc.buffer (Subscriber.HistorySrc s')
    = updateSrc.buffer (Subscriber.HistorySrc s)
      ++ List.filter (dispatchableb s0) (history_updates evs)
    /\ (exists lost,
           length lost = sent_nils out
           /\ updateSrc.buffer (Subscriber.LiveSrc s)
              ++ List.filter (dispatchableb s0) (live_updates evs)
              = lost ++ updateSrc.buffer (Subscriber.LiveSrc s'))
    /\ updateSrc.In (Subscriber.HistorySrc s') = true
    /\ updateSrc.In (Subscriber.LiveSrc s') = true.
Proof using Template_Match.
  induction evs as [|e evs IH]; intros s s' out Hinv Hh Hl Hopen Hrun;
    cbn [start] in Hrun.
  - injection Hrun as <- <-.
    cbn [live_updates history_updates List.filter app sent_updates sent_nils].
    rewrite !app_nil_r. split; [reflexivity|]. split; [|split; assumption].
    exists []. split; reflexivity.
  - apply not_elem_of_cons in Hopen. destruct Hopen as [Hne Hopen].
    destruct e as [| |u| |u|];
      cbn [select live_updates history_updates] in Hrun |- *;
      try discriminate Hrun; [| contradiction Hne; reflexivity | |].
    + rewrite Hh in Hrun.
      destruct (CanDispatch_pump s0 s u Hinv) as (s1 & Hcd & Hinv1 & Hh1 & Hl1).
      rewrite Hcd in Hrun. cbn [List.filter].
      destruct (dispatchableb s0 u) eqn:Hu.
      * destruct (start _ evs) as [out1 final] eqn:Hrun1.
        injection Hrun as <- ->.
        apply IH in Hrun1.
        -- revert Hrun1. subscriber_fields. rewrite Hh1, Hl1.
           rewrite <- !app_assoc. cbn [app]. intros H. exact H.
        -- destruct Hinv1 as (Hsame1 & Hc1 & Hhb1 & Hlb1).
           unfold pump_inv. subscriber_fields.
           split; [exact Hsame1|split; [exact Hc1|split; [|exact Hlb1]]].
           apply Forall_app_2; [exact Hhb1|]. constructor; [|constructor].
           apply dispatchableb_true. exact Hu.
        -- subscriber_fields. rewrite Hh1. exact Hh.
        -- subscriber_fields. rewrite Hl1. exact Hl.
        -- exact Hopen.
      * destruct (start s1 evs) as [out1 final] eqn:Hrun1.
        injection Hrun as <- ->.
        apply IH in Hrun1;
          [|exact Hinv1|rewrite Hh1; exact Hh|rewrite Hl1; exact Hl|exact Hopen].
        rewrite Hh1, Hl1 in Hrun1. exact Hrun1.
    + rewrite Hl in Hrun.
      destruct (CanDispatch_pump s0 s u Hinv) as (s1 & Hcd & Hinv1 & Hh1 & Hl1).
      rewrite Hcd in Hrun. cbn [List.filter].
      destruct (dispatchableb s0 u) eqn:Hu.
      * destruct (start _ evs) as [out1 final] eqn:Hrun1.
        injection Hrun as <- ->.
        apply IH in Hrun1.
        -- revert Hrun1. subscriber_fields. rewrite Hh1, Hl1.
           rewrite <- !app_assoc. cbn [app]. intros H. exact H.
        -- destruct Hinv1 as (Hsame1 & Hc1 & Hhb1 & Hlb1).
           unfold pump_inv. subscriber_fields.
           split; [exact Hsame1|split; [exact Hc1|split; [exact Hhb1|]]].
           apply Forall_app_2; [exact Hlb1|]. constructor; [|constructor].
           apply dispatchableb_true. exact Hu.
        -- subscriber_fields. rewrite Hh1. exact Hh.
        -- subscriber_fields. rewrite Hl1. exact Hl.
        -- exact Hopen.
      * destruct (start s1 evs) as [out1 final] eqn:Hrun1.
        injection Hrun as <- ->.
        apply IH in Hrun1;
          [|exact Hinv1|rewrite Hh1; exact Hh|rewrite Hl1; exact Hl|exact Hopen].
        rewrite Hh1, Hl1 in Hrun1. exact Hrun1.
    + unfold outChan, nextUpdate in Hrun. rewrite Hh in Hrun. cbn [orb] in Hrun.
      destruct (updateSrc.buffer (Subscriber.HistorySrc s)) as [|uh hist] eqn:Hhist;
        cbn [length Nat.ltb Nat.leb orb] in Hrun.
      * destruct (updateSrc.buffer (Subscriber.LiveSrc s)) as [|ul live] eqn:Hlive;
          cbn [length Nat.ltb Nat.leb orb] in Hrun.
        -- pose proof (IH _ _ _ Hinv Hh Hl Hopen Hrun) as H.
           rewrite Hhist, Hlive in H. exact H.
        -- destruct (start _ evs) as [out1 final] eqn:Hrun1.
           injection Hrun as <- ->.
           apply IH in Hrun1.
           ++ revert Hrun1. subscriber_fields. rewrite Hhist.
              cbn [app sent_updates sent_nils].
              intros (Hq & (lost & Hlen & Hlost) & Hrest).
              split; [exact Hq|]. split; [|exact Hrest].
              exists (ul :: lost). cbn [length app].
              rewrite Hlen, Hlost. split; reflexivity.
           ++ destruct Hinv as (Hsame & Hc & Hhb & Hlb).
              unfold pump_inv. subscriber_fields. rewrite Hhist.
              split; [exact Hsame|split; [exact Hc|split; [constructor|]]].
              rewrite Hlive in Hlb. apply Forall_cons in Hlb. apply Hlb.
           ++ subscriber_fields. first [exact Hh|reflexivity].
           ++ subscriber_fields. first [exact Hl|reflexivity].
           ++ exact Hopen.
      * rewrite orb_true_r in Hrun.
        destruct (start _ evs) as [out1 final] eqn:Hrun1.
        injection Hrun as <- ->.
        apply IH in Hrun1.
        -- revert Hrun1. subscriber_fields.
           cbn [drop app sent_updates sent_nils].
           intros (Hq & Hrest). rewrite Hq. split; [reflexivity|exact Hrest].
        -- destruct Hinv as (Hsame & Hc & Hhb & Hlb).
           unfold pump_inv. subscriber_fields. cbn [drop].
           split; [exact Hsame|split; [exact Hc|split; [|exact Hlb]]].
           rewrite Hhist in Hhb. apply Forall_cons in Hhb. apply Hhb.
        -- subscriber_fields. first [exact Hh|reflexivity].
        -- subscriber_fields. first [exact Hl|reflexivity].
        -- exact Hopen.
Qed.

Lemma start_pump_inv (s0 : Subscriber.t) (evs : list event) :
  forall (s s' : Subscriber.t) (out : list (option Update.t)),
    pump_inv s0 s -> start s evs = (out, Some s') -> pump_inv s0 s'.
Proof using Template_Match.
  induction evs as [|e evs IH]; intros s s' out Hinv Hrun; cbn [start] in Hrun.
  - injection Hrun as _ <-. exact Hinv.
  - destruct (select s e) as [| |s1 sent|] eqn:Hsel; try discriminate.
    + exact (IH _ _ _ Hinv Hrun).
    + destruct (select_inv s0 s s1 e sent Hinv Hsel) as [Hinv1 _].
      destruct (start s1 evs) as [out1 final] eqn:Hrun1.
      injection Hrun as _ ->. exact (IH _ _ _ Hinv1 Hrun1).
Qed.

Lemma start_app (evs1 evs2 : list event) :
  forall s : Subscriber.t,
    start s (evs1 ++ evs2)
    = match start s evs1 with
      | (out1, Some s1) =>
          let '(out2, final) := start s1 evs2 in (out1 ++ out2, final)
      | (out1, None) => (out1, None)
      end.
Proof.
  induction evs1 as [|e evs1 IH]; intros s; cbn [app start].
  - destruct (start s evs2) as [out2 final]. reflexivity.
  - destruct (select s e) as [| |s1 sent|]; [reflexivity| |  |reflexivity].
    + apply IH.
    + rewrite IH. destruct (start s1 evs1) as [out1 [s2|]]; [|reflexivity].
      destruct (start s2 evs2) as [out2 final]. destruct sent; reflexivity.
Qed.

Lemma sent_updates_app (out1 out2 : list (option Update.t)) :
  sent_updates (out1 ++ out2) = sent_updates out1 ++ sent_updates out2.
Proof.
  induction out1 as [|[u|] out1 IH]; cbn [app sent_updates];
    [reflexivity|rewrite IH; reflexivity|exact IH].
Qed.

Lemma sent_nils_app (out1 out2 : list (option Update.t)) :
  sent_nils (out1 ++ out2) = (sent_nils out1 + sent_nils out2)%nat.
Proof.
  induction out1 as [|[u|] out1 IH]; cbn [app sent_nils];
    [reflexivity|exact IH|rewrite IH; reflexivity].
Qed.

Lemma sent_updates_map_Some (us : list Update.t) :
  sent_updates (map Some us) = us /\ sent_nils (map Some us) = 0%nat.
Proof.
  induction us as [|u us [IH1 IH2]]; [split; reflexivity|].
  cbn [map sent_updates sent_nils]. rewrite IH1. split; [reflexivity|exact IH2].
Qed.

(** X12: once the history source is closed the pump is a lossless queue.
    What it has written to [Out], followed by what is left in the history
    buffer and then in the live buffer, is what the two buffers held
    followed by the dispatchable live updates that arrived, in the order of
    arrival: the history buffer is flushed first, nothing is dropped,
    repeated or reordered, and no [nil] pointer is sent. *)
Theorem pump_is_fifo_after_history (s0 s s' : Subscriber.t) (evs : list event)
  (out : list (option Update.t)) :
  pump_inv s0 s ->
  updateSrc.In (Subscriber.HistorySrc s) = false ->
  updateSrc.In (Subscriber.LiveSrc s) = true ->
  start s evs = (out, Some s') ->
  out ++ map Some (updateSrc.buffer (Subscriber.HistorySrc s')
                   ++ updateSrc.buffer (Subscriber.LiveSrc s'))
  = map Some (updateSrc.buffer (Subscriber.HistorySrc s)
              ++ updateSrc.buffer (Subscriber.LiveSrc s)
              ++ List.filter (dispatchableb s0) (live_updates evs))
  /\ sent_nils out = 0%nat
  /\ updateSrc.In (Subscriber.HistorySrc s') = false.
Proof using Template_Match.
  intros Hinv Hh Hl Hrun.
  destruct (start_closed_history s0 evs s s' out Hinv Hh Hl Hrun) as (Hq & Hh' & _).
  split; [exact Hq|]. split; [|exact Hh'].
  apply (f_equal sent_nils) in Hq. rewrite sent_nils_app in Hq.
  rewrite !(proj2 (sent_updates_map_Some _)) in Hq. lia.
Qed.

(** X13: while the history source is open the pump serves the history
    only. The updates it has written to [Out], followed by what is left in
    the history buffer, are the dispatchable history updates in their order
    of arrival; every [nil] pointer it has written stands for one update
    taken off the front of the live buffer, which is lost: the live buffer
    is what it held plus the dispatchable live arrivals, less as many
    leading updates as [nil] pointers were sent. *)
Theorem pump_serves_history_while_open (s0 s s' : Subscriber.t) (evs : list event)
  (out : list (option Update.t)) :
  pump_inv s0 s ->
  updateSrc.In (Subscriber.HistorySrc s) = true ->
  updateSrc.In (Subscriber.LiveSrc s) = true ->
  HistoryClosed ∉ evs ->
  start s evs = (out, Some s') ->
  sent_updates out ++ updateSrc.buffer (Subscriber.HistorySrc s')
  = updateSrc.buffer (Subscriber.HistorySrc s)
    ++ List.filter (dispatchableb s0) (history_updates evs)
  /\ updateSrc.buffer (Subscriber.LiveSrc s')
     = drop (sent_nils out)
         (updateSrc.buffer (Subscriber.LiveSrc s)
          ++ List.filter (dispatchableb s0) (live_updates evs))
  /\ (sent_nils out <= length (updateSrc.buffer (Subscriber.LiveSrc s)
                               ++ List.filter (dispatchableb s0) (live_updates evs)))%nat
  /\ updateSrc.In (Subscriber.HistorySrc s') = true.
Proof using Template_Match.
  intros Hinv Hh Hl Hopen Hrun.
  destruct (start_open_history s0 evs s s' out Hinv Hh Hl Hopen Hrun)
    as (Hhist & (lost & Hlen & Hlost) & Hh' & _).
  split; [exact Hhist|]. rewrite Hlost, <- Hlen.
  split; [rewrite drop_app_length; reflexivity|].
  split; [rewrite length_app; lia|exact Hh'].
Qed.

(** A run through the close of the history source: the open phase, then
    the queue. *)
Lemma start_replay_then_live (s0 s s' : Subscriber.t)
  (evs1 evs2 : list event) (out : list (option Update.t)) :
  pump_inv s0 s ->
  updateSrc.In (Subscriber.HistorySrc s) = true ->
  updateSrc.In (Subscriber.LiveSrc s) = true ->
  HistoryClosed ∉ evs1 ->
  start s (evs1 ++ HistoryClosed :: evs2) = (out, Some s') ->
  sent_updates out
  ++ updateSrc.buffer (Subscriber.HistorySrc s')
  ++ updateSrc.buffer (Subscriber.LiveSrc s')
  = (updateSrc.buffer (Subscriber.HistorySrc s)
     ++ List.filter (dispatchableb s0) (history_updates evs1))
    ++ drop (sent_nils out)
         (updateSrc.buffer (Subscriber.LiveSrc s)
          ++ List.filter (dispatchableb s0) (live_updates evs1))
    ++ List.filter (dispatchableb s0) (live_updates evs2)
  /\ sent_nils out = sent_nils (start s evs1).1
  /\ updateSrc.In (Subscriber.HistorySrc s') = false.
Proof using Template_Match.
  intros Hinv Hh Hl Hopen Hrun. rewrite start_app in Hrun.
  destruct (start s evs1) as [out1 [s1|]] eqn:Hrun1; [|discriminate].
  pose proof (start_pump_inv s0 evs1 s s1 out1 Hinv Hrun1) as Hinv1.
  destruct (start_open_history s0 evs1 s s1 out1 Hinv Hh Hl Hopen Hrun1)
    as (Hhist1 & (lost & Hlen & Hlost) & Hh1 & Hl1).
  cbn [start select] in Hrun. rewrite Hh1 in Hrun.
  destruct (start _ evs2) as [out2 final] eqn:Hrun2.
  injection Hrun as <- ->.
  apply start_closed_history with (s0 := s0) in Hrun2.
  - revert Hrun2. subscriber_fields. intros (Hq & Hh' & _).
    apply (f_equal sent_updates) in Hq as Hqu.
    apply (f_equal sent_nils) in Hq.
    rewrite sent_updates_app in Hqu. rewrite sent_nils_app in Hq.
    rewrite !(proj1 (sent_updates_map_Some _)) in Hqu.
    rewrite !(proj2 (sent_updates_map_Some _)) in Hq.
    rewrite sent_updates_app, sent_nils_app. cbn [fst].
    replace (sent_nils out2) with 0%nat by lia. rewrite Nat.add_0_r.
    split; [|split; [reflexivity|exact Hh']].
    rewrite Hlost, <- Hlen, drop_app_length.
    rewrite <- Hhist1, <- !app_assoc, Hqu. reflexivity.
  - destruct Hinv1 as (Hsame & Hc & Hhb & Hlb).
    unfold pump_inv. subscriber_fields.
    split; [exact Hsame|split; [exact Hc|split; assumption]].
  - reflexivity.
  - subscriber_fields. exact Hl1.
Qed.

Lemma start_drained (evs : list event) :
  forall (s s' : Subscriber.t) (out : list (option Update.t)),
    history_drained s -> start s evs = (out, Some s') -> history_drained s'.
Proof.
  induction evs as [|e evs IH]; intros s s' out Hd Hrun; cbn [start] in Hrun.
  - injection Hrun as _ <-. exact Hd.
  - destruct (select s e) as [| |s1 sent|] eqn:Hsel; try discriminate.
    + exact (IH _ _ _ Hd Hrun).
    + pose proof (history_drained_stable s s1 e sent Hd Hsel) as Hd1.
      destruct (start s1 evs) as [out1 final] eqn:Hrun1.
      injection Hrun as _ ->. exact (IH _ _ _ Hd1 Hrun1).
Qed.

(** X14: the whole life of a pump that replays a history: on a schedule
    [evs1], then the close of the history source, then [evs2], the updates
    written to [Out] followed by what the buffers still hold are, in this
    order, the dispatchable history updates, the dispatchable live updates
    of [evs1] less those lost to a [nil] pointer, and the dispatchable live
    updates of [evs2]. Replayed updates come before live ones, each group
    in its order of arrival, and [nil] pointers are written only before the
    close. *)
Theorem pump_replays_then_goes_live (s0 s s' : Subscriber.t)
  (evs1 evs2 : list event) (out : list (option Update.t)) :
  pump_inv s0 s ->
  updateSrc.In (Subscriber.HistorySrc s) = true ->
  updateSrc.In (Subscriber.LiveSrc s) = true ->
  HistoryClosed ∉ evs1 ->
  start s (evs1 ++ HistoryClosed :: evs2) = (out, Some s') ->
  sent_updates out
  ++ updateSrc.buffer (Subscriber.HistorySrc s')
  ++ updateSrc.buffer (Subscriber.LiveSrc s')
  = (updateSrc.buffer (Subscriber.HistorySrc s)
     ++ List.filter (dispatchableb s0) (history_updates evs1))
    ++ drop (sent_nils out)
         (updateSrc.buffer (Subscriber.LiveSrc s)
          ++ List.filter (dispatchableb s0) (live_updates evs1))
    ++ List.filter (dispatchableb s0) (live_updates evs2)
  /\ sent_nils out = sent_nils (start s evs1).1
  /\ updateSrc.In (Subscriber.HistorySrc s') = false.
Proof using Template_Match.
  exact (start_replay_then_live s0 s s' evs1 evs2 out).
Qed.

(** ** Publishing *)

Lemma union_cons_swap (x : string) (t : list string) (targets : gset string) :
  list_to_set t ∪ ({[x]} ∪ targets) = list_to_set (x :: t) ∪ targets.
Proof.
  cbn [list_to_set].
  rewrite (assoc_L (∪)), (comm_L (∪) (list_to_set t)). reflexivity.
Qed.

Lemma getAuthorizedTargets_loop_spec (all : bool) (auth : gset string) (t : list string) :
  forall targets : gset string,
    match getAuthorizedTargets_loop all auth t targets with
    | inl res =>
        res = list_to_set t ∪ targets
        /\ (all = true \/ Forall (fun x => x ∈ auth) t)
    | inr x =>
        all = false
        /\ exists before after,
            t = before ++ x :: after
            /\ (x ∉ auth)
            /\ Forall (fun y => y ∈ auth) before
    end.
Proof.
  induction t as [|x t IH]; intros targets; cbn [getAuthorizedTargets_loop].
  - split; [cbn [list_to_set]; symmetry; apply (left_id_L ∅ (∪))|]. right. constructor.
  - destruct all; cbn [negb andb].
    + specialize (IH ({[x]} ∪ targets)). cbn [negb andb] in IH.
      destruct (getAuthorizedTargets_loop true auth t _) as [res|y].
      * destruct IH as [-> _]. split; [apply union_cons_swap|].
        left. reflexivity.
      * destruct IH as [[=] _].
    + destruct (bool_decide_reflect (x ∈ auth)) as [Hin|Hnin]; cbn [negb].
      * specialize (IH ({[x]} ∪ targets)).
        destruct (getAuthorizedTargets_loop false auth t _) as [res|y].
        -- destruct IH as [-> [[=]|Hall]].
           split; [apply union_cons_swap|]. right. constructor; assumption.
        -- destruct IH as (_ & before & after & -> & Hy & Hbefore).
           split; [reflexivity|]. exists (x :: before), after.
           split; [reflexivity|]. split; [exact Hy|]. constructor; assumption.
      * split; [reflexivity|]. exists [], t.
        split; [reflexivity|]. split; [exact Hnin|constructor].
Qed.

(** X15: [getAuthorizedTargets] succeeds exactly when the publisher may
    use every target (the all-targets claim) or each requested target is
    among its authorized ones; the set it then returns holds exactly the
    requested targets. When it fails it names the first requested target
    that is not authorized. *)
Theorem getAuthorizedTargets_spec (all : bool) (auth : gset string) (t : list string) :
  (forall res,
      getAuthorizedTargets all auth t = inl res
      <-> (all = true \/ Forall (fun x => x ∈ auth) t) /\ res = list_to_set t)
  /\ (forall x,
        getAuthorizedTargets all auth t = inr x
        <-> all = false
            /\ exists before after,
                t = before ++ x :: after
                /\ (x ∉ auth)
                /\ Forall (fun y => y ∈ auth) before).
Proof.
  unfold getAuthorizedTargets.
  pose proof (getAuthorizedTargets_loop_spec all auth t ∅) as H.
  destruct (getAuthorizedTargets_loop all auth t ∅) as [res0|x0].
  - destruct H as [-> Hok]. split.
    + intros res. split.
      * intros [= <-]. split; [exact Hok|apply (right_id_L ∅ (∪))].
      * intros [_ ->]. f_equal. apply (right_id_L ∅ (∪)).
    + intros x. split; [discriminate|].
      intros (Hall & before & after & -> & Hx & _). exfalso.
      destruct Hok as [Hok|Hok]; [congruence|].
      apply Forall_app in Hok. destruct Hok as [_ Hok].
      apply Forall_cons in Hok. destruct Hok as [Hok _]. contradiction.
  - destruct H as (Hall & before & after & -> & Hx & Hbefore). split.
    + intros res. split; [discriminate|].
      intros [[Hok|Hok] _]; exfalso; [congruence|].
      apply Forall_app in Hok. destruct Hok as [_ Hok].
      apply Forall_cons in Hok. destruct Hok as [Hok _]. contradiction.
    + intros x. split.
      * intros [= <-]. split; [exact Hall|].
        exists before, after. repeat split; assumption.
      * intros (_ & before' & after' & Heq & Hx' & Hbefore'). f_equal.
        clear -Heq Hx Hbefore Hx' Hbefore'.
        revert before' Heq Hbefore'.
        induction before as [|b before IH]; intros [|b' before'] Heq Hbefore';
          cbn [app] in Heq.
        -- injection Heq as ->. reflexivity.
        -- injection Heq as -> _. apply Forall_cons in Hbefore'.
           destruct Hbefore' as [Hb' _]. contradiction.
        -- injection Heq as -> _. apply Forall_cons in Hbefore.
           destruct Hbefore as [Hb _]. contradiction.
        -- injection Heq as -> Heq. apply Forall_cons in Hbefore, Hbefore'.
           apply (IH (proj2 Hbefore) before' Heq (proj2 Hbefore')).
Qed.

(** X16: an update that [dispatch] has stored carries an ID: its own if it
    had one, else the UUID just drawn; nothing else of the update is
    changed, and the key of the entry appended to a sorted log ends with
    that ID, so that the ID the publisher is told can later serve as a
    resume point. *)
Theorem dispatch_assigns_ID (newV4 : option string) (h h' : heap)
  (t t' : BoltTransport.t) (r : Q) (u u' : Update.t) :
  newV4 <> Some EmptyString ->
  sorted_log (bucket_of t) ->
  Bucket.sequence (bucket_of t) + 1 < 2 ^ 64 ->
  dispatch newV4 h t r u = Ok (u', h', t', None) ->
  Update.ID u' <> EmptyString
  /\ (Update.ID u <> EmptyString -> u' = u)
  /\ (Update.ID u = EmptyString -> newV4 = Some (Update.ID u'))
  /\ u' = set_ID u (Update.ID u')
  /\ Write h t r u' = Ok (h', t', None)
  /\ exists kv,
      last (Bucket.inodes (bucket_of t')) = Some kv
      /\ key_id kv.1 = Ok (Update.ID u')
      /\ key_seq kv.1 = Ok (BoltTransport.lastSeq t')
      /\ json_Marshal u' = Some kv.2.
Proof.
  intros Huuid Hsorted Hmax Hd. unfold dispatch in Hd.
  assert (exists u1,
             (if String.eqb (Update.ID u) EmptyString
              then match newV4 with Some id => Ok (set_ID u id) | None => Panic end
              else Ok u) = Ok u1
             /\ Update.ID u1 <> EmptyString
             /\ (Update.ID u <> EmptyString -> u1 = u)
             /\ (Update.ID u = EmptyString -> newV4 = Some (Update.ID u1))
             /\ u1 = set_ID u (Update.ID u1)) as (u1 & Hassign & Hid & Hkeep & Hnew & Hset).
  { destruct (String.eqb_spec (Update.ID u) EmptyString) as [Hempty|Hne].
    - destruct newV4 as [id|]; [|discriminate Hd].
      exists (set_ID u id). split; [reflexivity|]. split; [|split; [|split]].
      + cbn [set_ID Update.ID]. intros ->. apply Huuid. reflexivity.
      + intros H. contradiction.
      + reflexivity.
      + reflexivity.
    - exists u. split; [reflexivity|]. split; [exact Hne|].
      split; [reflexivity|]. split; [intros H; contradiction|].
      destruct u. reflexivity. }
  rewrite Hassign in Hd.
  destruct (Write h t r u1) as [[[h1 t1] e]|] eqn:Hw; [|discriminate].
  injection Hd as <- <- <- ->.
  split; [exact Hid|]. split; [exact Hkeep|]. split; [exact Hnew|].
  split; [exact Hset|]. split; [exact Hw|].
  apply Write_Ok in Hw. destruct Hw as (_ & js & t0 & ps & Hjs & Hp & _ & ->).
  apply persist_appends in Hp; [|exact Hsorted|exact Hmax].
  cbv zeta in Hp. destruct Hp as (Hseq & Hlast & _ & (n & Hlog) & _ & _ & _ & _ & _).
  rewrite bucket_of_set_pipes.
  eexists. split; [rewrite Hlog; apply last_snoc|].
  cbn [fst snd set_pipes BoltTransport.lastSeq].
  split; [apply key_id_PutUint64|]. split; [|exact Hjs].
  rewrite Hlast. apply key_seq_PutUint64.
  destruct Hsorted as (Hrange & _). unfold NextSequence. cbn [snd].
  rewrite Z.mod_small by lia. lia.
Qed.

(** ** Replay into a subscriber *)

Lemma dispatchFromHistory_loop_skips (lastEventID : string) (toSeq : Z)
  (c : list (bytes * bytes)) (s : Listener.t) :
  Forall (fun kv : bytes * bytes => (8 <= length kv.1)%nat) c ->
  dispatchFromHistory_loop lastEventID toSeq c false s
  = dispatchFromHistory_loop lastEventID toSeq (after_fromID lastEventID c) true s.
Proof.
  induction 1 as [|[k v] c Hlen _ IH]; [reflexivity|].
  cbn [fst] in Hlen. cbn [dispatchFromHistory_loop after_fromID negb]. unfold key_id.
  destruct (Nat.ltb_spec (length k) 8); [lia|].
  destruct (String.eqb _ _); [reflexivity|exact IH].
Qed.

Lemma hand_over_nil (s : Listener.t) : hand_over [] s = s.
Proof.
  unfold hand_over. destruct s as [received closed live takes].
  cbn [Listener.received Listener.closed Listener.live Listener.takes length].
  rewrite take_nil, app_nil_r, Nat.sub_0_r. reflexivity.
Qed.

Lemma hand_over_refused (us : list Update.t) (s : Listener.t) :
  Listener.takes s = O -> hand_over us s = s.
Proof.
  unfold hand_over. destruct s as [received closed live takes].
  cbn [Listener.received Listener.closed Listener.live Listener.takes]. intros ->.
  cbn [take Nat.sub]. rewrite app_nil_r. reflexivity.
Qed.

Lemma hand_over_cons (u : Update.t) (us : list Update.t) (s : Listener.t) (n : nat) :
  Listener.takes s = S n ->
  hand_over (u :: us) s
  = hand_over us (Listener.mk (Listener.received s ++ [u]) (Listener.closed s)
                    (Listener.live s) n).
Proof.
  unfold hand_over. intros ->.
  cbn [Listener.received Listener.closed Listener.live Listener.takes take length
       Nat.sub].
  rewrite <- app_assoc. reflexivity.
Qed.

Lemma dispatchFromHistory_loop_delivers (lastEventID : string) (toSeq : Z)
  (c : list (bytes * bytes)) :
  Forall (fun kv : bytes * bytes => (8 <= length kv.1)%nat) c ->
  forall (s : Listener.t) (us : list Update.t),
    Listener.closed s = false ->
    decode_all (if 0 <? toSeq then up_to_watermark toSeq c else c) = Some us ->
    dispatchFromHistory_loop lastEventID toSeq c true s = Ok (hand_over us s, None).
Proof.
  induction 1 as [|[k v] c Hlen _ IH]; intros s us Hopen Hdec.
  - destruct (0 <? toSeq); injection Hdec as <-; rewrite hand_over_nil; reflexivity.
  - cbn [fst] in Hlen. cbn [dispatchFromHistory_loop negb].
    assert (exists u us',
               json_Unmarshal v = Some u /\ us = u :: us'
               /\ decode_all (if 0 <? toSeq
                              then (if toSeq <=? Uint64 (take 8 k) then []
                                    else up_to_watermark toSeq c)
                              else c) = Some us') as (u & us' & Hu & -> & Hrest).
    { destruct (0 <? toSeq); cbn [up_to_watermark] in Hdec.
      - destruct (toSeq <=? Uint64 (take 8 k)); cbn [decode_all] in Hdec;
          destruct (json_Unmarshal v) as [u|]; try discriminate.
        + injection Hdec as <-. exists u, []. repeat split; reflexivity.
        + destruct (decode_all _) as [us'|]; [|discriminate].
          injection Hdec as <-. exists u, us'. repeat split; reflexivity.
      - cbn [decode_all] in Hdec.
        destruct (json_Unmarshal v) as [u|]; [|discriminate].
        destruct (decode_all _) as [us'|]; [|discriminate].
        injection Hdec as <-. exists u, us'. repeat split; reflexivity. }
    rewrite Hu. unfold Dispatch.
    destruct (Listener.takes s) as [|n] eqn:Htakes.
    { cbn [negb]. rewrite hand_over_refused by exact Htakes. reflexivity. }
    rewrite Hopen. cbn [negb].
    rewrite (hand_over_cons u us' s n Htakes), Hopen.
    destruct (0 <? toSeq) eqn:Hpos.
    + unfold key_seq. destruct (Nat.ltb_spec (length k) 8); [lia|].
      destruct (toSeq <=? Uint64 (take 8 k)).
      * injection Hrest as <-. rewrite hand_over_nil. reflexivity.
      * apply IH; [reflexivity|]. rewrite ?Hpos. exact Hrest.
    + apply IH; [reflexivity|]. rewrite ?Hpos. exact Hrest.
Qed.

(** Whatever makes the loop return, it has only added to what the
    subscriber received and has not closed the channel. *)
Lemma dispatchFromHistory_loop_Ok (lastEventID : string) (toSeq : Z)
  (c : list (bytes * bytes)) :
  forall (after : bool) (s s' : Listener.t) (e : option error),
    dispatchFromHistory_loop lastEventID toSeq c after s = Ok (s', e) ->
    Listener.closed s' = Listener.closed s
    /\ exists more, Listener.received s' = Listener.received s ++ more.
Proof.
  induction c as [|[k v] c IH]; intros after s s' e Hl;
    cbn [dispatchFromHistory_loop] in Hl.
  - injection Hl as <- _. split; [reflexivity|]. exists []. symmetry. apply app_nil_r.
  - destruct after; cbn [negb] in Hl.
    + destruct (json_Unmarshal v) as [u|].
      2:{ injection Hl as <- _. split; [reflexivity|].
          exists []. symmetry. apply app_nil_r. }
      unfold Dispatch in Hl.
      destruct (Listener.takes s) as [|n].
      { cbn [negb] in Hl. injection Hl as <- _. split; [reflexivity|].
        exists []. symmetry. apply app_nil_r. }
      destruct (Listener.closed s) eqn:Hc; [discriminate|]. cbn [negb] in Hl.
      assert (forall s1 : Listener.t,
                 s1 = Listener.mk (Listener.received s ++ [u]) false (Listener.live s) n ->
                 (Listener.closed s' = Listener.closed s1
                  /\ exists more, Listener.received s' = Listener.received s1 ++ more) ->
                 Listener.closed s' = false
                 /\ exists more, Listener.received s' = Listener.received s ++ more)
        as Hstep.
      { intros s1 -> [Hc' [more Hr]]. split; [exact Hc'|].
        exists (u :: more). rewrite Hr. cbn [Listener.received].
        rewrite <- app_assoc. reflexivity. }
      destruct (0 <? toSeq).
      * destruct (key_seq k) as [q|]; [|discriminate].
        destruct (toSeq <=? q).
        -- injection Hl as <- _. cbn [Listener.closed Listener.received].
           split; [reflexivity|]. exists [u]. reflexivity.
        -- eapply Hstep; [reflexivity|]. exact (IH _ _ _ _ Hl).
      * eapply Hstep; [reflexivity|]. exact (IH _ _ _ _ Hl).
    + destruct (key_id k) as [id|]; [|discriminate]. exact (IH _ _ _ _ Hl).
Qed.

(** X17: [dispatchFromHistory], started on a subscriber whose history
    input is open, closes that input on every path its read transaction
    can take (no bucket, a value that does not decode, a subscriber that
    disconnects, the watermark, the end of the log), after having only
    added to what the subscriber received; on a database that is not open
    the transaction does not run and the input is left open. On a log whose
    values decode the subscriber has then received, in key order, the
    updates stored after the entry of [lastEventID], up to the watermark,
    as far as it took them. *)
Theorem dispatchFromHistory_closes_history (t : BoltTransport.t)
  (lastEventID : string) (toSeq : Z) (s : Listener.t) :
  Listener.closed s = false ->
  (forall s',
      dispatchFromHistory t lastEventID toSeq s = Ok s' ->
      (Listener.closed s' = DB.opened (BoltTransport.db t))
      /\ exists more, Listener.received s' = Listener.received s ++ more)
  /\ (DB.opened (BoltTransport.db t) = false ->
      dispatchFromHistory t lastEventID toSeq s = Ok s)
  /\ (forall b us,
        DB.opened (BoltTransport.db t) = true ->
        DB.buckets (BoltTransport.db t) !! BoltTransport.bucketName t = Some b ->
        Forall (fun kv : bytes * bytes => (8 <= length kv.1)%nat) (Cursor b) ->
        let replay := after_fromID lastEventID (Cursor b) in
        decode_all (if 0 <? toSeq then up_to_watermark toSeq replay else replay)
        = Some us ->
        dispatchFromHistory t lastEventID toSeq s
        = Ok (Listener.mk (Listener.received s ++ take (Listener.takes s) us) true
                (Listener.live s) (Listener.takes s - length us))).
Proof.
  intros Hopen. unfold dispatchFromHistory. split; [|split].
  - intros s'. destruct (DB.opened (BoltTransport.db t)).
    + destruct (DB.buckets (BoltTransport.db t) !! BoltTransport.bucketName t)
        as [b|].
      * destruct (dispatchFromHistory_loop _ _ _ _ _) as [[s1 e]|] eqn:Hl;
          [|discriminate].
        apply dispatchFromHistory_loop_Ok in Hl. destruct Hl as [Hc [more Hr]].
        unfold close_history. rewrite Hc, Hopen.
        intros [= <-]. cbn [Listener.closed Listener.received].
        split; [reflexivity|]. exists more. exact Hr.
      * unfold close_history. rewrite Hopen. intros [= <-].
        cbn [Listener.closed Listener.received].
        split; [reflexivity|]. exists []. symmetry. apply app_nil_r.
    + intros [= <-]. split; [exact Hopen|]. exists []. symmetry. apply app_nil_r.
  - intros ->. reflexivity.
  - intros b us -> -> Hlen Hdec.
    rewrite dispatchFromHistory_loop_skips by exact Hlen.
    assert (Forall (fun kv : bytes * bytes => (8 <= length kv.1)%nat)
              (after_fromID lastEventID (Cursor b))) as Hlen'.
    { destruct (after_fromID_suffix lastEventID (Cursor b)) as [n ->].
      apply Forall_drop. exact Hlen. }
    rewrite (dispatchFromHistory_loop_delivers lastEventID toSeq _ Hlen' s us
               Hopen Hdec).
    unfold close_history, hand_over.
    cbn [Listener.closed Listener.received Listener.live Listener.takes].
    rewrite Hopen. reflexivity.
Qed.

(** ** The transport on a log of its own making *)

Lemma fetch_loop_returns (fromID : string) (toSeq : Z) (c : list (bytes * bytes)) :
  Forall (fun kv : bytes * bytes => (8 <= length kv.1)%nat) c ->
  forall (after : bool) (p : Pipe.t),
    exists res, fetch_loop fromID toSeq c after p = Ok res.
Proof.
  induction 1 as [|[k v] c Hlen _ IH]; intros after p; cbn [fetch_loop].
  - eexists. reflexivity.
  - cbn [fst] in Hlen. unfold key_id, key_seq.
    destruct (Nat.ltb_spec (length k) 8); [lia|].
    destruct after; cbn [negb]; [|apply IH].
    destruct (json_Unmarshal v) as [u|]; [|eexists; reflexivity].
    destruct (Pipe_Write p u) as [p' [|]]; cbn [negb]; [|eexists; reflexivity].
    destruct (0 <? toSeq); [|apply IH].
    destruct (toSeq <=? _); [eexists; reflexivity|apply IH].
Qed.

(** X18: on a log that only [Write] has written to (keys laid out by
    [persist], in increasing order) no call panics: [Write] returns, with
    an error or without, whatever the storage and the pipes answer, as long
    as the attached pipes exist; and the replay task returns for every
    [fromID], watermark and pipe. The only slicing of a key, [k[:8]] and
    [k[8:]], never meets a key shorter than 8 bytes. *)
Theorem transport_never_panics_on_its_log (h : heap) (t : BoltTransport.t) :
  sorted_log (bucket_of t) ->
  (forall pipe, pipe ∈ BoltTransport.pipes t -> is_Some (h !! pipe)) ->
  (forall r u, exists res, Write h t r u = Ok res)
  /\ (forall fromID toSeq p, exists res, fetch t fromID toSeq p = Ok res)
  /\ (forall r u h' t' e,
        Write h t r u = Ok (h', t', e) ->
        Bucket.sequence (bucket_of t) + 1 < 2 ^ 64 ->
        sorted_log (bucket_of t')
        /\ forall pipe, pipe ∈ BoltTransport.pipes t' -> is_Some (h' !! pipe)).
Proof.
  intros Hsorted Hpipes.
  pose proof (sorted_log_key_length _ Hsorted) as Hkeys.
  split; [|split].
  - intros r u. apply Write_returns; assumption.
  - intros fromID toSeq p. unfold fetch.
    destruct (DB.opened (BoltTransport.db t)); [|eexists; reflexivity].
    unfold bucket_of in Hkeys.
    destruct (DB.buckets (BoltTransport.db t) !! BoltTransport.bucketName t)
      as [b|]; [|eexists; reflexivity].
    cbn [default from_option id] in Hkeys. apply fetch_loop_returns. exact Hkeys.
  - intros r u h' t' [err|] Hw Hmax.
    + assert (h' = h /\ BoltTransport.db t' = BoltTransport.db t
              /\ BoltTransport.pipes t' = BoltTransport.pipes t
              /\ BoltTransport.bucketName t' = BoltTransport.bucketName t)
        as (-> & Hdb & Hps & Hname).
      { clear -Hw. unfold Write in Hw.
        destruct (BoltTransport.done t); [injection Hw as <- <-; repeat split|].
        destruct (json_Marshal u) as [js|]; [|injection Hw as <- <-; repeat split].
        destruct (persist t r (Update.ID u) js) as [[t1 [e|]]|] eqn:Hp;
          try discriminate.
        - injection Hw as <- <- _. unfold persist in Hp.
          destruct (DB.opened (BoltTransport.db t)).
          + destruct (persist_tx _ _ _ _ _) as [[[tx' seq] [e'|]]|]; try discriminate.
            injection Hp as <- _. repeat split.
          + injection Hp as <- _. repeat split.
        - destruct (fanout _ _ _ _) as [[h1 ps]|]; discriminate. }
      unfold bucket_of. rewrite Hdb, Hname, Hps. split; [exact Hsorted|exact Hpipes].
    + pose proof Hw as Hw'. apply Write_Ok in Hw'.
      destruct Hw' as (_ & js & t1 & ps & _ & Hp & _ & ->).
      apply persist_appends in Hp; [|exact Hsorted|exact Hmax].
      cbv zeta in Hp. destruct Hp as (_ & _ & _ & _ & _ & _ & _ & _ & Hsorted').
      rewrite bucket_of_set_pipes. split; [exact Hsorted'|].
      intros pipe Hin.
      destruct (decide (pipe ∈ BoltTransport.pipes t)) as [Hold|Hnew].
      * destruct (proj1 (Write_fanout h h' t _ r u pipe Hw) Hold) as (p & _ & Hp' & _).
        rewrite Hp'. eexists. reflexivity.
      * destruct (proj2 (Write_fanout h h' t _ r u pipe Hw) Hnew) as [_ Hout].
        contradiction.
Qed.

(** X19: the pump of a new subscriber. Created without a last event ID
    it has no history source, and what it writes to [Out] followed by what
    its live buffer holds is exactly the dispatchable live updates of the
    schedule, in order. Created with one, it serves the dispatchable
    history updates first, then the live ones, as [start_replay_then_live] states for
    any pump whose history source is open. *)
Theorem NewSubscriber_pump (allTargets : bool) (targets : gset string)
  (topics rawTopics templateTopics : list string)
  (lastEventID remoteAddr : string) (debug : bool) :
  let s := NewSubscriber allTargets targets topics rawTopics templateTopics
             lastEventID remoteAddr debug in
  (lastEventID = EmptyString ->
   forall evs out s',
     start s evs = (out, Some s') ->
     out ++ map Some (updateSrc.buffer (Subscriber.LiveSrc s'))
     = map Some (List.filter (dispatchableb s) (live_updates evs))
     /\ updateSrc.buffer (Subscriber.HistorySrc s') = [])
  /\ (lastEventID <> EmptyString ->
      forall evs1 evs2 out s',
        HistoryClosed ∉ evs1 ->
        start s (evs1 ++ HistoryClosed :: evs2) = (out, Some s') ->
        sent_updates out
        ++ updateSrc.buffer (Subscriber.HistorySrc s')
        ++ updateSrc.buffer (Subscriber.LiveSrc s')
        = List.filter (dispatchableb s) (history_updates evs1)
          ++ drop (sent_nils out) (List.filter (dispatchableb s) (live_updates evs1))
          ++ List.filter (dispatchableb s) (live_updates evs2)).
Proof using Template_Match.
  intros s.
  pose proof (pump_inv_NewSubscriber allTargets targets topics rawTopics
                templateTopics lastEventID remoteAddr debug) as Hinv.
  cbv zeta in Hinv. fold s in Hinv. split.
  - intros Hid evs out s' Hrun.
    assert (updateSrc.In (Subscriber.HistorySrc s) = false) as Hh
      by (unfold s, NewSubscriber; cbn [Subscriber.HistorySrc updateSrc.In];
          rewrite Hid; reflexivity).
    destruct (start_closed_history s evs s s' out Hinv Hh eq_refl Hrun)
      as (Hq & _ & _).
    destruct (start_drained evs s s' out (conj Hh eq_refl) Hrun) as [_ Hbuf].
    rewrite Hbuf in Hq. exact (conj Hq Hbuf).
  - intros Hid evs1 evs2 out s' Hopen Hrun.
    assert (updateSrc.In (Subscriber.HistorySrc s) = true) as Hh.
    { unfold s, NewSubscriber. cbn [Subscriber.HistorySrc updateSrc.In].
      destruct (String.eqb_spec lastEventID EmptyString); [contradiction|reflexivity]. }
    destruct (start_replay_then_live s s s' evs1 evs2 out Hinv Hh eq_refl Hopen Hrun)
      as (Hq & _). exact Hq.
Qed.

(** X20: what is left of a transport after [Close]: the stored log is
    intact but the database handle is closed, so a replay task that gets
    to its read transaction only then hands nothing to its pipe and
    reports the database's error, a replay into a subscriber does not even
    close the history input, and a [persist] stores nothing. *)
Theorem closed_transport_reads_nothing (h h' : heap) (t t' : BoltTransport.t)
  (e : option error) :
  BoltTransport.done t = false ->
  Close h t = Ok (h', t', e) ->
  DB.buckets (BoltTransport.db t') = DB.buckets (BoltTransport.db t)
  /\ (forall fromID toSeq p,
        fetch t' fromID toSeq p = Ok (p, Some ErrDatabaseNotOpen))
  /\ (forall lastEventID toSeq s, dispatchFromHistory t' lastEventID toSeq s = Ok s)
  /\ (forall r updateID updateJSON,
        persist t' r updateID updateJSON = Ok (t', Some ErrDatabaseNotOpen)).
Proof.
  intros Hopen. unfold Close. rewrite Hopen.
  destruct (close_pipes _ h) as [h1|]; [|discriminate].
  intros [= <- <- <-]. repeat split.
Qed.

(** ** The DSN *)

Lemma ParseUint_loop_range (s : string) :
  forall n v : Z,
    0 <= n < 2 ^ 64 -> ParseUint_loop s n = Some v -> n <= v < 2 ^ 64.
Proof.
  induction s as [|c s IH]; intros n v Hn; cbn [ParseUint_loop].
  - intros [= <-]. lia.
  - cbv zeta. set (b := Z.of_N (N_of_ascii c)).
    destruct (Z.leb_spec 48 b); cbn [andb]; [|discriminate].
    destruct (Z.leb_spec b 57); [|discriminate].
    destruct (Z.leb_spec (2 ^ 64) (n * 10 + (b - 48))); [discriminate|].
    intros Hv. apply IH in Hv; lia.
Qed.

(** X21: a transport that [NewBoltTransport] returns is open, has no pipe
    attached and no watermark yet; its bucket name is never empty (so
    [CreateBucketIfNotExists] cannot refuse it) and is "updates" unless the
    DSN names another; its size is a 64-bit value, 0 unless the DSN gives
    one; its cleanup frequency is 0.3 unless the DSN gives one; and its
    database is the file at the URL's path, or at its host when the path
    is empty. The constructor fails exactly when the size does not parse as
    an unsigned decimal below 2^64, the frequency does not parse, both the
    path and the host are empty, or the file cannot be opened. *)
Theorem NewBoltTransport_spec (u : URL.t) (bufferSize : nat) (bufferFullTimeout : Z) :
  let q := URL.Query u in
  let path := if String.eqb (URL.Path u) EmptyString then URL.Host u else URL.Path u in
  (forall t,
      NewBoltTransport u bufferSize bufferFullTimeout = Some t ->
      BoltTransport.bucketName t <> EmptyString
      /\ BoltTransport.bucketName t
         = (if String.eqb (Values_Get q "bucket_name") EmptyString
            then "updates"%string else Values_Get q "bucket_name")
      /\ 0 <= BoltTransport.size t < 2 ^ 64
      /\ (Values_Get q "size" = EmptyString -> BoltTransport.size t = 0)
      /\ (Values_Get q "cleanup_frequency" = EmptyString ->
          BoltTransport.cleanupFrequency t = (3 # 10)%Q)
      /\ path <> EmptyString
      /\ (exists buckets,
             bolt_Open path = Some buckets
             /\ BoltTransport.db t = DB.mk true buckets)
      /\ BoltTransport.pipes t = ∅
      /\ BoltTransport.done t = false
      /\ BoltTransport.lastSeq t = 0
      /\ BoltTransport.bufferSize t = bufferSize
      /\ BoltTransport.bufferFullTimeout t = bufferFullTimeout)
  /\ (NewBoltTransport u bufferSize bufferFullTimeout = None
      <-> (Values_Get q "size" <> EmptyString /\ ParseUint (Values_Get q "size") = None)
          \/ (Values_Get q "cleanup_frequency" <> EmptyString
              /\ ParseFloat (Values_Get q "cleanup_frequency") = None)
          \/ path = EmptyString
          \/ bolt_Open path = None).
Proof.
  intros q path. unfold NewBoltTransport. fold q. fold path.
  set (bn := Values_Get q "bucket_name").
  set (sp := Values_Get q "size").
  set (cp := Values_Get q "cleanup_frequency").
  assert ((if negb (String.eqb bn EmptyString) then bn else "updates"%string)
          <> EmptyString
          /\ (if negb (String.eqb bn EmptyString) then bn else "updates"%string)
             = (if String.eqb bn EmptyString then "updates"%string else bn))
    as [Hbn1 Hbn2].
  { destruct (String.eqb_spec bn EmptyString) as [Hbn|Hbn]; cbn [negb];
      (split; [first [exact Hbn|discriminate]|reflexivity]). }
  assert (forall size,
             (if negb (String.eqb sp EmptyString) then ParseUint sp else Some 0)
             = Some size ->
             0 <= size < 2 ^ 64 /\ (sp = EmptyString -> size = 0)) as Hsize.
  { intros size. destruct (String.eqb_spec sp EmptyString) as [Hsp|Hsp]; cbn [negb].
    - intros [= <-]. split; [lia|reflexivity].
    - unfold ParseUint. destruct (String.eqb sp EmptyString); [discriminate|].
      intros Hparse. apply ParseUint_loop_range in Hparse; [|lia].
      split; [lia|]. intros H. contradiction. }
  assert ((if negb (String.eqb sp EmptyString) then ParseUint sp else Some 0) = None
          <-> sp <> EmptyString /\ ParseUint sp = None) as Hsize_none.
  { destruct (String.eqb_spec sp EmptyString) as [Hsp|Hsp]; cbn [negb].
    - split; [discriminate|]. intros [H _]. contradiction.
    - split; [intros H; split; [exact Hsp|exact H]|intros [_ H]; exact H]. }
  assert (forall cf,
             (if negb (String.eqb cp EmptyString) then ParseFloat cp
              else Some (3 # 10)%Q) = Some cf ->
             cp = EmptyString -> cf = (3 # 10)%Q) as Hcf.
  { intros cf. destruct (String.eqb_spec cp EmptyString) as [Hcp|Hcp]; cbn [negb].
    - intros [= <-] _. reflexivity.
    - intros _ H. contradiction. }
  assert ((if negb (String.eqb cp EmptyString) then ParseFloat cp
           else Some (3 # 10)%Q) = None
          <-> cp <> EmptyString /\ ParseFloat cp = None) as Hcf_none.
  { destruct (String.eqb_spec cp EmptyString) as [Hcp|Hcp]; cbn [negb].
    - split; [discriminate|]. intros [H _]. contradiction.
    - split; [intros H; split; [exact Hcp|exact H]|intros [_ H]; exact H]. }
  destruct (if negb (String.eqb sp EmptyString) then ParseUint sp else Some 0)
    as [size|].
  2:{ split; [discriminate|]. split; [intros _; left; apply Hsize_none; reflexivity
                                      |reflexivity]. }
  destruct (if negb (String.eqb cp EmptyString) then ParseFloat cp
            else Some (3 # 10)%Q) as [cf|].
  2:{ split; [discriminate|].
      split; [intros _; right; left; apply Hcf_none; reflexivity|reflexivity]. }
  destruct (String.eqb_spec path EmptyString) as [Hpath|Hpath].
  { split; [discriminate|].
    split; [intros _; right; right; left; exact Hpath|reflexivity]. }
  destruct (bolt_Open path) as [buckets|].
  2:{ split; [discriminate|].
      split; [intros _; right; right; right; reflexivity|reflexivity]. }
  split.
  - intros t [= <-].
    cbn [BoltTransport.bucketName BoltTransport.size BoltTransport.cleanupFrequency
         BoltTransport.db BoltTransport.pipes BoltTransport.done
         BoltTransport.lastSeq BoltTransport.bufferSize
         BoltTransport.bufferFullTimeout].
    destruct (Hsize size eq_refl) as [Hrange Hzero].
    split; [exact Hbn1|]. split; [exact Hbn2|]. split; [exact Hrange|].
    split; [exact Hzero|]. split; [exact (Hcf cf eq_refl)|].
    split; [exact Hpath|]. split; [exists buckets; split; reflexivity|].
    repeat split.
  - split; [discriminate|].
    intros [H|[H|[H|H]]].
    + apply Hsize_none in H. discriminate H.
    + apply Hcf_none in H. discriminate H.
    + contradiction.
    + discriminate H.
Qed.

(** ** Live delivery *)

Lemma Writes_keeps_settings (ws : list (Q * Update.t)) :
  forall (h h' : heap) (t t' : BoltTransport.t),
    Writes h t ws = Some (h', t') ->
    BoltTransport.size t' = BoltTransport.size t
    /\ BoltTransport.cleanupFrequency t' = BoltTransport.cleanupFrequency t.
Proof.
  induction ws as [|[r u] ws IH]; intros h h' t t' Hw; cbn [Writes] in Hw.
  - injection Hw as _ <-. split; reflexivity.
  - destruct (Write h t r u) as [[[h1 t1] [e|]]|] eqn:Hw1; try discriminate.
    apply Write_Ok in Hw1. destruct Hw1 as (_ & js & t0 & ps & _ & Hp & _ & ->).
    apply persist_Ok in Hp. cbv zeta in Hp.
    destruct Hp as (_ & _ & _ & _ & _ & _ & _ & _ & Hsz & Hfreq & _).
    destruct (IH _ _ _ _ Hw) as [Hsz' Hfreq'].
    cbn [set_pipes BoltTransport.size BoltTransport.cleanupFrequency] in Hsz', Hfreq'.
    split; congruence.
Qed.

(** One [Write] and an attached pipe that is open and has room. *)
Lemma Write_live (h h' : heap) (t t' : BoltTransport.t) (r : Q) (u : Update.t)
  (pipe : loc) (p : Pipe.t) :
  Write h t r u = Ok (h', t', None) ->
  pipe ∈ BoltTransport.pipes t ->
  h !! pipe = Some p ->
  Pipe.closed p = false ->
  (length (Pipe.updates p) < Pipe.capacity p)%nat ->
  h' !! pipe = Some (Pipe.mk (Pipe.updates p ++ [u]) false (Pipe.capacity p)
                       (Pipe.bufferFullTimeout p))
  /\ pipe ∈ BoltTransport.pipes t'.
Proof.
  intros Hw Hin Hp Hopen Hroom.
  destruct (proj1 (Write_fanout h h' t t' r u pipe Hw) Hin) as (p0 & Hp0 & Hp' & Hstays).
  rewrite Hp in Hp0. injection Hp0 as <-.
  unfold Pipe_Write in Hp', Hstays. rewrite Hopen in Hp', Hstays.
  destruct (Nat.ltb_spec (length (Pipe.updates p)) (Pipe.capacity p)); [|lia].
  cbn [fst snd] in Hp', Hstays. split; [exact Hp'|]. apply Hstays. reflexivity.
Qed.

(** X22: the live path. Over any run of successful writes, a pipe that
    is attached, open and has room for them receives every update written,
    in the order written, behind what it already held, and is still
    attached afterwards; a pipe that is not attached is never written to
    and never becomes attached. *)
Theorem attached_pipe_receives_every_write (ws : list (Q * Update.t)) :
  forall (h h' : heap) (t t' : BoltTransport.t) (pipe : loc),
    Writes h t ws = Some (h', t') ->
    (forall p,
        pipe ∈ BoltTransport.pipes t ->
        h !! pipe = Some p ->
        Pipe.closed p = false ->
        (length (Pipe.updates p) + length ws <= Pipe.capacity p)%nat ->
        h' !! pipe = Some (Pipe.mk (Pipe.updates p ++ map snd ws) false
                             (Pipe.capacity p) (Pipe.bufferFullTimeout p))
        /\ pipe ∈ BoltTransport.pipes t')
    /\ (pipe ∉ BoltTransport.pipes t ->
        h' !! pipe = h !! pipe /\ pipe ∉ BoltTransport.pipes t').
Proof.
  induction ws as [|[r u] ws IH]; intros h h' t t' pipe Hw; cbn [Writes] in Hw.
  - injection Hw as <- <-. split.
    + intros p Hin Hp Hopen _. cbn [map]. rewrite app_nil_r, <- Hopen.
      split; [|exact Hin]. rewrite Hp. destruct p. reflexivity.
    + intros Hout. split; [reflexivity|exact Hout].
  - destruct (Write h t r u) as [[[h1 t1] [e|]]|] eqn:Hw1; try discriminate.
    destruct (IH h1 h' t1 t' pipe Hw) as [IHin IHout]. split.
    + intros p Hin Hp Hopen Hroom. cbn [length] in Hroom.
      destruct (Write_live h h1 t t1 r u pipe p Hw1 Hin Hp Hopen ltac:(lia))
        as [Hp1 Hin1].
      destruct (IHin _ Hin1 Hp1 eq_refl) as [Hp' Hin'].
      * cbn [Pipe.updates Pipe.capacity]. rewrite length_app. cbn [length]. lia.
      * split; [|exact Hin'].
        rewrite Hp'. cbn [Pipe.updates Pipe.capacity Pipe.bufferFullTimeout map snd].
        rewrite <- app_assoc. reflexivity.
    + intros Hout.
      destruct (proj2 (Write_fanout h h1 t t1 r u pipe Hw1) Hout) as [Hh1 Hout1].
      destruct (IHout Hout1) as [Hh' Hout']. split; [congruence|exact Hout'].
Qed.

(** X23: an update written between [CreatePipe] and the read transaction
    of the replay it started reaches the pipe twice when [fromID] names the
    entry that was the last one at [CreatePipe]: [Write] hands it to the
    pipe, and the replay, whose watermark is that last entry's sequence
    number, hands over the first entry at or beyond the watermark before it
    tests the watermark. *)
Theorem write_before_replay_is_delivered_twice (h h1 : heap)
  (t t1 : BoltTransport.t) (ws : list (Q * Update.t)) (pre : list Update.t)
  (u : Update.t) :
  let N := Z.of_nat (length ws) in
  BoltTransport.size t = 0 \/ (BoltTransport.cleanupFrequency t == 0)%Q ->
  0 <= BoltTransport.size t ->
  N + 1 < 2 ^ 64 ->
  bucket_of t = Bucket.mk 0 [] ->
  Writes h t ws = Some (h1, t1) ->
  map snd ws = pre ++ [u] ->
  Forall (fun x => Update.ID x <> Update.ID u) pre ->
  Update.ID u <> EmptyString ->
  (2 <= BoltTransport.bufferSize t)%nat ->
  exists pipe h2 t2,
    CreatePipe h1 t1 (Update.ID u)
    = (h2, t2, Some pipe, None, Some (mkFetchTask (Update.ID u) N pipe))
    /\ forall r w h3 t3 js,
        json_Marshal w = Some js ->
        json_Unmarshal js = Some w ->
        Write h2 t2 r w = Ok (h3, t3, None) ->
        exists p p',
          h3 !! pipe = Some p
          /\ Pipe.updates p = [w]
          /\ fetch t3 (Update.ID u) N p = Ok (p', None)
          /\ Pipe.updates p' = [w; w].
Proof.
  intros N Hoff Hsize HN Hfresh Hw Hus Hpre Hid Hroom.
  assert (ws <> []) as Hne by (intros ->; destruct pre; discriminate Hus).
  destruct (Writes_suffix ws [] 0%nat h h1 t t1 Hne Hsize
              ltac:(cbn [length]; lia) ltac:(reflexivity) Hfresh Hw)
    as (k & _ & _ & Hk & Hb & Hlook & Hopen & Hlast & Hdone & Hname & Hbs & Hbt).
  destruct (Writes_keeps_settings ws h h1 t t1 Hw) as [Hsz Hfreq].
  rewrite (Hk Hoff) in Hb. cbn [app] in Hb, Hlast.
  rewrite length_map in Hb, Hlast. fold N in Hb, Hlast.
  cbn [Z.of_nat] in Hb. rewrite drop_0 in Hb.
  assert (Z.of_nat (length (map snd ws)) = N) as Hlen
    by (unfold N; apply f_equal, length_map).
  rewrite CreatePipe_open by assumption. cbv zeta.
  set (pipe := fresh (dom h1)).
  eexists _, _, _. split; [rewrite Hlast; reflexivity|].
  intros r w h3 t3 js Hjs Hdecode Hw3.
  set (new := NewPipe (BoltTransport.bufferSize t1) (BoltTransport.bufferFullTimeout t1)).
  destruct (Write_live _ _ _ _ r w pipe new Hw3) as [Hp3 _].
  { cbn [set_pipes BoltTransport.pipes]. apply elem_of_union_l, elem_of_singleton.
    reflexivity. }
  { apply lookup_insert_eq. }
  { reflexivity. }
  { unfold new. cbn [NewPipe Pipe.updates Pipe.capacity length]. lia. }
  pose proof (fun H1 H2 H3 H4 =>
                Write_suffix _ _ _ _ r w (map snd ws) 0%nat H1 H2 H3 H4 Hw3) as Hlog.
  destruct Hlog as (k3 & _ & _ & Hk3 & Hb3 & Hlook3 & Hopen3 & _).
  { cbn [set_pipes BoltTransport.size]. rewrite Hsz. exact Hsize. }
  { rewrite Hlen. lia. }
  { lia. }
  { rewrite bucket_of_set_pipes, drop_0, Hlen. exact Hb. }
  rewrite Hk3 in Hb3
    by (cbn [set_pipes BoltTransport.size BoltTransport.cleanupFrequency];
        rewrite Hsz, Hfreq; exact Hoff).
  cbn [Z.of_nat] in Hb3. rewrite drop_0, Hus in Hb3.
  eexists _, _. split; [exact Hp3|]. split; [reflexivity|].
  assert (N = Z.of_nat (length pre) + 1) as HNpre.
  { rewrite <- Hlen, Hus, length_app. cbn [length]. lia. }
  assert (after_fromID (Update.ID u) (Cursor (bucket_of t3))
          = log_entries (N + 1) [w]) as Hafter.
  { rewrite Hb3. unfold Cursor. cbn [Bucket.inodes].
    rewrite <- app_assoc. cbn [app].
    rewrite after_fromID_log_entries; [|exact Hpre|reflexivity].
    f_equal. lia. }
  split.
  - apply (fetch_replays _ _ _ (bucket_of t3) _ [w]).
    + exact Hopen3.
    + exact Hlook3.
    + rewrite Hb3. unfold Cursor. cbn [Bucket.inodes]. apply log_entries_key_length.
    + rewrite Hafter. assert ((0 <? N) = true) as -> by lia.
      cbn [log_entries up_to_watermark].
      rewrite Uint64_take_PutUint64 by lia.
      assert ((N <=? N + 1) = true) as -> by lia.
      cbn [decode_all]. rewrite Hjs. cbn [default from_option id].
      rewrite Hdecode. reflexivity.
  - rewrite deliver_updates; [reflexivity|reflexivity|].
    unfold new. cbn [NewPipe Pipe.updates Pipe.capacity length app].
    rewrite Hbs. lia.
Qed.

(** ** The log whatever the cursor does after a deletion *)

Lemma sublist_map_fst {A B : Type} (l1 l2 : list (A * B)) :
  l1 `sublist_of` l2 -> map fst l1 `sublist_of` map fst l2.
Proof. induction 1; cbn [map]; constructor; assumption. Qed.

Lemma del_inode_app (k v : bytes) (kept c' : list (bytes * bytes)) :
  Forall (fun kv : bytes * bytes => kv.1 <> k) kept ->
  del_inode k (kept ++ (k, v) :: c') = kept ++ c'.
Proof.
  induction 1 as [|[k0 v0] kept Hne _ IH]; cbn [app del_inode].
  - rewrite bytes_compare_refl. reflexivity.
  - cbn [fst] in Hne.
    destruct (bytes_compare k k0) eqn:Hc;
      [apply bytes_compare_Eq in Hc; congruence|rewrite IH; reflexivity..].
Qed.

Lemma NoDup_keys_remove (k v : bytes) (kept c' : list (bytes * bytes)) :
  NoDup (map fst (kept ++ (k, v) :: c')) ->
  NoDup (map fst (kept ++ c')) /\ Forall (fun kv : bytes * bytes => kv.1 <> k) kept.
Proof.
  rewrite !map_app. cbn [map fst]. rewrite !NoDup_app, NoDup_cons.
  intros (Hkept & Hdisj & _ & Hc'). split.
  - split; [exact Hkept|]. split; [|exact Hc'].
    intros x Hx Hin. apply (Hdisj x Hx). right. exact Hin.
  - apply Forall_forall. intros kv Hin Heq.
    apply (Hdisj kv.1); [|rewrite Heq; left].
    apply list_elem_of_In, in_map, list_elem_of_In. exact Hin.
Qed.

(** What a run of the loop that returns no error has done, wherever the
    cursor went after each deletion: of the keys that come before the
    first one whose prefix exceeds [removeUntil] it has deleted some, and
    it has touched no other key. *)
Lemma cleanup_loop_skipping_Ok (removeUntil s : Z) (c : list (bytes * bytes)) :
  forall (skips : list nat) (pass : nat) (kept A B : list (bytes * bytes))
         (b' : Bucket.t),
    c = A ++ B ->
    Forall (fun kv : bytes * bytes => removeUntil < Uint64 (take 8 kv.1)) B ->
    NoDup (map fst (kept ++ c)) ->
    cleanup_loop_skipping skips pass removeUntil c (Bucket.mk s (kept ++ c))
    = Ok (b', None) ->
    exists A', b' = Bucket.mk s (kept ++ A' ++ B) /\ A' `sublist_of` A.
Proof.
  induction c as [|[k v] c IH]; intros skips pass kept A B b' Hc HB Hnd Hl;
    cbn [cleanup_loop_skipping] in Hl.
  - symmetry in Hc. apply app_eq_nil in Hc. destruct Hc as [-> ->].
    injection Hl as <-. exists []. split; [reflexivity|constructor].
  - destruct pass as [|pass].
    + destruct (key_seq k) as [q|] eqn:Hk; [|discriminate].
      apply key_seq_Ok in Hk. destruct Hk as [-> _].
      destruct (Z.ltb_spec removeUntil (Uint64 (take 8 k))) as [Hgt|Hle].
      { injection Hl as <-. exists A. rewrite Hc. split; reflexivity. }
      destruct A as [|a A].
      { cbn [app] in Hc. subst B. apply Forall_cons in HB. cbn [fst] in HB. lia. }
      cbn [app] in Hc. injection Hc as <- ->.
      destruct (NoDup_keys_remove k v kept (A ++ B) Hnd) as [Hnd' Hkept].
      unfold Delete in Hl. destruct (Delete_fails k); [discriminate|].
      cbn [Bucket.sequence Bucket.inodes] in Hl.
      rewrite del_inode_app in Hl by exact Hkept.
      assert (exists A', b' = Bucket.mk s (kept ++ A' ++ B) /\ A' `sublist_of` A)
        as (A' & -> & Hsub).
      { destruct skips as [|j skips];
          exact (IH _ _ kept A B b' eq_refl HB Hnd' Hl). }
      exists A'. split; [reflexivity|]. constructor. exact Hsub.
    + assert (kept ++ (k, v) :: c = (kept ++ [(k, v)]) ++ c) as Hmove
        by (rewrite <- app_assoc; reflexivity).
      rewrite Hmove in Hl, Hnd.
      destruct A as [|a A].
      * cbn [app] in Hc. subst B. apply Forall_cons in HB. destruct HB as [_ HB].
        destruct (IH _ _ (kept ++ [(k, v)]) [] c b' eq_refl HB Hnd Hl)
          as (A' & -> & Hsub).
        apply sublist_nil_r in Hsub. subst A'.
        exists []. split; [|constructor]. cbn [app]. rewrite <- app_assoc. reflexivity.
      * cbn [app] in Hc. injection Hc as <- ->.
        destruct (IH _ _ (kept ++ [(k, v)]) A B b' eq_refl HB Hnd Hl)
          as (A' & -> & Hsub).
        exists ((k, v) :: A'). split; [|constructor; exact Hsub].
        cbn [app]. rewrite <- app_assoc. reflexivity.
Qed.

Lemma cleanup_loop_skipping_none (removeUntil : Z) (c : list (bytes * bytes)) :
  forall bucket : Bucket.t,
    cleanup_loop_skipping [] O removeUntil c bucket = cleanup_loop removeUntil c bucket.
Proof.
  induction c as [|[k v] c IH]; intros bucket;
    cbn [cleanup_loop_skipping cleanup_loop]; [reflexivity|].
  destruct (key_seq k); [|reflexivity].
  destruct (_ <? _); [reflexivity|].
  destruct (Delete bucket k) as [bucket' [err|]]; [reflexivity|apply IH].
Qed.

Lemma Write_skipping_none (h : heap) (t : BoltTransport.t) (r : Q) (u : Update.t) :
  Write_skipping [] h t r u = Write h t r u.
Proof.
  unfold Write_skipping, Write, persist_skipping, persist, persist_tx_skipping,
    persist_tx, cleanup_skipping, cleanup.
  destruct (BoltTransport.done t); [reflexivity|].
  destruct (json_Marshal u); [|reflexivity].
  destruct (DB.opened _); [|reflexivity].
  destruct (CreateBucketIfNotExists _ _) as [tx1 bucket0].
  destruct (NextSequence bucket0) as [bucket1 seq].
  destruct (cleanup_skips _ _ _ _); [reflexivity|].
  rewrite cleanup_loop_skipping_none. reflexivity.
Qed.

Lemma Writes_skipping_none (ws : list (Q * Update.t)) :
  forall (h : heap) (t : BoltTransport.t),
    Writes_skipping h t (map (fun w : Q * Update.t => ([], w.1, w.2)) ws)
    = Writes h t ws.
Proof.
  induction ws as [|[r u] ws IH]; intros h t; cbn [map Writes_skipping Writes fst snd];
    [reflexivity|].
  rewrite Write_skipping_none.
  destruct (Write h t r u) as [[[h1 t1] [e|]]|]; try reflexivity. apply IH.
Qed.

Lemma Forall_sublist {A : Type} (P : A -> Prop) (l1 l2 : list A) :
  l1 `sublist_of` l2 -> Forall P l2 -> Forall P l1.
Proof.
  induction 1 as [|x l1 l2 _ IH|x l1 l2 _ IH]; intros H; [constructor|..];
    apply Forall_cons in H; destruct H as [Hx H];
    [constructor; [exact Hx|]|]; apply IH; exact H.
Qed.

Lemma log_entries_log_key (bound : Z) (us : list Update.t) :
  forall seq : Z,
    0 <= seq -> seq + Z.of_nat (length us) <= bound + 1 ->
    Forall (fun kv : bytes * bytes => log_key bound kv.1) (log_entries seq us).
Proof.
  induction us as [|u us IH]; intros seq H0 Hle; cbn [log_entries]; constructor.
  - exists seq, (bytes_of_string (Update.ID u)).
    cbn [length] in Hle. split; [lia|reflexivity].
  - cbn [length] in Hle. apply IH; lia.
Qed.

Lemma log_entries_prefix_ge (us : list Update.t) :
  forall seq : Z,
    0 <= seq -> seq + Z.of_nat (length us) <= 2 ^ 64 ->
    Forall (fun kv : bytes * bytes => seq <= Uint64 (take 8 kv.1))
      (log_entries seq us).
Proof.
  induction us as [|u us IH]; intros seq H0 Hle; cbn [log_entries]; constructor.
  - cbn [fst]. cbn [length] in Hle. rewrite Uint64_take_PutUint64 by lia. lia.
  - cbn [length] in Hle.
    assert (Forall (fun kv : bytes * bytes => seq + 1 <= Uint64 (take 8 kv.1))
              (log_entries (seq + 1) us)) as H by (apply IH; lia).
    revert H. apply List.Forall_impl. intros kv Hkv. lia.
Qed.

Lemma log_entries_NoDup (us : list Update.t) :
  forall seq : Z,
    0 <= seq -> seq + Z.of_nat (length us) <= 2 ^ 64 ->
    NoDup (map fst (log_entries seq us)).
Proof.
  induction us as [|u us IH]; intros seq H0 Hle; cbn [log_entries map fst];
    [constructor|].
  cbn [length] in Hle.
  apply NoDup_cons. split; [|apply IH; lia].
  intros Hin. apply list_elem_of_In, in_map_iff in Hin.
  destruct Hin as ([k v] & Hk & Hin). cbn [fst] in Hk. subst k.
  assert (Forall (fun kv : bytes * bytes => seq + 1 <= Uint64 (take 8 kv.1))
            (log_entries (seq + 1) us)) as Hge
    by (apply log_entries_prefix_ge; lia).
  rewrite List.Forall_forall in Hge. apply Hge in Hin. cbn [fst] in Hin.
  rewrite Uint64_take_PutUint64 in Hin by lia. lia.
Qed.

Lemma log_entries_take_drop (us : list Update.t) (seq : Z) (m : nat) :
  (m <= length us)%nat ->
  log_entries seq (take m us) ++ log_entries (seq + Z.of_nat m) (drop m us)
  = log_entries seq us.
Proof.
  intros Hm. rewrite <- (take_drop m us) at 3. rewrite log_entries_app.
  rewrite length_take. do 2 f_equal. lia.
Qed.

Lemma retained_eq (size : Z) (us : list Update.t) :
  retained size us
  = log_entries (Z.of_nat (Z.to_nat (Z.of_nat (length us) - size)) + 1)
      (drop (Z.to_nat (Z.of_nat (length us) - size)) us).
Proof. unfold retained. cbv zeta. f_equal. lia. Qed.

Lemma persist_skipping_Ok (skips : list nat) (t t' : BoltTransport.t) (r : Q)
  (updateID : string) (updateJSON : bytes) :
  persist_skipping skips t r updateID updateJSON = Ok (t', None) ->
  let seq := (Bucket.sequence (bucket_of t) + 1) mod 2 ^ 64 in
  let key := PutUint64 seq ++ bytes_of_string updateID in
  exists b2,
    cleanup_skipping skips t r (Bucket.mk seq (Bucket.inodes (bucket_of t))) seq
    = Ok (b2, None)
    /\ bucket_of t' = Bucket.mk (Bucket.sequence b2)
                        (put_inode key updateJSON (Bucket.inodes b2))
    /\ DB.buckets (BoltTransport.db t') !! BoltTransport.bucketName t'
       = Some (bucket_of t')
    /\ BoltTransport.lastSeq t' = seq
    /\ BoltTransport.bucketName t' = BoltTransport.bucketName t
    /\ BoltTransport.size t' = BoltTransport.size t.
Proof.
  unfold persist_skipping, persist_tx_skipping, bucket_of, CreateBucketIfNotExists,
    NextSequence.
  destruct (DB.opened (BoltTransport.db t)); [|discriminate].
  set (name := BoltTransport.bucketName t).
  destruct (DB.buckets (BoltTransport.db t) !! name) as [b0|] eqn:Hb;
    cbn [default Bucket.sequence Bucket.inodes];
    (destruct (cleanup_skipping skips t r _ _) as [[b2 [e|]]|] eqn:Hc;
     [discriminate| |discriminate]);
    unfold Put; (destruct (Put_fails _ _) eqn:Hp; [discriminate|]);
    intros [= <-]; exists b2;
    cbn [BoltTransport.db BoltTransport.bucketName set_db set_lastSeq DB.buckets
         DB.opened BoltTransport.lastSeq BoltTransport.size];
    fold name; rewrite lookup_insert_eq; cbn [default];
    repeat split; reflexivity.
Qed.

Lemma Write_skipping_Ok (skips : list nat) (h h' : heap) (t t' : BoltTransport.t)
  (r : Q) (u : Update.t) :
  Write_skipping skips h t r u = Ok (h', t', None) ->
  exists js t1 ps,
    json_Marshal u = Some js
    /\ persist_skipping skips t r (Update.ID u) js = Ok (t1, None)
    /\ t' = set_pipes t1 ps.
Proof.
  unfold Write_skipping.
  destruct (BoltTransport.done t); [discriminate|].
  destruct (json_Marshal u) as [js|]; [|discriminate].
  destruct (persist_skipping skips t r (Update.ID u) js) as [[t1 [e|]]|] eqn:Hp;
    try discriminate.
  destruct (fanout _ _ _ _) as [[h1 ps]|] eqn:Hf; [|discriminate].
  intros [= <- <-]. exists js, t1, ps.
  split; [reflexivity|]. split; [exact Hp|reflexivity].
Qed.

(** One successful [Write], wherever the cursor of its cleanup goes: if
    the log ended with the entries that [retained] describes, and what
    came before them was left over from older entries, the same holds
    after the call. *)
Lemma Write_skipping_keeps (skips : list nat) (h h' : heap)
  (t t' : BoltTransport.t) (r : Q) (u : Update.t) (us : list Update.t)
  (older : list (bytes * bytes)) :
  0 < BoltTransport.size t ->
  Z.of_nat (length us) + 1 < 2 ^ 64 ->
  bucket_of t = Bucket.mk (Z.of_nat (length us))
                  (older ++ retained (BoltTransport.size t) us) ->
  older `sublist_of`
    log_entries 1
      (take (Z.to_nat (Z.of_nat (length us) - BoltTransport.size t)) us) ->
  Write_skipping skips h t r u = Ok (h', t', None) ->
  exists older' : list (bytes * bytes),
    bucket_of t' = Bucket.mk (Z.of_nat (length (us ++ [u])))
                     (older' ++ retained (BoltTransport.size t) (us ++ [u]))
    /\ older' `sublist_of`
         log_entries 1
           (take (Z.to_nat (Z.of_nat (length (us ++ [u])) - BoltTransport.size t))
              (us ++ [u]))
    /\ DB.buckets (BoltTransport.db t') !! BoltTransport.bucketName t'
       = Some (bucket_of t')
    /\ BoltTransport.size t' = BoltTransport.size t
    /\ BoltTransport.bucketName t' = BoltTransport.bucketName t.
Proof.
  intros Hsize Hn Hinv Hsub Hw.
  apply Write_skipping_Ok in Hw. destruct Hw as (js & t1 & ps & Hjs & Hp & ->).
  apply persist_skipping_Ok in Hp. cbv zeta in Hp.
  destruct Hp as (b2 & Hc & Hb & Hlook & _ & Hname & Hsz).
  rewrite Hinv in Hc, Hb. cbn [Bucket.sequence Bucket.inodes] in Hc, Hb.
  rewrite Z.mod_small in Hc, Hb by lia.
  rewrite !retained_eq in *.
  assert (length (us ++ [u]) = S (length us)) as Hlen
    by (rewrite length_app; cbn [length]; lia).
  rewrite Hlen.
  set (n := Z.of_nat (length us)) in *.
  set (size := BoltTransport.size t) in *.
  replace (Z.of_nat (S (length us))) with (n + 1) by lia.
  set (M := Z.to_nat (n - size)) in *.
  set (M' := Z.to_nat (n + 1 - size)).
  assert (M <= M' <= length us)%nat as HM by lia.
  set (A := older ++ log_entries (Z.of_nat M + 1) (take (M' - M) (drop M us))).
  set (B := log_entries (Z.of_nat M' + 1) (drop M' us)).
  assert (older ++ log_entries (Z.of_nat M + 1) (drop M us) = A ++ B) as HAB.
  { unfold A, B. rewrite <- app_assoc. f_equal.
    rewrite <- (log_entries_take_drop (drop M us) (Z.of_nat M + 1) (M' - M))
      by (rewrite length_drop; lia).
    rewrite drop_drop. f_equal.
    replace (M + (M' - M))%nat with M' by lia. f_equal. lia. }
  assert (A `sublist_of` log_entries 1 (take M' us)) as HA.
  { unfold A.
    rewrite <- (log_entries_take_drop (take M' us) 1 M)
      by (rewrite length_take; lia).
    rewrite take_take, Nat.min_l by lia.
    replace (drop M (take M' us)) with (take (M' - M) (drop M us))
      by (rewrite take_drop_commute; do 2 f_equal; lia).
    replace (1 + Z.of_nat M) with (Z.of_nat M + 1) by lia.
    apply sublist_app; [exact Hsub|reflexivity]. }
  rewrite HAB in Hc.
  assert (exists older1,
             b2 = Bucket.mk (n + 1) (older1 ++ B)
             /\ older1 `sublist_of` log_entries 1 (take M' us))
    as (older1 & -> & Hsub1).
  { unfold cleanup_skipping in Hc.
    destruct (cleanup_skips _ _ _ _).
    - injection Hc as <-. exists A. split; [reflexivity|exact HA].
    - unfold Cursor in Hc. cbn [Bucket.inodes] in Hc.
      destruct (cleanup_loop_skipping_Ok (n + 1 - size) (n + 1) (A ++ B) skips O
                  [] A B b2 eq_refl) as (A' & -> & HA').
      + assert (Forall (fun kv : bytes * bytes =>
                          Z.of_nat M' + 1 <= Uint64 (take 8 kv.1)) B) as HB
          by (apply log_entries_prefix_ge; rewrite ?length_drop; lia).
        revert HB. apply List.Forall_impl. intros kv Hkv. lia.
      + cbn [app].
        apply (sublist_NoDup _ (map fst (log_entries 1 us))).
        * apply log_entries_NoDup; lia.
        * apply sublist_map_fst.
          rewrite <- (log_entries_take_drop us 1 M') by lia.
          replace (1 + Z.of_nat M') with (Z.of_nat M' + 1) by lia.
          apply sublist_app; [exact HA|reflexivity].
      + exact Hc.
      + exists A'. split; [reflexivity|]. etransitivity; [exact HA'|exact HA]. }
  cbn [Bucket.sequence Bucket.inodes] in Hb.
  rewrite put_inode_last in Hb.
  - exists older1. rewrite bucket_of_set_pipes.
    cbn [set_pipes BoltTransport.db BoltTransport.bucketName BoltTransport.size].
    split; [|split; [|split; [exact Hlook|split; [exact Hsz|exact Hname]]]].
    + rewrite Hb. f_equal. rewrite <- app_assoc. f_equal.
      fold M'. rewrite drop_app_le by lia. rewrite log_entries_app.
      fold B. f_equal. cbn [log_entries]. rewrite Hjs. cbn [default from_option id].
      rewrite length_drop.
      replace (Z.of_nat M' + 1 + Z.of_nat (length us - M')) with (n + 1) by lia.
      reflexivity.
    + fold M'. rewrite take_app_le by lia. exact Hsub1.
  - lia.
  - replace (n + 1 - 1) with n by lia. apply Forall_app. split.
    + apply (Forall_sublist _ _ _ Hsub1).
      apply log_entries_log_key; rewrite ?length_take; lia.
    + apply log_entries_log_key; rewrite ?length_drop; lia.
Qed.

Lemma Writes_skipping_keeps (ws : list (list nat * Q * Update.t)) :
  forall (us : list Update.t) (older : list (bytes * bytes)) (h h' : heap)
         (t t' : BoltTransport.t),
    ws <> [] ->
    0 < BoltTransport.size t ->
    Z.of_nat (length us) + Z.of_nat (length ws) < 2 ^ 64 ->
    bucket_of t = Bucket.mk (Z.of_nat (length us))
                    (older ++ retained (BoltTransport.size t) us) ->
    older `sublist_of`
      log_entries 1
        (take (Z.to_nat (Z.of_nat (length us) - BoltTransport.size t)) us) ->
    Writes_skipping h t ws = Some (h', t') ->
    exists older' : list (bytes * bytes),
      DB.buckets (BoltTransport.db t') !! BoltTransport.bucketName t
      = Some (Bucket.mk (Z.of_nat (length (us ++ map snd ws)))
                (older' ++ retained (BoltTransport.size t) (us ++ map snd ws)))
      /\ older' `sublist_of`
           log_entries 1
             (take (Z.to_nat (Z.of_nat (length (us ++ map snd ws))
                              - BoltTransport.size t))
                (us ++ map snd ws)).
Proof.
  induction ws as [|[[skips r] u] ws IH];
    intros us older h h' t t' Hne Hsize Hn Hinv Hsub Hw;
    [contradiction Hne; reflexivity|].
  cbn [Writes_skipping] in Hw. cbn [length] in Hn.
  destruct (Write_skipping skips h t r u) as [[[h1 t1] [e|]]|] eqn:Hw1;
    try discriminate.
  destruct (Write_skipping_keeps skips h h1 t t1 r u us older Hsize ltac:(lia)
              Hinv Hsub Hw1) as (older1 & Hb1 & Hsub1 & Hlook1 & Hsz1 & Hname1).
  cbn [map snd].
  replace (us ++ u :: map snd ws) with ((us ++ [u]) ++ map snd ws)
    by (rewrite <- app_assoc; reflexivity).
  destruct ws as [|w ws].
  - injection Hw as <- <-. cbn [map]. rewrite app_nil_r.
    exists older1. rewrite <- Hname1, Hlook1, Hb1. split; [reflexivity|exact Hsub1].
  - rewrite <- Hsz1, <- Hname1. rewrite <- Hsz1 in Hb1, Hsub1.
    apply (IH (us ++ [u]) older1 h1 h' t1 t').
    + discriminate.
    + rewrite Hsz1. exact Hsize.
    + rewrite length_app. cbn [length] in *. lia.
    + exact Hb1.
    + exact Hsub1.
    + exact Hw.
Qed.

(** X5: whatever the cleanup frequency, the random draws and the keys the
    cursor passes over after each deletion, the log after N successful
    writes to a new bucket ends with the entries of the [size] most recent
    updates (all N of them while N is at most [size]), under their
    sequence numbers and in the order written: none of them is ever
    deleted. What precedes them is left over from the older entries, in
    their order. *)
Theorem log_keeps_the_most_recent (h h' : heap) (t t' : BoltTransport.t)
  (ws : list (list nat * Q * Update.t)) :
  let N := Z.of_nat (length ws) in
  let size := BoltTransport.size t in
  0 < size ->
  bucket_of t = Bucket.mk 0 [] ->
  ws <> [] -> N < 2 ^ 64 ->
  Writes_skipping h t ws = Some (h', t') ->
  exists older : list (bytes * bytes),
    DB.buckets (BoltTransport.db t') !! BoltTransport.bucketName t
    = Some (Bucket.mk N (older ++ retained size (map snd ws)))
    /\ older `sublist_of`
         log_entries 1 (take (Z.to_nat (N - size)) (map snd ws))
    /\ Z.of_nat (length (retained size (map snd ws))) = Z.min N size.
Proof.
  intros N size Hsize Hfresh Hne HN Hw.
  destruct (Writes_skipping_keeps ws [] [] h h' t t' Hne Hsize
              ltac:(cbn [length]; fold N; lia)) as (older & Hlook & Hsub).
  - rewrite Hfresh, retained_eq, drop_nil. reflexivity.
  - rewrite take_nil. constructor.
  - exact Hw.
  - cbn [app] in Hlook, Hsub. rewrite length_map in Hlook, Hsub.
    exists older. split; [exact Hlook|]. split; [exact Hsub|].
    rewrite retained_eq, log_entries_length, length_drop, length_map.
    fold N size. lia.
Qed.

End Mercure.

(** ** The sample states are what the operations produce *)

Example sample_written_by_Writes :
  Writes id_Marshal accepts_put accepts_delete ∅ (sample_transport 0 1) sample_writes
  = Some (∅, sample_written).
Proof. vm_compute. reflexivity. Qed.

Example sample_retained_by_Writes :
  Writes id_Marshal accepts_put accepts_delete ∅ (sample_transport 2 1) sample_writes
  = Some (∅, sample_retained).
Proof. vm_compute. reflexivity. Qed.

Example sample_attached_by_CreatePipe :
  CreatePipe ∅ (sample_transport 0 1) EmptyString
  = (sample_attached_heap, sample_attached, Some 1%positive, None, None).
Proof. vm_compute. reflexivity. Qed.

(** ** The theorems at concrete inputs *)

Lemma retention_keeps_most_recent_witness :
  exists b,
    DB.buckets (BoltTransport.db sample_retained) !! "updates"%string = Some b
    /\ Z.of_nat (length (Bucket.inodes b)) = 2
    /\ map (fun kv : bytes * bytes => key_seq kv.1) (Bucket.inodes b) = [Ok 2; Ok 3].
Proof.
  destruct (retention_keeps_most_recent id_Marshal accepts_put accepts_delete
              ∅ ∅ (sample_transport 2 1) sample_retained sample_writes)
    as [(b & Hb & _ & Hlen & Hkeys) _].
  - reflexivity.
  - reflexivity.
  - reflexivity.
  - vm_compute. reflexivity.
  - reflexivity.
  - reflexivity.
  - exists b. split; [exact Hb|]. split; [exact Hlen|exact Hkeys].
Defined.

Lemma cleanup_runs_iff_witness :
  cleanup_skips 5 (3 # 10) (1 # 2) 7 = false
  <-> 0 < 5 /\ (0 < 3 # 10)%Q /\ 5 < 7 /\ ((3 # 10 == 1)%Q \/ (3 # 10 <= 1 # 2)%Q).
Proof.
  apply (cleanup_runs_iff accepts_delete (sample_transport 5 (3 # 10)) (1 # 2)
           (Bucket.mk 6 []) 7).
  - cbn. lia.
  - split; unfold Qle; cbn; lia.
  - split; [unfold Qle|unfold Qlt]; cbn; lia.
Defined.


Example sample_narrow_CreatePipe :
  CreatePipe ∅ sample_narrow EmptyString
  = (sample_narrow_heap, sample_narrow_attached, Some 1%positive, None, None).
Proof. vm_compute. reflexivity. Qed.

Example sample_evicted_by_Writes :
  Writes id_Marshal accepts_put accepts_delete sample_narrow_heap
    sample_narrow_attached sample_narrow_writes
  = Some (sample_evicted_heap, sample_evicted).
Proof. vm_compute. reflexivity. Qed.

Example sample_evicted_Close :
  Close sample_evicted_heap sample_evicted
  = Ok (sample_evicted_heap, sample_evicted_closed, None).
Proof. vm_compute. reflexivity. Qed.


Lemma Write_failure_is_atomic_witness :
  Write id_Marshal refuses_put accepts_delete sample_attached_heap sample_attached 0
    (sample_update "1")
  = Ok (sample_attached_heap, set_lastSeq sample_attached 1, Some ErrPut)
  /\ BoltTransport.db (set_lastSeq sample_attached 1) = BoltTransport.db sample_attached.
Proof.
  assert (Write id_Marshal refuses_put accepts_delete sample_attached_heap
            sample_attached 0 (sample_update "1")
          = Ok (sample_attached_heap, set_lastSeq sample_attached 1, Some ErrPut)) as Hw
    by (vm_compute; reflexivity).
  split; [exact Hw|].
  exact (proj1 (proj2 (Write_failure_is_atomic id_Marshal refuses_put accepts_delete
                         _ _ _ _ _ _ _ Hw))).
Defined.

Lemma persist_key_layout_witness :
  Bucket.inodes (bucket_of sample_persisted)
  = [(PutUint64 1 ++ bytes_of_string "1", bytes_of_string "1")]
  /\ sorted_log (bucket_of sample_persisted).
Proof.
  destruct (persist_key_layout id_Marshal accepts_put accepts_delete (sample_transport 0 1)
              sample_persisted 0 "1" (bytes_of_string "1"))
    as (_ & _ & _ & _ & _ & _ & _ & _ & Hsorted & _).
  - change (bucket_of (sample_transport 0 1)) with (Bucket.mk 0 []).
    split; [cbn; lia|]. split; constructor.
  - change (bucket_of (sample_transport 0 1)) with (Bucket.mk 0 []). cbn. lia.
  - vm_compute. reflexivity.
  - split; [vm_compute; reflexivity|exact Hsorted].
Defined.



(** The entry that reaches the watermark is itself replayed: with the
    watermark 2 taken before the write of "3", a replay from "2" hands "3"
    to the pipe. *)
Example fetch_passes_watermark :
  fetch id_Unmarshal sample_written "2" 2 (NewPipe 5 1000)
  = Ok (Pipe.mk [sample_update "3"] false 5 1000, None).
Proof. vm_compute. reflexivity. Qed.

(** An unknown ID replays nothing. *)
Example fetch_unknown_fromID :
  fetch id_Unmarshal sample_written "999" 3 (NewPipe 5 1000)
  = Ok (NewPipe 5 1000, None).
Proof. vm_compute. reflexivity. Qed.

Lemma fetch_without_watermark_witness :
  fetch id_Unmarshal sample_reopened "1" 0 (NewPipe 5 1000)
  = Ok (Pipe.mk [sample_update "2"; sample_update "3"] false 5 1000, None).
Proof.
  destruct (fetch_without_watermark id_Unmarshal ∅ sample_reopened sample_reopened
              "1" (bucket_of sample_reopened) (NewPipe 5 1000)
              [sample_update "2"; sample_update "3"])
    as (pipe & h' & t' & _ & Hfetch).
  - reflexivity.
  - reflexivity.
  - discriminate.
  - reflexivity.
  - vm_compute. reflexivity.
  - vm_compute. repeat constructor.
  - vm_compute. reflexivity.
  - exact Hfetch.
Defined.

Lemma delivered_updates_pass_filters_witness :
  IsAuthorized (sample_subscriber "") (sample_update "1") = true
  /\ (IsSubscribed prefix_Match (sample_subscriber "") (sample_update "1")).1 = true.
Proof.
  destruct (delivered_updates_pass_filters prefix_Match (sample_subscriber "")
              [LiveRecv (sample_update "1"); OutSend] (sample_update "1"))
    as (Hauth & Hsub & _).
  - apply pump_inv_NewSubscriber.
  - vm_compute. constructor.
  - split; [exact Hauth|exact Hsub].
Defined.

Lemma match_cache_consistent_witness :
  (IsSubscribed_calls prefix_Match (sample_subscriber "")
     [sample_update "1"; sample_update "2"]).1
  = map (fun u => existsb (topic_match prefix_Match (sample_subscriber ""))
                    (Update.Topics u))
      [sample_update "1"; sample_update "2"].
Proof.
  exact (proj1 (proj2 (match_cache_consistent prefix_Match (sample_subscriber "")
                         [sample_update "1"; sample_update "2"]
                         (cache_consistent_empty prefix_Match _)))).
Defined.

(** A run in which the pump sends [nil]: a subscriber that resumes from "8"
    gets a live update before any history, and a reader then takes what the
    pump offers, a [nil] pointer, while the live update is gone from its
    buffer and the history source is still open. *)
Example pump_drops_live_update :
  (start prefix_Match (sample_subscriber "8") [LiveRecv (sample_update "11"); OutSend]).1
  = [None]
  /\ (exists s,
        (start prefix_Match (sample_subscriber "8")
           [LiveRecv (sample_update "11"); OutSend]).2 = Some s
        /\ updateSrc.buffer (Subscriber.LiveSrc s) = []
        /\ updateSrc.In (Subscriber.HistorySrc s) = true).
Proof. vm_compute. split; [reflexivity|]. eexists. repeat split. Qed.

(** ** Further sample runs *)

Example sample_delivered_by_Write :
  Write id_Marshal accepts_put accepts_delete sample_attached_heap sample_attached 0
    (sample_update "1")
  = Ok (sample_delivered_heap, sample_delivered, None).
Proof. vm_compute. reflexivity. Qed.

Example sample_pump_live :
  start prefix_Match (sample_subscriber "")
    [LiveRecv (sample_update "1"); LiveRecv (sample_update "2"); OutSend]
  = ([Some (sample_update "1")], Some (sample_pump "" false [sample_update "2"])).
Proof. vm_compute. reflexivity. Qed.

Example sample_pump_replaying :
  start prefix_Match (sample_subscriber "8")
    [HistoryRecv (sample_update "9"); LiveRecv (sample_update "11"); OutSend; OutSend]
  = ([Some (sample_update "9"); None], Some (sample_pump "8" true [])).
Proof. vm_compute. reflexivity. Qed.

Example sample_pump_caught_up :
  start prefix_Match (sample_subscriber "8")
    ([HistoryRecv (sample_update "9"); LiveRecv (sample_update "11")]
     ++ HistoryClosed :: [OutSend; OutSend])
  = ([Some (sample_update "9"); Some (sample_update "11")],
     Some (sample_pump "8" false [])).
Proof. vm_compute. reflexivity. Qed.

(** ** The further theorems at concrete inputs *)

Lemma big_endian_round_trip_witness :
  Uint64 (PutUint64 258 ++ [7]) = 258
  /\ PutUint64 (Uint64 ([0; 0; 0; 0; 0; 0; 1; 2] ++ [7])) = [0; 0; 0; 0; 0; 0; 1; 2].
Proof.
  destruct (big_endian_round_trip 258 [0; 0; 0; 0; 0; 0; 1; 2] [7]) as (H1 & H2 & _).
  - lia.
  - reflexivity.
  - repeat constructor; unfold is_byte; lia.
  - split; [exact H1|exact H2].
Defined.

Lemma key_order_is_sequence_order_witness :
  bytes_compare (PutUint64 9 ++ bytes_of_string "z") (PutUint64 256 ++ bytes_of_string "a")
  = Lt.
Proof.
  destruct (key_order_is_sequence_order 9 256 "z" "a") as (Hlt & _).
  - lia.
  - lia.
  - apply Hlt. lia.
Defined.

Lemma key_parses_back_witness :
  key_seq (PutUint64 7 ++ bytes_of_string "a-b") = Ok 7
  /\ key_id (PutUint64 7 ++ bytes_of_string "a-b") = Ok "a-b"%string
  /\ key_seq [1; 2; 3] = Panic.
Proof.
  destruct (key_parses_back 7 "a-b" [1; 2; 3]) as (H1 & H2 & H3 & _).
  - lia.
  - cbn. lia.
  - split; [exact H1|]. split; [exact H2|exact H3].
Defined.

Lemma log_without_retention_keeps_everything_witness :
  DB.buckets (BoltTransport.db sample_written) !! "updates"%string
  = Some (Bucket.mk 3 (log_entries id_Marshal 1 (map snd sample_writes)))
  /\ BoltTransport.lastSeq sample_written = 3.
Proof.
  destruct (log_without_retention_keeps_everything id_Marshal accepts_put
              accepts_delete ∅ ∅ (sample_transport 0 1) sample_written sample_writes)
    as (Hlog & Hlast & _).
  - left. reflexivity.
  - cbn. lia.
  - reflexivity.
  - discriminate.
  - cbn. lia.
  - vm_compute. reflexivity.
  - split; [exact Hlog|exact Hlast].
Defined.

Example sample_skipped_by_Writes_skipping :
  Writes_skipping id_Marshal accepts_put accepts_delete ∅
    (sample_transport 1 (1 # 2)) sample_skipping_writes
  = Some (∅, sample_skipped).
Proof. vm_compute. reflexivity. Qed.

Lemma log_keeps_the_most_recent_witness :
  exists older : list (bytes * bytes),
    DB.buckets (BoltTransport.db sample_skipped) !! "updates"%string
    = Some (Bucket.mk 4 (older ++ [sample_entry 4 "4"]))
    /\ older `sublist_of`
         [sample_entry 1 "1"; sample_entry 2 "2"; sample_entry 3 "3"].
Proof.
  destruct (log_keeps_the_most_recent id_Marshal accepts_put accepts_delete
              ∅ ∅ (sample_transport 1 (1 # 2)) sample_skipped
              sample_skipping_writes)
    as (older & Hlog & Hsub & _).
  - cbn. lia.
  - reflexivity.
  - discriminate.
  - cbn. lia.
  - vm_compute. reflexivity.
  - exists older. split; [exact Hlog|exact Hsub].
Defined.

Lemma reconnect_replays_later_writes_witness :
  exists p,
    fetch id_Unmarshal sample_resumed "1" 3 (NewPipe 5 1000) = Ok (p, None)
    /\ Pipe.updates p = [sample_update "2"; sample_update "3"]
    /\ Pipe.closed p = false.
Proof.
  destruct (reconnect_replays_later_writes id_Marshal id_Unmarshal accepts_put
              accepts_delete ∅ ∅ (sample_transport 0 1) sample_written sample_writes
              [] [sample_update "2"; sample_update "3"] (sample_update "1"))
    as (pipe & h2 & t2 & p & Hcreate & _ & Hfetch & Hupdates & Hclosed).
  - cbn. lia.
  - cbn. lia.
  - reflexivity.
  - vm_compute. reflexivity.
  - reflexivity.
  - left. reflexivity.
  - constructor.
  - discriminate.
  - repeat constructor; eexists; (split; [reflexivity|vm_compute; reflexivity]).
  - cbn. lia.
  - assert (t2 = sample_resumed) as ->.
    { vm_compute in Hcreate. injection Hcreate as _ <- _. vm_compute. reflexivity. }
    exists p. split; [exact Hfetch|]. split; [exact Hupdates|exact Hclosed].
Defined.

Lemma Write_offers_update_to_every_pipe_witness :
  sample_delivered_heap !! 1%positive
  = Some (Pipe_Write (NewPipe 5 1000) (sample_update "1")).1
  /\ (1%positive ∈ BoltTransport.pipes sample_delivered
      <-> (Pipe_Write (NewPipe 5 1000) (sample_update "1")).2 = true).
Proof.
  destruct (Write_offers_update_to_every_pipe id_Marshal accepts_put accepts_delete
              sample_attached_heap sample_delivered_heap sample_attached
              sample_delivered 0 (sample_update "1")) as [_ Hpipes].
  - vm_compute. reflexivity.
  - destruct (proj1 (Hpipes 1%positive)) as (p & Hp & Hp' & Hstays).
    + vm_compute. reflexivity.
    + assert (p = NewPipe 5 1000) as ->
        by (vm_compute in Hp; injection Hp as <-; reflexivity).
      split; [exact Hp'|exact Hstays].
Defined.

Lemma failed_persist_reuses_sequence_witness :
  persist (refuses_value (bytes_of_string "1")) accepts_delete (sample_transport 0 1)
    0 "1" (bytes_of_string "1")
  = Ok (set_lastSeq (sample_transport 0 1) 1, Some ErrPut)
  /\ BoltTransport.lastSeq sample_retried = 1.
Proof.
  assert (persist (refuses_value (bytes_of_string "1")) accepts_delete
            (sample_transport 0 1) 0 "1" (bytes_of_string "1")
          = Ok (set_lastSeq (sample_transport 0 1) 1, Some ErrPut)) as Hp
    by (vm_compute; reflexivity).
  split; [exact Hp|].
  destruct (proj2 (failed_persist_reuses_sequence _ _ _ _ _ _ _ _ Hp) eq_refl)
    as (_ & _ & Hnext).
  destruct (Hnext 0%Q "2"%string (bytes_of_string "2") sample_retried) as [Hlast _].
  - vm_compute. reflexivity.
  - exact Hlast.
Defined.

Lemma pump_is_fifo_after_history_witness :
  [Some (sample_update "1")] ++ map Some ([] ++ [sample_update "2"])
  = map Some ([] ++ [] ++ List.filter (dispatchableb prefix_Match (sample_subscriber ""))
                            [sample_update "1"; sample_update "2"]).
Proof.
  destruct (pump_is_fifo_after_history prefix_Match (sample_subscriber "")
              (sample_subscriber "") (sample_pump "" false [sample_update "2"])
              [LiveRecv (sample_update "1"); LiveRecv (sample_update "2"); OutSend]
              [Some (sample_update "1")]) as (Hq & _).
  - apply pump_inv_NewSubscriber.
  - reflexivity.
  - reflexivity.
  - vm_compute. reflexivity.
  - exact Hq.
Defined.

Lemma pump_serves_history_while_open_witness :
  sent_updates [Some (sample_update "9"); None] ++ []
  = [] ++ List.filter (dispatchableb prefix_Match (sample_subscriber "8"))
            [sample_update "9"]
  /\ [] = drop (sent_nils [Some (sample_update "9"); None])
            ([] ++ List.filter (dispatchableb prefix_Match (sample_subscriber "8"))
                     [sample_update "11"]).
Proof.
  destruct (pump_serves_history_while_open prefix_Match (sample_subscriber "8")
              (sample_subscriber "8") (sample_pump "8" true [])
              [HistoryRecv (sample_update "9"); LiveRecv (sample_update "11");
               OutSend; OutSend]
              [Some (sample_update "9"); None]) as (Hhist & Hlive & _).
  - apply pump_inv_NewSubscriber.
  - reflexivity.
  - reflexivity.
  - intros Hin. repeat (apply elem_of_cons in Hin as [Hin|Hin]; [discriminate Hin|]).
    apply elem_of_nil in Hin. exact Hin.
  - vm_compute. reflexivity.
  - split; [exact Hhist|exact Hlive].
Defined.

Lemma pump_replays_then_goes_live_witness :
  sent_updates [Some (sample_update "9"); Some (sample_update "11")] ++ [] ++ []
  = ([] ++ List.filter (dispatchableb prefix_Match (sample_subscriber "8"))
             [sample_update "9"])
    ++ drop (sent_nils [Some (sample_update "9"); Some (sample_update "11")])
         ([] ++ List.filter (dispatchableb prefix_Match (sample_subscriber "8"))
                  [sample_update "11"])
    ++ List.filter (dispatchableb prefix_Match (sample_subscriber "8")) [].
Proof.
  destruct (pump_replays_then_goes_live prefix_Match (sample_subscriber "8")
              (sample_subscriber "8") (sample_pump "8" false [])
              [HistoryRecv (sample_update "9"); LiveRecv (sample_update "11")]
              [OutSend; OutSend]
              [Some (sample_update "9"); Some (sample_update "11")]) as (Hq & _).
  - apply pump_inv_NewSubscriber.
  - reflexivity.
  - reflexivity.
  - intros Hin. repeat (apply elem_of_cons in Hin as [Hin|Hin]; [discriminate Hin|]).
    apply elem_of_nil in Hin. exact Hin.
  - vm_compute. reflexivity.
  - exact Hq.
Defined.

Lemma dispatch_assigns_ID_witness :
  dispatch id_Marshal accepts_put accepts_delete (Some "1"%string) ∅
    (sample_transport 0 1) 0 (sample_update "")
  = Ok (sample_update "1", ∅, sample_persisted, None)
  /\ Update.ID (sample_update "1") <> EmptyString
  /\ exists kv,
      last (Bucket.inodes (bucket_of sample_persisted)) = Some kv
      /\ key_id kv.1 = Ok (Update.ID (sample_update "1")).
Proof.
  assert (dispatch id_Marshal accepts_put accepts_delete (Some "1"%string) ∅
            (sample_transport 0 1) 0 (sample_update "")
          = Ok (sample_update "1", ∅, sample_persisted, None)) as Hd
    by (vm_compute; reflexivity).
  split; [exact Hd|].
  destruct (dispatch_assigns_ID id_Marshal accepts_put accepts_delete (Some "1"%string)
              ∅ ∅ (sample_transport 0 1) sample_persisted 0 (sample_update "")
              (sample_update "1")) as (Hid & _ & _ & _ & _ & kv & Hlast & Hkey & _).
  - discriminate.
  - change (bucket_of (sample_transport 0 1)) with (Bucket.mk 0 []).
    split; [cbn; lia|split; constructor].
  - change (bucket_of (sample_transport 0 1)) with (Bucket.mk 0 []). cbn. lia.
  - exact Hd.
  - split; [exact Hid|]. exists kv. split; [exact Hlast|exact Hkey].
Defined.

Lemma dispatchFromHistory_closes_history_witness :
  dispatchFromHistory id_Unmarshal sample_written "1" 3 (Listener.mk [] false [] 5)
  = Ok (Listener.mk ([] ++ take 5 [sample_update "2"; sample_update "3"]) true []
          (5 - 2)).
Proof.
  destruct (dispatchFromHistory_closes_history id_Unmarshal sample_written "1" 3
              (Listener.mk [] false [] 5)) as (_ & _ & Hreplay).
  - reflexivity.
  - apply (Hreplay (bucket_of sample_written) [sample_update "2"; sample_update "3"]).
    + reflexivity.
    + vm_compute. reflexivity.
    + vm_compute. repeat constructor.
    + vm_compute. reflexivity.
Defined.

Lemma transport_never_panics_on_its_log_witness :
  (exists res,
      Write id_Marshal accepts_put accepts_delete ∅ sample_written 0 (sample_update "4")
      = Ok res)
  /\ (exists res, fetch id_Unmarshal sample_written "2" 3 (NewPipe 5 1000) = Ok res).
Proof.
  destruct (transport_never_panics_on_its_log id_Marshal id_Unmarshal accepts_put
              accepts_delete ∅ sample_written) as (Hwrite & Hfetch & _).
  - apply (Writes_sorted_log id_Marshal accepts_put accepts_delete sample_writes
             ∅ ∅ (sample_transport 0 1) sample_written).
    + change (bucket_of (sample_transport 0 1)) with (Bucket.mk 0 []).
      split; [cbn; lia|split; constructor].
    + change (bucket_of (sample_transport 0 1)) with (Bucket.mk 0 []). cbn. lia.
    + vm_compute. reflexivity.
  - intros pipe Hin. apply elem_of_empty in Hin. destruct Hin.
  - split; [apply Hwrite|apply Hfetch].
Defined.

Lemma closed_transport_reads_nothing_witness :
  fetch id_Unmarshal sample_closed "1" 3 (NewPipe 5 1000)
  = Ok (NewPipe 5 1000, Some ErrDatabaseNotOpen)
  /\ dispatchFromHistory id_Unmarshal sample_closed "1" 3 (Listener.mk [] false [] 5)
     = Ok (Listener.mk [] false [] 5).
Proof.
  destruct (closed_transport_reads_nothing id_Unmarshal accepts_put accepts_delete
              sample_attached_heap sample_closed_heap sample_attached sample_closed None)
    as (_ & Hfetch & Hreplay & _).
  - reflexivity.
  - vm_compute. reflexivity.
  - split; [apply Hfetch|apply Hreplay].
Defined.

Lemma attached_pipe_receives_every_write_witness :
  sample_streamed_heap !! 1%positive
  = Some (Pipe.mk ([] ++ map snd sample_writes) false 5 1000)
  /\ 1%positive ∈ BoltTransport.pipes sample_resumed.
Proof.
  destruct (attached_pipe_receives_every_write id_Marshal accepts_put accepts_delete
              sample_writes sample_attached_heap sample_streamed_heap sample_attached
              sample_resumed 1%positive) as [Hin _].
  - vm_compute. reflexivity.
  - apply (Hin (NewPipe 5 1000)).
    + vm_compute. reflexivity.
    + vm_compute. reflexivity.
    + reflexivity.
    + cbn. lia.
Defined.

Lemma write_before_replay_is_delivered_twice_witness :
  exists p',
    fetch id_Unmarshal sample_late "3" 3 (Pipe.mk [sample_update "4"] false 5 1000)
    = Ok (p', None)
    /\ Pipe.updates p' = [sample_update "4"; sample_update "4"].
Proof.
  destruct (write_before_replay_is_delivered_twice id_Marshal id_Unmarshal accepts_put
              accepts_delete ∅ ∅ (sample_transport 0 1) sample_written sample_writes
              [sample_update "1"; sample_update "2"] (sample_update "3"))
    as (pipe & h2 & t2 & Hcreate & Htwice).
  - left. reflexivity.
  - cbn. lia.
  - cbn. lia.
  - reflexivity.
  - vm_compute. reflexivity.
  - reflexivity.
  - repeat constructor; discriminate.
  - discriminate.
  - cbn. lia.
  - assert (h2 = sample_attached_heap /\ t2 = sample_resumed /\ pipe = 1%positive)
      as (-> & -> & ->).
    { vm_compute in Hcreate. injection Hcreate as <- <- <-.
      repeat split; vm_compute; reflexivity. }
    destruct (Htwice 0%Q (sample_update "4") sample_late_heap sample_late
                (bytes_of_string "4")) as (p & p' & Hp & _ & Hfetch & Hupdates).
    + reflexivity.
    + vm_compute. reflexivity.
    + vm_compute. reflexivity.
    + assert (p = Pipe.mk [sample_update "4"] false 5 1000) as ->
        by (vm_compute in Hp; injection Hp as <-; reflexivity).
      exists p'. split; [exact Hfetch|exact Hupdates].
Defined.

(** ** The constructor and the publisher's side at concrete inputs *)

Example ParseUint_samples :
  ParseUint "18446744073709551615" = Some (2 ^ 64 - 1)
  /\ ParseUint "18446744073709551616" = None
  /\ ParseUint "007" = Some 7
  /\ ParseUint "+1" = None
  /\ ParseUint "1_000" = None
  /\ ParseUint "" = None.
Proof. vm_compute. repeat split. Qed.

Example NewBoltTransport_sample :
  NewBoltTransport sample_ParseFloat sample_Open
    (URL.mk "" "test.db" {[ "size"%string := ["5"%string];
                            "cleanup_frequency"%string := ["1"%string] ]})
    5 1000
  = Some (BoltTransport.mk (BoltTransport.db sample_written) "updates" 5 1 ∅ false 0
            5 1000)
  /\ NewBoltTransport sample_ParseFloat sample_Open
       (URL.mk "" "" {[ "bucket_name"%string := ["demo"%string] ]}) 5 1000
     = None
  /\ NewBoltTransport sample_ParseFloat sample_Open
       (URL.mk "" "test.db" {[ "size"%string := ["-1"%string] ]}) 5 1000
     = None.
Proof. vm_compute. repeat split. Qed.

Example getAuthorizedTargets_samples :
  getAuthorizedTargets false {[ "foo"%string; "bar"%string ]} ["foo"%string; "bar"%string]
  = inl {[ "foo"%string; "bar"%string ]}
  /\ getAuthorizedTargets false {[ "foo"%string ]} ["foo"%string; "baz"%string; "qux"%string]
     = inr "baz"%string
  /\ getAuthorizedTargets true ∅ ["baz"%string] = inl {[ "baz"%string ]}.
Proof. vm_compute. repeat split. Qed.
